(** * MapReduce word counter: a model of [main.go] and its pipeline

    The development follows the program bottom-up.

    - [GoString]: Go strings as byte strings, with the parts of Go's
      [unicode/utf8], [unicode] and [strings] packages that the worker
      calls ([range] over a string, [strings.FieldsFunc],
      [unicode.IsLetter], [strings.ToLower]).
    - [Worker]: the body of the worker's [for fn := range workQueue] loop:
      opening a file, the chunked read loop and the per-file tally.
    - [Pipeline]: [processFiles] as an interleaving transition system over
      the orchestrator, the worker goroutines, the reducer goroutines and
      the two channels, with the allocation of the channels before it.
    - [Fmt], [Report], [Program]: the formatting verbs used for output,
      [printResult] and [main].
    - [ProcessFilesTest], [Earlier]: the test of [processFiles] and the
      tokenizer of an earlier version of the worker. *)

From Stdlib Require Import ZArith List String Ascii Bool Lia Permutation.
From stdpp Require Import base gmap strings list fin_maps.

Set Warnings "-clear-no-such-hyp".
Local Open Scope Z_scope.

(** ** Go strings and runes *)

Module GoString.

(** A Go [string] is a sequence of bytes; Rocq's [string] is a sequence
    of 8-bit [ascii] values, so the two coincide. A [rune] is an [int32]
    code point; every rune handled below is produced by the decoder and
    lies in [0, 0x10FFFF]. *)
Definition rune := Z.

Definition byteVal (c : ascii) : Z := Z.of_N (N_of_ascii c).
Definition toByte (x : Z) : ascii := ascii_of_N (Z.to_N (x mod 256)).

Fixpoint takeS (n : nat) (s : string) : string :=
  match n, s with
  | S n', String c t => String c (takeS n' t)
  | _, _ => EmptyString
  end.

Fixpoint dropS (n : nat) (s : string) : string :=
  match n, s with
  | S n', String _ t => dropS n' t
  | _, _ => s
  end.

(** *** [unicode/utf8] *)

Definition RuneError : rune := 0xFFFD.
Definition MaxRune : rune := 0x10FFFF.
Definition RuneSelf : Z := 0x80.

Definition maskx : Z := 0x3F.
Definition mask2 : Z := 0x1F.
Definition mask3 : Z := 0x0F.
Definition mask4 : Z := 0x07.
Definition locb : Z := 0x80.
Definition hicb : Z := 0xBF.

Definition xx : Z := 0xF1.
Definition as_ : Z := 0xF0.
Definition s1 : Z := 0x02.
Definition s2 : Z := 0x13.
Definition s3 : Z := 0x03.
Definition s4 : Z := 0x23.
Definition s5 : Z := 0x34.
Definition s6 : Z := 0x04.
Definition s7 : Z := 0x44.

(** The table [first]: information about the first byte of an encoding. *)
Definition first (b : Z) : Z :=
  if b <? 0x80 then as_
  else if b <? 0xC2 then xx
  else if b <? 0xE0 then s1
  else if b =? 0xE0 then s2
  else if b <? 0xED then s3
  else if b =? 0xED then s4
  else if b <? 0xF0 then s3
  else if b =? 0xF0 then s5
  else if b <? 0xF4 then s6
  else if b =? 0xF4 then s7
  else xx.

(** The table [acceptRanges]: the range allowed for the second byte. *)
Definition acceptRanges (i : Z) : Z * Z :=
  if i =? 0 then (locb, hicb)
  else if i =? 1 then (0xA0, hicb)
  else if i =? 2 then (locb, 0x9F)
  else if i =? 3 then (0x90, hicb)
  else if i =? 4 then (locb, 0x8F)
  else (0, 0).

(** [utf8.DecodeRuneInString]: the first rune of [s] and its width in
    bytes; an invalid or truncated encoding gives [(RuneError, 1)]. *)
Definition DecodeRuneInString (s : string) : rune * nat :=
  match s with
  | EmptyString => (RuneError, 0%nat)
  | String c0 t0 =>
      let b0 := byteVal c0 in
      let x := first b0 in
      if as_ <=? x then ((if x =? xx then RuneError else b0), 1%nat)
      else
        let sz := Z.land x 7 in
        let accept := acceptRanges (Z.shiftr x 4) in
        if Z.of_nat (String.length s) <? sz then (RuneError, 1%nat)
        else
          match t0 with
          | EmptyString => (RuneError, 1%nat)
          | String c1 t1 =>
              let b1 := byteVal c1 in
              if (b1 <? fst accept) || (snd accept <? b1) then (RuneError, 1%nat)
              else if sz <=? 2 then
                (Z.lor (Z.shiftl (Z.land b0 mask2) 6) (Z.land b1 maskx), 2%nat)
              else
                match t1 with
                | EmptyString => (RuneError, 1%nat)
                | String c2 t2 =>
                    let b2 := byteVal c2 in
                    if (b2 <? locb) || (hicb <? b2) then (RuneError, 1%nat)
                    else if sz <=? 3 then
                      (Z.lor (Z.lor (Z.shiftl (Z.land b0 mask3) 12)
                                    (Z.shiftl (Z.land b1 maskx) 6))
                             (Z.land b2 maskx), 3%nat)
                    else
                      match t2 with
                      | EmptyString => (RuneError, 1%nat)
                      | String c3 _ =>
                          let b3 := byteVal c3 in
                          if (b3 <? locb) || (hicb <? b3) then (RuneError, 1%nat)
                          else
                            (Z.lor (Z.lor (Z.lor (Z.shiftl (Z.land b0 mask4) 18)
                                                 (Z.shiftl (Z.land b1 maskx) 12))
                                          (Z.shiftl (Z.land b2 maskx) 6))
                                   (Z.land b3 maskx), 4%nat)
                      end
                end
          end
  end.

(** [for i, r := range s]: the runes of [s] in order, each with the bytes
    [s[i:i+width]] it was decoded from. The loop advances by the width of
    each rune, which is at least one, so [length s] iterations suffice. *)
Fixpoint rangeLoop (fuel : nat) (s : string) : list (rune * string) :=
  match fuel with
  | O => []
  | S fuel' =>
      match s with
      | EmptyString => []
      | String _ _ =>
          let '(r, w) := DecodeRuneInString s in
          (r, takeS w s) :: rangeLoop fuel' (dropS w s)
      end
  end.

Definition rangeString (s : string) : list (rune * string) :=
  rangeLoop (String.length s) s.

(** [utf8.AppendRune] on an empty slice: the UTF-8 encoding of [r]. *)
Definition encode3 (r : rune) : string :=
  String (toByte (Z.lor 0xE0 (Z.shiftr r 12)))
    (String (toByte (Z.lor 0x80 (Z.land (Z.shiftr r 6) maskx)))
       (String (toByte (Z.lor 0x80 (Z.land r maskx))) EmptyString)).

Definition EncodeRune (r : rune) : string :=
  let i := r mod 2 ^ 32 in
  if i <=? 0x7F then String (toByte r) EmptyString
  else if i <=? 0x7FF then
    String (toByte (Z.lor 0xC0 (Z.shiftr r 6)))
      (String (toByte (Z.lor 0x80 (Z.land r maskx))) EmptyString)
  else if (MaxRune <? i) || ((0xD800 <=? i) && (i <=? 0xDFFF)) then encode3 RuneError
  else if i <=? 0xFFFF then encode3 r
  else
    String (toByte (Z.lor 0xF0 (Z.shiftr r 18)))
      (String (toByte (Z.lor 0x80 (Z.land (Z.shiftr r 12) maskx)))
         (String (toByte (Z.lor 0x80 (Z.land (Z.shiftr r 6) maskx)))
            (String (toByte (Z.lor 0x80 (Z.land r maskx))) EmptyString))).

(** *** [strings.FieldsFunc]

    The library loop keeps [start], the index where the current field
    began (negative when there is none), and appends the span
    [s[start:end]] when a separator rune ends the field. Here [start]
    carries the bytes [s[start:end]] read so far instead of the index. *)
Fixpoint fieldsLoop (f : rune -> bool) (rs : list (rune * string))
    (start : option string) : list string :=
  match rs with
  | [] =>
      match start with
      | Some fld => [fld]
      | None => []
      end
  | (r, raw) :: rest =>
      if f r then
        match start with
        | Some fld => fld :: fieldsLoop f rest None
        | None => fieldsLoop f rest None
        end
      else
        match start with
        | Some fld => fieldsLoop f rest (Some (String.append fld raw))
        | None => fieldsLoop f rest (Some raw)
        end
  end.

Definition FieldsFunc (s : string) (f : rune -> bool) : list string :=
  fieldsLoop f (rangeString s) None.

(** *** [unicode.IsLetter] and [unicode.ToLower]

    Both functions answer from fixed code for small runes and from the
    Unicode range tables for the rest. The tables are not part of the
    program; they are parameters here. *)
Section Unicode.

(** [isExcludingLatin(Letter, r)], consulted for runes above Latin-1. *)
Variable letterTable : rune -> bool.
(** [To(LowerCase, r)], consulted for runes above ASCII. *)
Variable lowerTable : rune -> rune.

(** The Latin-1 entries of [properties] that carry a letter flag. *)
Definition latin1Letter (r : rune) : bool :=
  ((0x41 <=? r) && (r <=? 0x5A)) || ((0x61 <=? r) && (r <=? 0x7A))
  || (r =? 0xAA) || (r =? 0xB5) || (r =? 0xBA)
  || ((0xC0 <=? r) && (r <=? 0xD6)) || ((0xD8 <=? r) && (r <=? 0xF6))
  || ((0xF8 <=? r) && (r <=? 0xFF)).

Definition IsLetter (r : rune) : bool :=
  if (0 <=? r) && (r <=? 0xFF) then latin1Letter r else letterTable r.

Definition unicode_ToLower (r : rune) : rune :=
  if r <=? 0x7F then
    if (0x41 <=? r) && (r <=? 0x5A) then r + 32 else r
  else lowerTable r.

(** [strings.Map]: every rune of [s] is replaced by the encoding of its
    image; a negative image drops the rune. *)
Definition Map (mapping : rune -> rune) (s : string) : string :=
  fold_right (fun '(c, _) out =>
                let r := mapping c in
                if 0 <=? r then String.append (EncodeRune r) out else out)
             EmptyString (rangeString s).

Fixpoint allASCII (s : string) : bool :=
  match s with
  | EmptyString => true
  | String c t => (byteVal c <? RuneSelf) && allASCII t
  end.

Definition isUpperByte (c : ascii) : bool :=
  (0x41 <=? byteVal c) && (byteVal c <=? 0x5A).

Fixpoint hasUpper (s : string) : bool :=
  match s with
  | EmptyString => false
  | String c t => isUpperByte c || hasUpper t
  end.

Fixpoint lowerBytes (s : string) : string :=
  match s with
  | EmptyString => EmptyString
  | String c t =>
      String (if isUpperByte c then toByte (byteVal c + 32) else c) (lowerBytes t)
  end.

(** [strings.ToLower]: ASCII-only strings are mapped bytewise (and
    returned as they are when they have no upper-case byte); any other
    string goes through [Map(unicode.ToLower, s)]. *)
Definition ToLower (s : string) : string :=
  if allASCII s then
    if hasUpper s then lowerBytes s else s
  else Map unicode_ToLower s.

End Unicode.

End GoString.

(** ** The worker's per-file loop body *)

Module Worker.
Import GoString.

(** Go's [int] on a 64-bit platform: every addition wraps around. *)
Definition intBits : Z := 64.
Definition wrapInt (x : Z) : Z :=
  (x + 2 ^ (intBits - 1)) mod 2 ^ intBits - 2 ^ (intBits - 1).

(** [buf := make([]byte, 1024*1024)] *)
Definition bufSize : nat := Z.to_nat (1024 * 1024).
Global Arguments bufSize : simpl never.

(** How a read on a file ends: [io.EOF] or any other error. *)
Inductive readError := EOF | ReadFailure.

(** What a call of the logger does: it writes its line and returns, or
    a panic is raised inside it (by a hook, the formatter or the writer
    of the logger), before or after the line is written. *)
Inductive logOutcome :=
| LogReturns
| LogPanics (written : bool).

(** How the handling of an open file goes on once the read loop is left.

    - [Completes final closeFails info]: the read loop is left on the
      error [final], with a warning when that is not [io.EOF];
      [file.Close] returns an error, which is logged, when [closeFails];
      the tally is sent; [info] is what the call of [log.Infof] after the
      send does.
    - [ReadWarningPanics written]: the read loop is left on an error
      other than [io.EOF], and the call of [log.Warnf] for it panics.
    - [CloseWarningPanics final written]: the read loop is left on
      [final], [file.Close] returns an error, and the call of [log.Warnf]
      for it panics. *)
Inductive fileEnd :=
| Completes (final : readError) (closeFails : bool) (info : logOutcome)
| ReadWarningPanics (written : bool)
| CloseWarningPanics (final : readError) (written : bool).

(** The file is closed without an error and the logger returns from
    every call: the read error alone tells how the item ends. *)
Definition cleanEnd (final : readError) : fileEnd := Completes final false LogReturns.
Coercion cleanEnd : readError >-> fileEnd.

(** What the outside does while one file identifier is processed: the
    file system, and the logger in the calls made for the file. The calls
    of the loop body that can raise a panic are those of the logger;
    [os.Open], [Read] and [Close] report failures as errors, and the send
    is dealt with where the worker's steps are defined.

    - [OpenFails]: [os.Open] returns an error and the warning is logged.
    - [OpenWarningPanics written]: [os.Open] returns an error and the
      call of [log.Warnf] for it panics.
    - [Opens pieces final]: the file opens; [pieces] are the runs of
      bytes the descriptor has available at successive reads (a regular
      file holds its whole content in one piece, a pipe may deliver
      several short ones), after which every read returns no bytes and an
      error, and the item ends as [final] says.

    The call of [log.Errorf] in the deferred function that recovers a
    panic is taken to return. *)
Inductive fileBehaviour :=
| OpenFails
| OpenWarningPanics (written : bool)
| Opens (pieces : list string) (final : fileEnd).

Definition regularFile (content : string) : fileBehaviour := Opens [content] EOF.

(** [reader.Read(buf)] on a piece longer than the buffer fills the buffer
    and leaves the rest for the next call. The bufio reader's own buffer
    (4096 bytes) is smaller than [buf], so every call goes straight to the
    descriptor. [chunksLoop] needs at most [length piece] iterations when
    the buffer is not empty. *)
Fixpoint chunksLoop (fuel : nat) (bufLen : nat) (piece : string) : list string :=
  match fuel with
  | O => [piece]
  | S fuel' =>
      if (String.length piece <=? bufLen)%nat then [piece]
      else takeS bufLen piece :: chunksLoop fuel' bufLen (dropS bufLen piece)
  end.

Definition chunks (bufLen : nat) (piece : string) : list string :=
  chunksLoop (String.length piece) bufLen piece.

(** The successive values of [buf[:n]] over the calls that return no
    error. *)
Definition fileReads (bufLen : nat) (pieces : list string) : list string :=
  flat_map (chunks bufLen) pieces.

Inductive logEvent :=
| WarnOpen (fn : string)
| WarnRead (fn : string)
| WarnClose (fn : string)
| InfoProcessed (fn : string)
| ErrorPanic.

(** What a call of the logger that panics has added to the log. *)
Definition ifWritten (written : bool) (line : logEvent) : list logEvent :=
  if written then [line] else [].

(** The warning for a read loop that is left on an error other than
    [io.EOF]. *)
Definition readWarning (fn : string) (final : readError) : list logEvent :=
  match final with
  | EOF => []
  | ReadFailure => [WarnRead fn]
  end.

(** The warning for a failing [file.Close]. *)
Definition closeWarning (fn : string) (closeFails : bool) : list logEvent :=
  if closeFails then [WarnClose fn] else [].

(** What one iteration of [for fn := range workQueue] has come to when it
    leaves the loop body or reaches the send: [continue] after a failed
    open, a tally to send, or a panic. *)
Inductive itemResult :=
| Skip
| Emit (res : gmap string Z)
| Panic.

Section Tally.

Variable letterTable : rune -> bool.
Variable lowerTable : rune -> rune.

(** [res[word]++]; a missing key reads as zero. *)
Definition incr (res : gmap string Z) (word : string) : gmap string Z :=
  <[word := wrapInt (default 0 (res !! word) + 1)]> res.

(** [strings.FieldsFunc(string(buf[:n]), func(r) { return !unicode.IsLetter(r) })] *)
Definition splitWords (chunk : string) : list string :=
  FieldsFunc chunk (fun r => negb (IsLetter letterTable r)).

(** The body of [for _, word := range words]. *)
Definition countWord (res : gmap string Z) (word : string) : gmap string Z :=
  let word := ToLower lowerTable word in
  if String.eqb word EmptyString then res else incr res word.

Definition countChunk (res : gmap string Z) (chunk : string) : gmap string Z :=
  fold_left countWord (splitWords chunk) res.

(** The read loop. The end of [reads] is the call that returns no bytes
    and an error: nothing is counted and the loop breaks. *)
Fixpoint readLoop (reads : list string) (res : gmap string Z) : gmap string Z :=
  match reads with
  | [] => res
  | data :: rest =>
      readLoop rest
        (if (0 <? String.length data)%nat then countChunk res data else res)
  end.

(** One item of the work queue up to the send, with the log lines
    written on the way; a panic is recovered by the deferred function,
    which logs it. *)
Definition processItem (fs : string -> fileBehaviour) (fn : string)
  : itemResult * list logEvent :=
  match fs fn with
  | OpenFails => (Skip, [WarnOpen fn])
  | OpenWarningPanics written => (Panic, ifWritten written (WarnOpen fn) ++ [ErrorPanic])
  | Opens pieces (Completes final closeFails _) =>
      (Emit (readLoop (fileReads bufSize pieces) ∅),
       readWarning fn final ++ closeWarning fn closeFails)
  | Opens pieces (ReadWarningPanics written) =>
      (Panic, ifWritten written (WarnRead fn) ++ [ErrorPanic])
  | Opens pieces (CloseWarningPanics final written) =>
      (Panic, readWarning fn final ++ ifWritten written (WarnClose fn) ++ [ErrorPanic])
  end.

(** What the call of [log.Infof] does once the tally of [fn] is sent. *)
Definition infoOutcome (fs : string -> fileBehaviour) (fn : string) : logOutcome :=
  match fs fn with
  | Opens _ (Completes _ _ info) => info
  | _ => LogReturns
  end.

(** The words one chunk adds to the tally, in order. *)
Definition chunkTokens (chunk : string) : list string :=
  filter (fun w => w ≠ EmptyString) (map (ToLower lowerTable) (splitWords chunk)).

(** The token stream of a file as the worker sends it: the tokens of
    its chunks, in order. A file that does not open, or whose worker
    panics before the send, has none. *)
Definition fileTokens (fs : string -> fileBehaviour) (fn : string) : list string :=
  match fs fn with
  | Opens pieces (Completes _ _ _) => flat_map chunkTokens (fileReads bufSize pieces)
  | _ => []
  end.

End Tally.

End Worker.

(** ** [processFiles]: orchestrator, workers, reducers and channels *)

Module Pipeline.
Import GoString Worker.

(** A worker goroutine is blocked on [range workQueue] ([WIdle]), blocked
    on [result <- res] for the file [fn] ([WSending]), or has returned
    ([WExited], after which its deferred [wg.Done] has run). *)
Inductive workerState :=
| WIdle
| WSending (fn : string) (res : gmap string Z)
| WExited.

(** A reducer goroutine is blocked on [range in] ([RIdle]), inside
    [for k, v := range res] with the pairs still to visit ([RMerging]),
    or has returned ([RExited]). *)
Inductive reducerState :=
| RIdle
| RMerging (pending : list (string * Z))
| RExited.

(** Where the goroutine running [processFiles] stands: in the feeding
    loop with the file names still to send, in [workersWG.Wait()], before
    [close(partialResults)], in [reducerWG.Wait()], or at the [return]. *)
Inductive orchestratorPC :=
| Feeding (rest : list string)
| WaitWorkers
| CloseResults
| WaitReducers
| Returned.

Record state := mkState {
  pc : orchestratorPC;
  workQueue : list string;
  workClosed : bool;
  workers : list workerState;
  partialResults : list (gmap string Z);
  resultsClosed : bool;
  reducers : list reducerState;
  finalResult : gmap string Z;
  logs : list logEvent
}.

Global Instance workerState_eq_dec : EqDecision workerState.
Proof. solve_decision. Defined.

Global Instance reducerState_eq_dec : EqDecision reducerState.
Proof. solve_decision. Defined.

Global Instance orchestratorPC_eq_dec : EqDecision orchestratorPC.
Proof. solve_decision. Defined.

(** The state once both start-up loops have run: [n] reducers and [n]
    workers wait on their channels, nothing has been sent. *)
Definition init (files : list string) (n : nat) : state :=
  {| pc := Feeding files;
     workQueue := [];
     workClosed := false;
     workers := replicate n WIdle;
     partialResults := [];
     resultsClosed := false;
     reducers := replicate n RIdle;
     finalResult := ∅;
     logs := [] |}.

(** [math.MulUintptr] of the runtime, for a [uintptr] of 64 bits: the
    product and whether it overflowed. *)
Definition MaxUintptr : Z := 2 ^ 64 - 1.

Definition MulUintptr (a b : Z) : Z * bool :=
  if (Z.lor a b <? 2 ^ 32) || (a =? 0) then ((a * b) mod 2 ^ 64, false)
  else ((a * b) mod 2 ^ 64, MaxUintptr / a <? b).

Section Allocation.

(** Two constants of the runtime: the largest allocation it supports and
    the size of a channel's header. *)
Variable maxAlloc : Z.
Variable hchanSize : Z.

(** The size check of [runtime.makechan] for elements of [elemSize]
    bytes:
    [mem, overflow := math.MulUintptr(elem.Size_, uintptr(size))] and
    [if overflow || mem > maxAlloc-hchanSize || size < 0 { panic(...) }].
    The result is the size of the buffer, or [None] for the panic. The
    memory itself is taken to be there. *)
Definition makechan (elemSize size : Z) : option Z :=
  let '(mem, overflow) := MulUintptr elemSize (size mod 2 ^ 64) in
  if overflow || (maxAlloc - hchanSize <? mem) || (size <? 0) then None
  else Some mem.

(** The allocations and start-up loops of [processFiles]:
    [partialResults], a channel of maps (one pointer each), then
    [workQueue], a channel of strings (a pointer and a length each), both
    of capacity [maxWorkers]. A call whose channels cannot be made panics
    and never gets as far as a first state. *)
Definition start (files : list string) (maxWorkers : Z) : option state :=
  match makechan 8 maxWorkers with
  | None => None
  | Some _ =>
      match makechan 16 maxWorkers with
      | None => None
      | Some _ => Some (init files (Z.to_nat maxWorkers))
      end
  end.

End Allocation.

(** The atomic actions of the goroutines. [RRecv j order] carries the
    order in which the reducer's [range] visits the received map. *)
Inductive action :=
| OFeed
| OCloseWork
| OWorkersDone
| OCloseResults
| OReducersDone
| WTake (i : nat)
| WSend (i : nat)
| WExit (i : nat)
| RRecv (j : nat) (order : list (string * Z))
| RAdd (j : nat)
| RNext (j : nat)
| RExit (j : nat).

Definition setWorker (i : nat) (w : workerState) (s : state) : state :=
  mkState (pc s) (workQueue s) (workClosed s) (<[i := w]> (workers s))
          (partialResults s) (resultsClosed s) (reducers s) (finalResult s) (logs s).

Definition setReducer (j : nat) (r : reducerState) (s : state) : state :=
  mkState (pc s) (workQueue s) (workClosed s) (workers s)
          (partialResults s) (resultsClosed s) (<[j := r]> (reducers s))
          (finalResult s) (logs s).

Definition setPC (p : orchestratorPC) (s : state) : state :=
  mkState p (workQueue s) (workClosed s) (workers s)
          (partialResults s) (resultsClosed s) (reducers s) (finalResult s) (logs s).

Definition setWorkQueue (q : list string) (s : state) : state :=
  mkState (pc s) q (workClosed s) (workers s)
          (partialResults s) (resultsClosed s) (reducers s) (finalResult s) (logs s).

Definition setPartialResults (q : list (gmap string Z)) (s : state) : state :=
  mkState (pc s) (workQueue s) (workClosed s) (workers s)
          q (resultsClosed s) (reducers s) (finalResult s) (logs s).

Definition setFinalResult (m : gmap string Z) (s : state) : state :=
  mkState (pc s) (workQueue s) (workClosed s) (workers s)
          (partialResults s) (resultsClosed s) (reducers s) m (logs s).

Definition addLogs (l : list logEvent) (s : state) : state :=
  mkState (pc s) (workQueue s) (workClosed s) (workers s)
          (partialResults s) (resultsClosed s) (reducers s) (finalResult s)
          (logs s ++ l).

Definition closeWorkQueue (s : state) : state :=
  mkState (pc s) (workQueue s) true (workers s)
          (partialResults s) (resultsClosed s) (reducers s) (finalResult s) (logs s).

Definition closePartialResults (s : state) : state :=
  mkState (pc s) (workQueue s) (workClosed s) (workers s)
          (partialResults s) true (reducers s) (finalResult s) (logs s).

(** The worker's state after an item: back to the [range] after
    [continue], holding a tally to send, or returned through the deferred
    [recover]. *)
Definition afterItem (fn : string) (r : itemResult) : workerState :=
  match r with
  | Skip => WIdle
  | Emit res => WSending fn res
  | Panic => WExited
  end.

(** [finResult[k] += v] between [mutex.Lock()] and [mutex.Unlock()]. *)
Definition addCount (fin : gmap string Z) (k : string) (v : Z) : gmap string Z :=
  <[k := wrapInt (default 0 (fin !! k) + v)]> fin.

Section Step.

Variable letterTable : rune -> bool.
Variable lowerTable : rune -> rune.
Variable fs : string -> fileBehaviour.
(** The capacity of both channels, [maxWorkers]. *)
Variable cap : nat.

(** The three functions below give, for an action [a] of the goroutine
    they are named after, the state after [a], or [None] when [a] is not
    enabled in [s] (or belongs to another goroutine). A send needs room in
    the channel's buffer; with capacity zero it needs a receiver, and
    there is none when the pool is empty. *)

(** The goroutine that runs [processFiles], after the two start-up
    loops: the feeding loop, [close(workQueue)], [workersWG.Wait()],
    [close(partialResults)], [reducerWG.Wait()] and the [return]. *)
Definition processFiles (a : action) (s : state) : option state :=
  match a with
  | OFeed =>
      match pc s with
      | Feeding (fn :: rest) =>
          if (length (workQueue s) <? cap)%nat
          then Some (setPC (Feeding rest) (setWorkQueue (workQueue s ++ [fn]) s))
          else None
      | _ => None
      end
  | OCloseWork =>
      match pc s with
      | Feeding [] => Some (setPC WaitWorkers (closeWorkQueue s))
      | _ => None
      end
  | OWorkersDone =>
      match pc s with
      | WaitWorkers =>
          if forallb (fun w => bool_decide (w = WExited)) (workers s)
          then Some (setPC CloseResults s) else None
      | _ => None
      end
  | OCloseResults =>
      match pc s with
      | CloseResults => Some (setPC WaitReducers (closePartialResults s))
      | _ => None
      end
  | OReducersDone =>
      match pc s with
      | WaitReducers =>
          if forallb (fun r => bool_decide (r = RExited)) (reducers s)
          then Some (setPC Returned s) else None
      | _ => None
      end
  | _ => None
  end.

(** The goroutine started by [processFile]: taking a file name from the
    work queue and processing it up to the send; sending the tally and
    logging the file as processed, which ends the worker when the logger
    panics; and leaving the [range] loop once the queue is closed and
    empty. *)
Definition processFile (a : action) (s : state) : option state :=
  match a with
  | WTake i =>
      match workers s !! i, workQueue s with
      | Some WIdle, fn :: q =>
          let '(r, l) := processItem letterTable lowerTable fs fn in
          Some (addLogs l (setWorker i (afterItem fn r) (setWorkQueue q s)))
      | _, _ => None
      end
  | WSend i =>
      match workers s !! i with
      | Some (WSending fn res) =>
          if resultsClosed s then
            (* send on a closed channel: panic, recovered, the worker returns *)
            Some (addLogs [ErrorPanic] (setWorker i WExited s))
          else if (length (partialResults s) <? cap)%nat then
            match infoOutcome fs fn with
            | LogReturns =>
                Some (addLogs [InfoProcessed fn]
                        (setWorker i WIdle
                           (setPartialResults (partialResults s ++ [res]) s)))
            | LogPanics written =>
                Some (addLogs (ifWritten written (InfoProcessed fn) ++ [ErrorPanic])
                        (setWorker i WExited
                           (setPartialResults (partialResults s ++ [res]) s)))
            end
          else None
      | _ => None
      end
  | WExit i =>
      match workers s !! i, workQueue s with
      | Some WIdle, [] =>
          if workClosed s then Some (setWorker i WExited s) else None
      | _, _ => None
      end
  | _ => None
  end.

(** The goroutine started by [reducer]: receiving a tally, adding one of
    its pairs to the final map under the mutex, finishing the tally, and
    leaving the [range] loop once the channel is closed and empty. *)
Definition reducer (a : action) (s : state) : option state :=
  match a with
  | RRecv j order =>
      match reducers s !! j, partialResults s with
      | Some RIdle, res :: q =>
          if bool_decide (order ≡ₚ map_to_list res)
          then Some (setReducer j (RMerging order) (setPartialResults q s))
          else None
      | _, _ => None
      end
  | RAdd j =>
      match reducers s !! j with
      | Some (RMerging ((k, v) :: rest)) =>
          Some (setReducer j (RMerging rest)
                  (setFinalResult (addCount (finalResult s) k v) s))
      | _ => None
      end
  | RNext j =>
      match reducers s !! j with
      | Some (RMerging []) => Some (setReducer j RIdle s)
      | _ => None
      end
  | RExit j =>
      match reducers s !! j, partialResults s with
      | Some RIdle, [] =>
          if resultsClosed s then Some (setReducer j RExited s) else None
      | _, _ => None
      end
  | _ => None
  end.

(** One step of the whole program: an action of one of its goroutines. *)
Definition fire (a : action) (s : state) : option state :=
  match a with
  | OFeed | OCloseWork | OWorkersDone | OCloseResults | OReducersDone =>
      processFiles a s
  | WTake _ | WSend _ | WExit _ => processFile a s
  | RRecv _ _ | RAdd _ | RNext _ | RExit _ => reducer a s
  end.

Definition step (s s' : state) : Prop := ∃ a, fire a s = Some s'.

(** Running a schedule, a list of actions, from a state. *)
Fixpoint run (sched : list action) (s : state) : option state :=
  match sched with
  | [] => Some s
  | a :: rest =>
      match fire a s with
      | Some s' => run rest s'
      | None => None
      end
  end.

Definition reachable (s0 s : state) : Prop := rtc step s0 s.

(** What [processFiles] returns, once it has: the final map and a nil
    error. There is no other [return] in the function. *)
Definition returned (s : state) : option (gmap string Z * option string) :=
  match pc s with
  | Returned => Some (finalResult s, None)
  | _ => None
  end.

End Step.

End Pipeline.

(** ** Output: the parts of [fmt] that [main] and [printResult] use *)

Module Fmt.
Import GoString.

Definition newline : string := String "010" EmptyString.

(** [utf8.RuneCountInString]: invalid bytes count as one rune each, as in
    a [range] loop. *)
Definition RuneCountInString (s : string) : nat := length (rangeString s).

(** [fmt.writePadding] with the default padding byte, a space; it
    writes nothing when [n <= 0]. *)
Fixpoint writePadding (n : nat) : string :=
  match n with
  | O => EmptyString
  | S n' => String " " (writePadding n')
  end.

(** [fmt.padString] and [fmt.pad] under the flag [-] with the
    width [wid]: the text, then spaces up to [wid] runes. *)
Definition padRight (wid : nat) (s : string) : string :=
  String.append s (writePadding (wid - RuneCountInString s)).

(** The base-10 loop of [fmt.fmtInteger], which writes the digits
    from the right into [buf]:
    [for u >= 10 { next := u / 10; buf[i] = '0' + u - next*10; u = next }]
    and then the leading digit. A 64-bit value has at most 20 digits. *)
Fixpoint fmtDigits (fuel : nat) (u : Z) (buf : string) : string :=
  match fuel with
  | O => buf
  | S fuel' =>
      if 10 <=? u then
        let next := u / 10 in
        fmtDigits fuel' next (String (toByte (0x30 + u - next * 10)) buf)
      else String (toByte (0x30 + u)) buf
  end.

(** [%v] of an [int]: [fmtInteger(uint64(v), 10, signed, ...)]. A
    negative value is negated as a [uint64] and gets a minus sign. *)
Definition fmtInteger (v : Z) : string :=
  let negative := v <? 0 in
  let u := if negative then (- v) mod 2 ^ 64 else v in
  let buf := fmtDigits 20 u EmptyString in
  if negative then String "-" buf else buf.

End Fmt.

(** ** [printResult] *)

Module Report.
Import GoString Fmt.

(** [fmt.Printf("%-10s%s\n", a, b)], and [fmt.Printf("%-10v%s\n", c, w)]
    once [c] is formatted. *)
Definition printRow (a b : string) : string :=
  String.append (padRight 10 a) (String.append b newline).

(** What [printResult] writes, one string for each call of [Printf]: the
    two header rows, then a row for each pair of the map in the order
    [order] in which [range] visits it. *)
Definition printResult (order : list (string * Z)) : list string :=
  printRow "Count" "Word"
  :: printRow "-----" "----"
  :: map (fun wc => printRow (fmtInteger (snd wc)) (fst wc)) order.

End Report.

(** ** [main] *)

Module Program.
Import GoString Fmt.

(** The profiles that [profile.Start] is asked for. *)
Inductive profileMode := CPUProfile | MemProfile | BlockProfile.

(** What [main] does to the outside, in order. *)
Inductive event :=
| Printf (out : string)
| LogWarn (msg : string)
| LogError (msg : string)
| LogFatal (msg : string)
| StartProfile (m : profileMode)
| StopProfile (m : profileMode)
| CreateTraceFile
| StartTrace
| StopTrace
| CloseTraceFile
| CallProcessFiles (files : list string) (maxWorkers : Z).

(** How [main] ends: it returns, it leaves through [log.Fatal], which
    calls [os.Exit(1)] and runs no deferred call, or it waits for ever
    for [processFiles]. *)
Inductive ending :=
| Returns
| Exits (code : Z)
| Blocks.

(** What [main] reads from the outside. [call] is the callee
    [processFiles]: the pair it returns, or [None] when it does not
    return. *)
Record world := mkWorld {
  NumCPU : Z;
  createFails : option string;
  traceFails : option string;
  elapsed : string;
  call : list string -> Z -> option (gmap string Z * option string)
}.

(** [stopProfiling]: [if profiler != nil { profiler.Stop() }]. *)
Definition stopProfiling (profiler : option profileMode) : list event :=
  match profiler with
  | Some m => [StopProfile m]
  | None => []
  end.

(** The [switch profileType] of [main]: its events, and then either the
    value of [profiler] with the calls deferred inside the switch, first
    to run first, or nothing when a [log.Fatal] has ended the program. *)
Definition switchProfile (w : world) (profileType : string)
  : list event * option (option profileMode * list event) :=
  if String.eqb profileType "cpu" then
    ([StartProfile CPUProfile], Some (Some CPUProfile, []))
  else if String.eqb profileType "mem" then
    ([StartProfile MemProfile], Some (Some MemProfile, []))
  else if String.eqb profileType "block" then
    ([StartProfile BlockProfile], Some (Some BlockProfile, []))
  else if String.eqb profileType "trace" then
    match createFails w with
    | Some err =>
        ([CreateTraceFile;
          LogFatal (String.append "Could not create trace file: " err)], None)
    | None =>
        match traceFails w with
        | Some err =>
            ([CreateTraceFile; StartTrace;
              LogFatal (String.append "Could not start trace: " err)], None)
        | None =>
            ([CreateTraceFile; StartTrace], Some (None, [StopTrace; CloseTraceFile]))
        end
    end
  else if String.eqb profileType "" then ([], Some (None, []))
  else
    ([LogWarn "Invalid profile type. Valid options are: cpu, mem, block, trace"],
     Some (None, [])).

(** [main], after [flag.Parse()] has set [profileType] and left the
    file names in [flag.Args()]. *)
Definition main (w : world) (profileType : string) (args : list string)
  : list event * ending :=
  let banner :=
    [Printf (String.append "Calculating each word ocurrence count.." newline)] in
  match switchProfile w profileType with
  | (evs, None) => (banner ++ evs, Exits 1)
  | (evs, Some (profiler, inSwitch)) =>
      let deferred := stopProfiling profiler ++ inSwitch in
      match args with
      | [] => (banner ++ evs ++ [LogError "No files to process"] ++ deferred, Returns)
      | _ :: _ =>
          let maxWorkers := NumCPU w in
          match call w args maxWorkers with
          | None => (banner ++ evs ++ [CallProcessFiles args maxWorkers], Blocks)
          | Some (_, Some err) =>
              (banner ++ evs ++ [CallProcessFiles args maxWorkers; LogFatal err],
               Exits 1)
          | Some (finalResult, None) =>
              (banner ++ evs
               ++ [CallProcessFiles args maxWorkers;
                   Printf (String.append "Processing took: "
                            (String.append (elapsed w)
                               (String.append newline
                                  (String.append " Total words: "
                                     (String.append
                                        (fmtInteger (Z.of_nat (size finalResult)))
                                        newline)))))]
               ++ deferred,
               Returns)
          end
      end
  end.

End Program.

(** ** The test of [processFiles] *)

Module ProcessFilesTest.
Import GoString Worker Fmt.

Definition testFile1 : string := "testfile1.txt".
Definition testFile2 : string := "testfile2.txt".

Definition content : string :=
  String.append "apple orange! banana? apple."
    (String.append newline " banana apple: apple. banana...").

(** The file system after the two calls of [os.WriteFile]. *)
Definition written (fs : string -> fileBehaviour) : string -> fileBehaviour :=
  fun fn =>
    if String.eqb fn testFile2 then regularFile content
    else if String.eqb fn testFile1 then regularFile content
    else fs fn.

Definition files : list string := [testFile1; testFile2].

Definition expectedResult : list (string * Z) :=
  [("apple", 8); ("orange", 2); ("banana", 6)]%string.

(** What the test reports. *)
Inductive report :=
| Fatalf (msg : string)
| Errorf (word : string) (expectedCount count : Z).

(** [TestProcessFiles] from the values [processFiles] returned: a fatal
    report for a non-nil error, and otherwise a report for every expected
    word that is missing from the result or has another count (a missing
    key reads as zero). No report means the test passes. *)
Definition TestProcessFiles (result : gmap string Z) (err : option string)
  : list report :=
  match err with
  | Some e => [Fatalf (String.append "Error processing files: " e)]
  | None =>
      flat_map (fun we =>
                  let count := default 0 (result !! fst we) in
                  let found := bool_decide (is_Some (result !! fst we)) in
                  if negb found || negb (count =? snd we)
                  then [Errorf (fst we) (snd we) count] else [])
               expectedResult
  end.

End ProcessFilesTest.

(** ** An earlier tokenizer *)

Module Earlier.
Import GoString.

(** [removePunctuation], which an earlier version of the worker applied
    to every word that [bufio.ScanWords] gave it:
    [strings.Map] with a mapping that keeps a letter and drops any other
    rune. *)
Definition removePunctuation (letterTable : rune -> bool) (word : string) : string :=
  Map (fun r => if IsLetter letterTable r then r else -1) word.

End Earlier.

(** * Specification vocabulary *)

Import GoString Worker Pipeline.

(** ** Machine integers *)

Definition intModulus : Z := 2 ^ intBits.

(** Congruence modulo [2 ^ intBits]. *)
Definition eqm (a b : Z) : Prop := a mod intModulus = b mod intModulus.

Definition inIntRange (x : Z) : Prop := - 2 ^ (intBits - 1) <= x < 2 ^ (intBits - 1).

(** ** Tallies *)

(** The count a map holds for a word; a missing key reads as zero, as
    in Go. *)
Definition valAt (m : gmap string Z) (w : string) : Z := default 0 (m !! w).

(** The number of occurrences of [w] in a token stream. *)
Definition countIn (w : string) (l : list string) : Z :=
  Z.of_nat (length (filter (λ t, t = w) l)).

(** Every count stored in the map is a value of Go's [int]. *)
Definition intValued (m : gmap string Z) : Prop :=
  ∀ k v, m !! k = Some v → wrapInt v = v.

(** ** Accounting over pipeline states *)

Definition sumZ {A} (f : A → Z) (l : list A) : Z :=
  foldr (λ x acc, f x + acc) 0 l.

Definition unionOf {A} (f : A → gset string) (l : list A) : gset string :=
  foldr (λ x acc, f x ∪ acc) ∅ l.

(** What the pairs a reducer still has to visit add to the word [w]. *)
Definition pendVal (w : string) (l : list (string * Z)) : Z :=
  sumZ (λ kv, if decide (kv.1 = w) then kv.2 else 0) l.

Definition pendKeys (l : list (string * Z)) : gset string := list_to_set (l.*1).

Definition workerVal (w : string) (ws : workerState) : Z :=
  match ws with
  | WSending _ res => valAt res w
  | _ => 0
  end.

Definition workerKeys (ws : workerState) : gset string :=
  match ws with
  | WSending _ res => dom res
  | _ => ∅
  end.

Definition reducerVal (w : string) (rs : reducerState) : Z :=
  match rs with
  | RMerging l => pendVal w l
  | _ => 0
  end.

Definition reducerKeys (rs : reducerState) : gset string :=
  match rs with
  | RMerging l => pendKeys l
  | _ => ∅
  end.

(** The file names the orchestrator has still to send. *)
Definition pcFiles (p : orchestratorPC) : list string :=
  match p with
  | Feeding rest => rest
  | _ => []
  end.

Definition feeding (p : orchestratorPC) : bool :=
  match p with
  | Feeding _ => true
  | _ => false
  end.

Definition allExited (ws : list workerState) : Prop :=
  ∀ i w, ws !! i = Some w → w = WExited.

Definition allReducersExited (rs : list reducerState) : Prop :=
  ∀ j r, rs !! j = Some r → r = RExited.

(** Weights for the termination measure: the number of actions a
    component can still take part in. *)
Definition partialWeight (m : gmap string Z) : nat := size m + 2.

Definition workerWeight (ws : workerState) : nat :=
  match ws with
  | WIdle => 1
  | WSending _ res => partialWeight res + 2
  | WExited => 0
  end.

Definition reducerWeight (rs : reducerState) : nat :=
  match rs with
  | RIdle => 1
  | RMerging l => length l + 2
  | RExited => 0
  end.

Definition pcWeight (p : orchestratorPC) : nat :=
  match p with
  | Feeding _ => 4
  | WaitWorkers => 3
  | CloseResults => 2
  | WaitReducers => 1
  | Returned => 0
  end.

(** The shape and phase invariant of [processFiles] for pools and
    channels of size [cap]. *)
Record Phase (cap : nat) (s : state) : Prop := mkPhase {
  ph_workers : length (workers s) = cap;
  ph_reducers : length (reducers s) = cap;
  ph_workQueue : (length (workQueue s) <= cap)%nat;
  ph_partialResults : (length (partialResults s) <= cap)%nat;
  ph_workClosed : workClosed s = negb (feeding (pc s));
  ph_resultsClosed :
    resultsClosed s = true ↔ pc s = WaitReducers ∨ pc s = Returned;
  ph_joined :
    pc s = CloseResults ∨ pc s = WaitReducers ∨ pc s = Returned →
    allExited (workers s);
  ph_returned : pc s = Returned → allReducersExited (reducers s);
  ph_reducerExit :
    ∀ j, reducers s !! j = Some RExited →
         partialResults s = [] ∧ resultsClosed s = true;
  ph_intValued : intValued (finalResult s)
}.

(** The logger returns from every call made for the file. *)
Definition faultFree (b : fileBehaviour) : bool :=
  match b with
  | OpenFails => true
  | Opens _ (Completes _ _ LogReturns) => true
  | _ => false
  end.

Section Accounting.

Variable letterTable : rune -> bool.
Variable lowerTable : rune -> rune.
Variable fs : string -> fileBehaviour.

(** The number of occurrences of [w] in the token streams of [files],
    a file named twice counted twice. *)
Definition occurrences (w : string) (files : list string) : Z :=
  sumZ (λ fn, countIn w (fileTokens letterTable lowerTable fs fn)) files.

(** The words that occur in the token stream of some file. *)
Definition wordsOf (files : list string) : gset string :=
  unionOf (λ fn, list_to_set (fileTokens letterTable lowerTable fs fn)) files.

(** The total number of tokens of [files]. *)
Definition totalTokens (files : list string) : Z :=
  sumZ (λ fn, Z.of_nat (length (fileTokens letterTable lowerTable fs fn))) files.

(** The count of [w] held anywhere in the pipeline: merged, being
    merged, queued, held by a worker, or still in a file to process. *)
Definition stVal (s : state) (w : string) : Z :=
  valAt (finalResult s) w
  + sumZ (reducerVal w) (reducers s)
  + sumZ (λ m, valAt m w) (partialResults s)
  + sumZ (workerVal w) (workers s)
  + occurrences w (workQueue s ++ pcFiles (pc s)).

Definition stKeys (s : state) : gset string :=
  dom (finalResult s)
  ∪ unionOf reducerKeys (reducers s)
  ∪ unionOf dom (partialResults s)
  ∪ unionOf workerKeys (workers s)
  ∪ wordsOf (workQueue s ++ pcFiles (pc s)).

Definition itemWeight (fn : string) : nat :=
  match fst (processItem letterTable lowerTable fs fn) with
  | Emit res => partialWeight res + 2
  | _ => 1
  end.

Definition sumNat {A} (f : A → nat) (l : list A) : nat :=
  foldr (λ x acc, (f x + acc)%nat) 0%nat l.

(** An upper bound on the number of actions left in any execution. *)
Definition measure (s : state) : nat :=
  (pcWeight (pc s)
   + sumNat (λ fn, S (itemWeight fn)) (pcFiles (pc s))
   + sumNat itemWeight (workQueue s)
   + sumNat workerWeight (workers s)
   + sumNat partialWeight (partialResults s)
   + sumNat reducerWeight (reducers s))%nat.

(** None of the files makes the worker panic. *)
Definition panicFree (files : list string) : bool :=
  forallb (λ fn, faultFree (fs fn)) files.

(** Every file opens and is read to the end of the stream, and the
    logger returns from every call made for it. *)
Definition readCleanly (files : list string) : bool :=
  forallb (λ fn, match fs fn with
                 | Opens _ (Completes EOF _ LogReturns) => true
                 | _ => false
                 end) files.

(** Every count held anywhere in the pipeline is at least one, and the
    counts held for a word never exceed its occurrences in the files. *)
Record Bounded (files : list string) (s : state) : Prop := mkBounded {
  bd_final : ∀ w c, finalResult s !! w = Some c → 1 <= c;
  bd_reducers :
    ∀ j l k v, reducers s !! j = Some (RMerging l) → (k, v) ∈ l → 1 <= v;
  bd_results : ∀ m w c, m ∈ partialResults s → m !! w = Some c → 1 <= c;
  bd_workers :
    ∀ i fn res w c,
      workers s !! i = Some (WSending fn res) → res !! w = Some c → 1 <= c;
  bd_sum : ∀ w, stVal s w <= occurrences w files
}.

(** When no file panics, a worker only returns once the work queue is
    closed and empty. *)
Record Drained (s : state) : Prop := mkDrained {
  dr_panicFree : panicFree (workQueue s ++ pcFiles (pc s)) = true;
  dr_exited :
    ∀ i, workers s !! i = Some WExited →
         workQueue s = [] ∧ workClosed s = true;
  dr_sending :
    ∀ i fn res, workers s !! i = Some (WSending fn res) →
                infoOutcome fs fn = LogReturns
}.

End Accounting.

Section Liveness.

Variable letterTable : rune -> bool.
Variable lowerTable : rune -> rune.
Variable fs : string -> fileBehaviour.
Variable cap : nat.

(** Every execution from [s0] reaches the [return] of [processFiles]: a
    state that has not returned can always take a step, and no schedule
    is longer than the measure of [s0]. *)
Definition alwaysReturns (s0 : state) : Prop :=
  (∀ s, reachable letterTable lowerTable fs cap s0 s → pc s ≠ Returned →
        ∃ a s', fire letterTable lowerTable fs cap a s = Some s')
  ∧ (∀ sched s, run letterTable lowerTable fs cap sched s0 = Some s →
                (length sched <= measure letterTable lowerTable fs s0)%nat).

(** Some execution from [s0] blocks for ever: it reaches a state that has
    not returned and in which no action is enabled. *)
Definition canDeadlock (s0 : state) : Prop :=
  ∃ s, reachable letterTable lowerTable fs cap s0 s ∧ pc s ≠ Returned
       ∧ ∀ a, fire letterTable lowerTable fs cap a s = None.

End Liveness.

(** ** Words as runs of letters *)


(** The bytes a sequence of decoded runes came from. *)
Definition rawBytes (rs : list (rune * string)) : string :=
  fold_right (λ x out, String.append (snd x) out) EmptyString rs.

Definition concatS (l : list string) : string :=
  fold_right String.append EmptyString l.

Section Letters.

Variable letterTable : rune -> bool.

Definition letterRune (x : rune * string) : bool := IsLetter letterTable (fst x).

(** The bytes of the letter runes of [s], in order. *)
Definition letterBytes (s : string) : string :=
  rawBytes (filter (λ x, letterRune x = true) (rangeString s)).

(** The last rune of the chunk is a letter. *)
Definition endsWithLetter (c : string) : bool :=
  match last (rangeString c) with
  | Some x => letterRune x
  | None => false
  end.

(** The first rune of the chunk is a letter. *)
Definition startsWithLetter (c : string) : bool :=
  match rangeString c with
  | x :: _ => letterRune x
  | [] => false
  end.

End Letters.


(** ** Further invariants *)

Section Invariants.

Variable fs : string -> fileBehaviour.

(** The file opens. *)
Definition opens (fn : string) : bool :=
  match fs fn with
  | Opens _ _ => true
  | _ => false
  end.

(** Every file of the run that fails to open is still waiting to be
    processed or has its warning in the log. *)
Definition Warned (files : list string) (s : state) : Prop :=
  ∀ fn, fn ∈ files → fs fn = OpenFails →
        fn ∈ workQueue s ++ pcFiles (pc s) ∨ WarnOpen fn ∈ logs s.

End Invariants.

(** A run that was given no file: nothing is queued, tallied, merged or
    logged, and the goroutines only wait or return. *)
Record Quiet (s : state) : Prop := mkQuiet {
  q_files : pcFiles (pc s) = [];
  q_queue : workQueue s = [];
  q_results : partialResults s = [];
  q_final : finalResult s = ∅;
  q_logs : logs s = [];
  q_workers : ∀ i w, workers s !! i = Some w → w = WIdle ∨ w = WExited;
  q_reducers : ∀ j r, reducers s !! j = Some r → r = RIdle ∨ r = RExited
}.

(** ** Sample inputs *)

(** Unicode tables cut down to Latin-1: no letter above U+00FF, and no
    case mapping above ASCII. On the runes of the samples below they
    agree with the tables of Go's [unicode] package. *)
Definition latin1Only : rune → bool := λ _, false.
Definition noCaseAbove : rune → rune := λ r, r.

(** A file system in which every name is a regular file with the same
    content. *)
Definition sameContent (content : string) : string → fileBehaviour :=
  λ _, regularFile content.

(** The two bytes of the UTF-8 encoding of U+00E9, a Latin-1 letter. *)
Definition eAcuteLead : string := String "195" EmptyString.
Definition eAcuteTail : string := String "169" EmptyString.

(** Two files with the content ["banana apple banana"], and two
    schedules that run [processFiles] over them to its [return]: one for
    a pool of one, one for a pool of two. *)
Definition bananaFiles : list string := ["f1"; "f2"]%string.

Definition bananaTally : list (string * Z) := [("banana", 2); ("apple", 1)]%string.

Definition poolOfOneSchedule : list action :=
  [OFeed; WTake 0; OFeed; WSend 0; WTake 0; OCloseWork;
   RRecv 0 (rev bananaTally); RAdd 0; RAdd 0; RNext 0;
   WSend 0; WExit 0; OWorkersDone; OCloseResults;
   RRecv 0 bananaTally; RAdd 0; RAdd 0; RNext 0; RExit 0; OReducersDone].

Definition poolOfTwoSchedule : list action :=
  [OFeed; OFeed; OCloseWork; WTake 0; WTake 1; WSend 1; WSend 0;
   WExit 0; WExit 1; OWorkersDone; OCloseResults;
   RRecv 0 bananaTally; RRecv 1 bananaTally;
   RAdd 1; RAdd 0; RAdd 0; RAdd 1; RNext 0; RNext 1;
   RExit 0; RExit 1; OReducersDone].

(** The state a schedule leads to. *)
Definition stateAfter (r : option state) : state := default (init [] 0) r.

(** A file system in which ["missing"] does not open. *)
Definition oneMissing : string → fileBehaviour :=
  λ fn, if String.eqb fn "missing" then OpenFails
        else regularFile "banana apple banana".


(** A file system in which ["bad"] does not open and the logger panics
    on the warning for it, once the line is written. *)
Definition oneFaulty : string → fileBehaviour :=
  λ fn, if String.eqb fn "bad" then OpenWarningPanics true else regularFile "word".

(** A file system in which the logger panics on the line that reports
    ["late"] as processed, once the line is written. *)
Definition lateFault : string → fileBehaviour :=
  λ fn, if String.eqb fn "late"
        then Opens ["worse"%string] (Completes EOF false (LogPanics true))
        else regularFile "word".

(** [n] spaces. *)
Fixpoint spaces (n : nat) : string :=
  match n with
  | O => EmptyString
  | S n' => String " " (spaces n')
  end.

(** A regular file of 1 MiB + 1 bytes: spaces, then the letter U+00E9,
    whose two bytes lie on either side of the first 1 MiB. *)
Definition straddlingFile : string :=
  String.append (spaces (Nat.pred bufSize)) (String.append eAcuteLead eAcuteTail).

(** * Further vocabulary *)

(** The reducer's loop [for k, v := range res] run to its end over the
    pairs of a tally, in the order [order]. *)
Definition mergeTally (fin : gmap string Z) (order : list (string * Z)) : gmap string Z :=
  fold_left (λ m kv, addCount m kv.1 kv.2) order fin.

Definition distinctWords (letterTable : rune → bool) (lowerTable : rune → rune)
    (fs : string → fileBehaviour) (files : list string) : list string :=
  remove_dups (flat_map (fileTokens letterTable lowerTable fs) files).


(** ** The log *)

(** The lines that the call of [log.Infof] after the send adds to the
    log: the line [Processed file], unless the logger panics before it is
    written, and then the error of the recovered panic. *)
Definition infoLogs (fs : string → fileBehaviour) (fn : string) : list logEvent :=
  match infoOutcome fs fn with
  | LogReturns => [InfoProcessed fn]
  | LogPanics written => ifWritten written (InfoProcessed fn) ++ [ErrorPanic]
  end.

(** The log lines that processing one file writes, in order: a warning
    when the file does not open, when the read loop is left on an error
    other than the end of the stream, and when the file does not close;
    the line [Processed file] once its tally is sent; and, when a call of
    the logger panics, nothing after that call but the error of the
    recovered panic. *)
Definition fileLogs (fs : string → fileBehaviour) (fn : string) : list logEvent :=
  match fs fn with
  | OpenFails => [WarnOpen fn]
  | OpenWarningPanics written => ifWritten written (WarnOpen fn) ++ [ErrorPanic]
  | Opens _ (Completes final closeFails LogReturns) =>
      readWarning fn final ++ closeWarning fn closeFails ++ [InfoProcessed fn]
  | Opens _ (Completes final closeFails (LogPanics written)) =>
      readWarning fn final ++ closeWarning fn closeFails
      ++ ifWritten written (InfoProcessed fn) ++ [ErrorPanic]
  | Opens _ (ReadWarningPanics written) =>
      ifWritten written (WarnRead fn) ++ [ErrorPanic]
  | Opens _ (CloseWarningPanics final written) =>
      readWarning fn final ++ ifWritten written (WarnClose fn) ++ [ErrorPanic]
  end.

(** The lines a worker has still to write for the tally it holds. *)
Definition heldLogs (fs : string → fileBehaviour) (w : workerState) : list logEvent :=
  match w with
  | WSending fn _ => infoLogs fs fn
  | _ => []
  end.

(** The lines written so far, with those still to come from the tallies
    held by workers and from the files not yet taken, are the lines of all
    the files, in some order. *)
Definition Logged (fs : string → fileBehaviour) (files : list string) (s : state) : Prop :=
  logs s ++ flat_map (heldLogs fs) (workers s)
         ++ flat_map (fileLogs fs) (workQueue s ++ pcFiles (pc s))
  ≡ₚ flat_map (fileLogs fs) files.

(** ** Well-formed text *)

(** A decoded rune that is not the result of a decoding error: the
    decoder reports an error as [RuneError] with a width of one byte,
    while an encoded U+FFFD has three. *)
Definition decodedRune (x : rune * string) : bool :=
  negb (fst x =? RuneError) || negb (String.length (snd x) =? 1)%nat.

(** The string is valid UTF-8: a [range] over it meets no decoding
    error. *)
Definition validString (s : string) : bool := forallb decodedRune (rangeString s).

(** Every byte is one of [a] to [z]. *)
Fixpoint lowerAlpha (s : string) : bool :=
  match s with
  | EmptyString => true
  | String c t => (0x61 <=? byteVal c) && (byteVal c <=? 0x7A) && lowerAlpha t
  end.

(** ** ASCII case *)

(** What [lowerBytes] does to a decoded rune and its bytes: a rune of
    one byte in [A] to [Z] becomes the rune 32 above it, any other rune
    stays. *)
Definition lowerItem (x : rune * string) : rune * string :=
  (if (String.length (snd x) =? 1)%nat && (0x41 <=? fst x) && (fst x <=? 0x5A)
   then fst x + 32 else fst x,
   lowerBytes (snd x)).

(** Every byte is an ASCII letter. *)
Fixpoint asciiLetters (s : string) : bool :=
  match s with
  | EmptyString => true
  | String c t =>
      (((0x41 <=? byteVal c) && (byteVal c <=? 0x5A))
       || ((0x61 <=? byteVal c) && (byteVal c <=? 0x7A)))
      && asciiLetters t
  end.

(** ** Decimal numerals *)

(** Every byte is one of [0] to [9]. *)
Fixpoint allDigits (s : string) : bool :=
  match s with
  | EmptyString => true
  | String c t => (0x30 <=? byteVal c) && (byteVal c <=? 0x39) && allDigits t
  end.

(** The number that a string of decimal digits denotes, read from the
    left after the digits that gave [acc]. *)
Fixpoint readDigits (acc : Z) (s : string) : Z :=
  match s with
  | EmptyString => acc
  | String c t => readDigits (10 * acc + (byteVal c - 0x30)) t
  end.

(** ** Further sample inputs *)

(** A schedule for a pool of one that deals with the files one after
    the other: each file is sent, taken, and, when it opens, its tally is
    sent, received and merged before the next file is sent. *)
Definition sequentialItem (letterTable : rune → bool) (lowerTable : rune → rune)
    (fs : string → fileBehaviour) (fn : string) : list action :=
  match fst (processItem letterTable lowerTable fs fn) with
  | Emit res =>
      [OFeed; WTake 0; WSend 0; RRecv 0 (map_to_list res)]
      ++ replicate (size res) (RAdd 0) ++ [RNext 0]
  | _ => [OFeed; WTake 0]
  end.

Definition sequentialSchedule (letterTable : rune → bool) (lowerTable : rune → rune)
    (fs : string → fileBehaviour) (files : list string) : list action :=
  flat_map (sequentialItem letterTable lowerTable fs) files
  ++ [OCloseWork; WExit 0; OWorkersDone; OCloseResults; RExit 0; OReducersDone].

(** Two text files, one that is cut short by a read error, and no other
    file. *)
Definition smallFiles : string → fileBehaviour :=
  λ fn, if String.eqb fn "a.txt" then regularFile "banana Apple banana"
        else if String.eqb fn "b.txt" then regularFile "apple pie, APPLE PIE"
        else if String.eqb fn "c.txt" then Opens ["pie and "%string] ReadFailure
        else OpenFails.

(** The state in which [processFiles] returns on the sequential
    schedule. *)
Definition sequentialRun (fs : string → fileBehaviour) (files : list string) : state :=
  stateAfter (run latin1Only noCaseAbove fs 1
                (sequentialSchedule latin1Only noCaseAbove fs files) (init files 1)).

(** A machine with one CPU on which [processFiles] runs the sequential
    schedule over the small files. *)
Definition sampleWorld : Program.world :=
  Program.mkWorld 1 None None "1ms"
    (λ files _, returned (sequentialRun smallFiles files)).

(** The word [caf] followed by U+00E9. *)
Definition cafe : string :=
  String.append "caf" (String.append eAcuteLead eAcuteTail).

(** ** Unicode scalar values *)

(** [utf8.ValidRune]: a code point up to [MaxRune] outside the surrogate
    range. *)
Definition ValidRune (r : rune) : bool :=
  ((0 <=? r) && (r <? 0xD800)) || ((0xDFFF <? r) && (r <=? MaxRune)).

(** A decoded rune that is a Unicode scalar value together with its
    encoding. *)
Definition encodedRune (x : rune * string) : Prop :=
  ValidRune (fst x) = true ∧ EncodeRune (fst x) = snd x.

(** A string made of encodings of Unicode scalar values. *)
Definition encodedString (s : string) : Prop :=
  ∃ items, s = rawBytes items ∧ Forall encodedRune items.

(** A file that is not valid UTF-8: the byte [0xFF], the word [caf]
    U+00E9, and the first byte of an encoding with nothing after it. *)
Definition mixedBytes : string → fileBehaviour :=
  λ _, regularFile
         (String.append (String "x" (String "255" EmptyString))
            (String.append cafe (String.append " " eAcuteLead))).

(** ** A pool used up by panics *)

(** The number of workers that have taken a file and have not come back
    to the work queue. *)
Definition takenCount (ws : list workerState) : nat :=
  length (filter (λ w, w ≠ WIdle) ws).

(** The list of files starts with the files [bad], one for each worker,
    and goes on with [rest]. As many files of [bad] are gone as workers
    have taken one, and none of these workers comes back: it has
    returned, or it holds a tally and the logger is going to panic after
    the send. *)
Record Starved (fs : string → fileBehaviour) (bad rest : list string) (s : state)
  : Prop := mkStarved {
  sv_remaining :
    workQueue s ++ pcFiles (pc s) = drop (takenCount (workers s)) bad ++ rest;
  sv_sending :
    ∀ i fn res, workers s !! i = Some (WSending fn res) →
                infoOutcome fs fn ≠ LogReturns
}.

(** ** Faults *)

(** Worker [i] does not come back from the file [fn]: it has returned
    with the panic in the log, or it holds the tally of [fn] and the call
    of the logger after the send is going to panic. *)
Definition Doomed (fs : string → fileBehaviour) (i : nat) (fn : string) (s : state) : Prop :=
  (workers s !! i = Some WExited ∧ ErrorPanic ∈ logs s)
  ∨ (∃ res, workers s !! i = Some (WSending fn res)
            ∧ infoOutcome fs fn ≠ LogReturns).

(** The tokens of the chunks read from a file that opens, whether or
    not its tally is sent. *)
Definition contentTokens (letterTable : rune → bool) (lowerTable : rune → rune)
    (fs : string → fileBehaviour) (fn : string) : list string :=
  match fs fn with
  | Opens pieces _ =>
      flat_map (chunkTokens letterTable lowerTable) (fileReads bufSize pieces)
  | _ => []
  end.

(** A schedule for a pool of one over the files ["late"] and ["good"]
    of [lateFault]: the tally of ["late"] is sent and merged, the worker
    is lost to the panic that follows the send, and ["good"] stays in the
    work queue. *)
Definition lateFaultSchedule : list action :=
  [OFeed; WTake 0; WSend 0; OFeed; OCloseWork; OWorkersDone; OCloseResults;
   RRecv 0 [("worse"%string, 1)]; RAdd 0; RNext 0; RExit 0; OReducersDone].

(** ** What a call of [processFiles] comes to *)

(** [o] is a possible outcome of the call that has reached the state
    [s0]: the values returned at the end of some execution, or nothing
    when some execution blocks for ever. *)
Definition callOutcome (letterTable : rune → bool) (lowerTable : rune → rune)
    (fs : string → fileBehaviour) (cap : nat) (s0 : state)
    (o : option (gmap string Z * option string)) : Prop :=
  match o with
  | Some r =>
      ∃ sched s, run letterTable lowerTable fs cap sched s0 = Some s
                 ∧ returned s = Some r
  | None => canDeadlock letterTable lowerTable fs cap s0
  end.
(** * Properties *)

(** ** Machine integers *)

Section IntFacts.

Global Instance eqm_equivalence : Equivalence eqm.
Proof.
  unfold eqm; split.
  - intros x; reflexivity.
  - intros x y H; symmetry; exact H.
  - intros x y z H1 H2; rewrite H1; exact H2.
Qed.

Global Instance eqm_add_proper : Proper (eqm ==> eqm ==> eqm) Z.add.
Proof.
  unfold eqm; intros a a' Ha b b' Hb.
  rewrite (Z.add_mod a b), (Z.add_mod a' b') by (unfold intModulus, intBits; lia).
  rewrite Ha, Hb; reflexivity.
Qed.

Lemma wrapInt_eqm x : eqm (wrapInt x) x.
Proof.
  unfold eqm, wrapInt, intModulus, intBits.
  change (2 ^ (64 - 1)) with 9223372036854775808.
  change (2 ^ 64) with 18446744073709551616.
  rewrite Zminus_mod, Zmod_mod, <- Zminus_mod.
  f_equal; lia.
Qed.

Lemma wrapInt_range x : inIntRange (wrapInt x).
Proof.
  unfold inIntRange, wrapInt, intBits.
  change (2 ^ (64 - 1)) with 9223372036854775808.
  change (2 ^ 64) with 18446744073709551616.
  pose proof (Z.mod_pos_bound (x + 9223372036854775808) 18446744073709551616).
  lia.
Qed.

Lemma wrapInt_small x : inIntRange x → wrapInt x = x.
Proof.
  unfold inIntRange, wrapInt, intBits.
  change (2 ^ (64 - 1)) with 9223372036854775808.
  change (2 ^ 64) with 18446744073709551616.
  intros H. rewrite Z.mod_small by lia. lia.
Qed.

Lemma wrapInt_congr x y : eqm x y → wrapInt x = wrapInt y.
Proof.
  unfold eqm, wrapInt, intModulus. intros H.
  f_equal.
  rewrite (Z.add_mod x), (Z.add_mod y) by (unfold intBits; lia).
  rewrite H; reflexivity.
Qed.

Lemma wrapInt_idem x : wrapInt (wrapInt x) = wrapInt x.
Proof. apply wrapInt_congr, wrapInt_eqm. Qed.

Lemma eqm_in_range x y : eqm x y → wrapInt x = x → x = wrapInt y.
Proof. intros H Hx. rewrite <- Hx. apply wrapInt_congr, H. Qed.

End IntFacts.
(** ** Strings, chunks and fields *)

Section StringFacts.

Lemma append_nil_l (s : string) : String.append EmptyString s = s.
Proof. reflexivity. Qed.

Lemma append_cons c (a b : string) :
  String.append (String c a) b = String c (String.append a b).
Proof. reflexivity. Qed.

Lemma append_empty_r (s : string) : String.append s EmptyString = s.
Proof.
  induction s as [|c s IH]; [reflexivity|].
  rewrite append_cons, IH. reflexivity.
Qed.

Lemma append_assoc (a b c : string) :
  String.append (String.append a b) c = String.append a (String.append b c).
Proof.
  induction a as [|x a IH]; [reflexivity|].
  rewrite !append_cons, IH. reflexivity.
Qed.

Lemma length_append (a b : string) :
  String.length (String.append a b) = (String.length a + String.length b)%nat.
Proof.
  induction a as [|x a IH]; [reflexivity|].
  rewrite append_cons. simpl. rewrite IH. reflexivity.
Qed.

Lemma takeS_dropS n : ∀ s, String.append (takeS n s) (dropS n s) = s.
Proof.
  induction n as [|n IH]; intros [|c s]; simpl; try reflexivity.
  rewrite append_cons, IH. reflexivity.
Qed.

Lemma length_takeS n : ∀ s, String.length (takeS n s) = Nat.min n (String.length s).
Proof.
  induction n as [|n IH]; intros [|c s]; simpl; try reflexivity.
  rewrite IH. reflexivity.
Qed.

Lemma length_dropS n : ∀ s, String.length (dropS n s) = (String.length s - n)%nat.
Proof.
  induction n as [|n IH]; intros [|c s]; simpl; try reflexivity.
  apply IH.
Qed.

Lemma concatS_app l1 l2 :
  concatS (l1 ++ l2) = String.append (concatS l1) (concatS l2).
Proof.
  induction l1 as [|x l1 IH]; simpl; [reflexivity|].
  rewrite IH, append_assoc. reflexivity.
Qed.

Lemma rawBytes_app l1 l2 :
  rawBytes (l1 ++ l2) = String.append (rawBytes l1) (rawBytes l2).
Proof.
  induction l1 as [|x l1 IH]; simpl; [reflexivity|].
  rewrite IH, append_assoc. reflexivity.
Qed.

Lemma concatS_singleton s : concatS [s] = s.
Proof. unfold concatS. simpl. apply append_empty_r. Qed.

(** *** Chunked reads *)

Lemma chunksLoop_spec bufLen fuel : ∀ piece,
  (1 <= bufLen)%nat → (String.length piece <= fuel)%nat →
  Forall (λ c, (String.length c <= bufLen)%nat) (chunksLoop fuel bufLen piece)
  ∧ concatS (chunksLoop fuel bufLen piece) = piece.
Proof.
  induction fuel as [|fuel IH]; intros piece Hb Hf; simpl.
  - split; [constructor; [lia | constructor] | apply concatS_singleton].
  - destruct (Nat.leb_spec (String.length piece) bufLen) as [Hle|Hgt].
    + split; [constructor; [lia | constructor] | apply concatS_singleton].
    + destruct (IH (dropS bufLen piece) Hb) as [IH1 IH2].
      { rewrite length_dropS. lia. }
      split.
      * constructor; [rewrite length_takeS; lia | exact IH1].
      * unfold concatS in *. simpl. rewrite IH2. apply takeS_dropS.
Qed.

Lemma fileReads_cons bufLen p pieces :
  fileReads bufLen (p :: pieces) = chunks bufLen p ++ fileReads bufLen pieces.
Proof. reflexivity. Qed.

Lemma concatS_cons s l : concatS (s :: l) = String.append s (concatS l).
Proof. reflexivity. Qed.

Lemma bufSize_pos : (1 <= bufSize)%nat.
Proof. unfold bufSize. lia. Qed.

(** Every chunk handed to the splitter fits the 1 MiB buffer, and the
    chunks of a file laid end to end are the bytes of the file. *)
Lemma fileReads_spec pieces :
  Forall (λ c, (String.length c <= bufSize)%nat) (fileReads bufSize pieces)
  ∧ concatS (fileReads bufSize pieces) = concatS pieces.
Proof.
  induction pieces as [|p pieces [IH1 IH2]].
  - split; [constructor | reflexivity].
  - destruct (chunksLoop_spec bufSize (String.length p) p bufSize_pos (le_n _))
      as [H1 H2].
    rewrite fileReads_cons, concatS_cons. split.
    + apply Forall_app. split; assumption.
    + rewrite concatS_app. unfold chunks. rewrite H2, IH2. reflexivity.
Qed.

End StringFacts.

(** *** Fields *)

Section FieldFacts.

(** [sep] is the separator predicate handed to [FieldsFunc]. *)
Variable sep : rune -> bool.

Local Abbreviation inField := (λ x : rune * string, negb (sep (fst x))).



(** The fields, laid end to end, are the bytes of the non-separator
    runes: nothing is lost, and no separator gets in. *)
Lemma fieldsLoop_concat rs : ∀ start,
  concatS (fieldsLoop sep rs start)
  = String.append (default EmptyString start)
      (rawBytes (filter (λ x, inField x = true) rs)).
Proof.
  induction rs as [|[r raw] rs IH]; intros start.
  - destruct start as [fld|]; [|reflexivity].
    change (concatS [fld] = String.append fld EmptyString).
    rewrite concatS_singleton, append_empty_r. reflexivity.
  - rewrite filter_cons. cbn [fieldsLoop fst]. destruct (sep r) eqn:Hr.
    + rewrite decide_False by (cbn; discriminate).
      destruct start as [fld|]; [rewrite concatS_cons|]; rewrite IH; reflexivity.
    + rewrite decide_True by reflexivity.
      change (rawBytes ((r, raw) :: filter (λ x, inField x = true) rs))
        with (String.append raw (rawBytes (filter (λ x, inField x = true) rs))).
      destruct start as [fld|]; rewrite IH; [apply append_assoc | reflexivity].
Qed.

(** An open field only grows at its front when more bytes are put
    before it. *)
Lemma fieldsLoop_open_prefix rs : ∀ x y,
  ∃ h t, fieldsLoop sep rs (Some y) = h :: t
         ∧ fieldsLoop sep rs (Some (String.append x y)) = String.append x h :: t.
Proof.
  induction rs as [|[r raw] rs IH]; intros x y; simpl.
  - eauto.
  - destruct (sep r).
    + eauto.
    + rewrite append_assoc. apply IH.
Qed.

(** A field that starts the second chunk is glued to the field that is
    open at the end of the first. *)
Lemma fieldsLoop_start_letter rs x r raw :
  sep r = false →
  ∃ y t, fieldsLoop sep ((r, raw) :: rs) None = y :: t
         ∧ fieldsLoop sep ((r, raw) :: rs) (Some x) = String.append x y :: t.
Proof.
  intros Hr. simpl. rewrite Hr. apply fieldsLoop_open_prefix.
Qed.

(** When the input ends inside a field, that field is the last one, and
    it is still open for whatever comes next. *)
Lemma fieldsLoop_end_letter rs1 : ∀ start r raw,
  sep r = false →
  ∃ ws x, fieldsLoop sep (rs1 ++ [(r, raw)]) start = ws ++ [x]
          ∧ ∀ rs2, fieldsLoop sep ((rs1 ++ [(r, raw)]) ++ rs2) start
                   = ws ++ fieldsLoop sep rs2 (Some x).
Proof.
  induction rs1 as [|[r1 raw1] rs1 IH]; intros start r raw Hr.
  - simpl. rewrite Hr. destruct start as [fld|].
    + exists [], (String.append fld raw). split; [reflexivity | intros; reflexivity].
    + exists [], raw. split; [reflexivity | intros; reflexivity].
  - simpl. destruct (sep r1); destruct start as [fld|].
    + destruct (IH None r raw Hr) as (ws & x & H1 & H2).
      exists (fld :: ws), x. split; [rewrite H1; reflexivity|].
      intros rs2. rewrite H2. reflexivity.
    + apply IH, Hr.
    + apply IH, Hr.
    + apply IH, Hr.
Qed.

End FieldFacts.

(** *** Lower-casing *)

Section LowerFacts.

Variable lowerTable : rune -> rune.


Lemma byteVal_range c : 0 <= byteVal c < 256.
Proof.
  unfold byteVal. pose proof (N_ascii_bounded c). lia.
Qed.

Lemma byteVal_toByte x : 0 <= x < 256 → byteVal (toByte x) = x.
Proof.
  intros Hx. unfold byteVal, toByte.
  rewrite Z.mod_small by lia.
  rewrite N_ascii_embedding by lia. lia.
Qed.

Lemma lowerBytes_no_upper s : hasUpper (lowerBytes s) = false.
Proof.
  induction s as [|c s IH]; [reflexivity|].
  simpl. rewrite IH, orb_false_r.
  destruct (isUpperByte c) eqn:Hc; [|exact Hc].
  unfold isUpperByte in *. pose proof (byteVal_range c).
  rewrite byteVal_toByte by lia. lia.
Qed.

Lemma lowerBytes_id s : hasUpper s = false → lowerBytes s = s.
Proof.
  induction s as [|c s IH]; [reflexivity|].
  simpl. intros H. apply orb_false_iff in H as [Hc Hs].
  rewrite Hc, IH by exact Hs. reflexivity.
Qed.

Lemma length_lowerBytes s : String.length (lowerBytes s) = String.length s.
Proof. induction s as [|c s IH]; simpl; [reflexivity | rewrite IH; reflexivity]. Qed.

(** [strings.ToLower] on an ASCII string maps it bytewise; the result has
    the same length and no upper-case byte. *)
Lemma ToLower_unfold s :
  ToLower lowerTable s
  = if allASCII s then lowerBytes s else Map (unicode_ToLower lowerTable) s.
Proof.
  unfold ToLower. destruct (allASCII s); [|reflexivity].
  destruct (hasUpper s) eqn:Hu; [reflexivity|].
  symmetry. apply lowerBytes_id, Hu.
Qed.

End LowerFacts.

(** *** Decoding *)

Section DecodeFacts.

(** A rune of a non-empty string is decoded from at least one byte. *)
Lemma DecodeRuneInString_width c t :
  (1 <= snd (DecodeRuneInString (String c t)))%nat.
Proof.
  unfold DecodeRuneInString.
  repeat (case_match; simpl; try lia).
Qed.

Lemma takeS_nonempty w c t : (1 <= w)%nat → takeS w (String c t) ≠ EmptyString.
Proof. destruct w; simpl; [lia | discriminate]. Qed.

Lemma rangeLoop_raw_nonempty fuel : ∀ s,
  Forall (λ x : rune * string, snd x ≠ EmptyString) (rangeLoop fuel s).
Proof.
  induction fuel as [|fuel IH]; intros s; simpl; [constructor|].
  destruct s as [|c t]; [constructor|].
  pose proof (DecodeRuneInString_width c t) as Hw.
  destruct (DecodeRuneInString (String c t)) as [r w]. simpl in Hw.
  constructor; [apply takeS_nonempty, Hw | apply IH].
Qed.

Lemma rangeString_raw_nonempty s :
  Forall (λ x : rune * string, snd x ≠ EmptyString) (rangeString s).
Proof. apply rangeLoop_raw_nonempty. Qed.

Lemma append_nonempty_r a b : b ≠ EmptyString → String.append a b ≠ EmptyString.
Proof.
  intros Hb. destruct a; [exact Hb|]. rewrite append_cons. discriminate.
Qed.

(** Fields are never empty. *)
Lemma fieldsLoop_nonempty sep rs : ∀ start,
  Forall (λ x : rune * string, snd x ≠ EmptyString) rs →
  (∀ fld, start = Some fld → fld ≠ EmptyString) →
  Forall (λ w, w ≠ EmptyString) (fieldsLoop sep rs start).
Proof.
  induction rs as [|[r raw] rs IH]; intros start Hrs Hst; simpl.
  - destruct start as [fld|]; [|constructor].
    constructor; [apply Hst; reflexivity | constructor].
  - inversion Hrs as [|? ? Hraw Hrest]; subst. simpl in Hraw.
    destruct (sep r); destruct start as [fld|].
    + constructor; [apply Hst; reflexivity|]. apply IH; [exact Hrest | discriminate].
    + apply IH; [exact Hrest | discriminate].
    + apply IH; [exact Hrest|]. intros ? [= <-]. apply append_nonempty_r, Hraw.
    + apply IH; [exact Hrest|]. intros ? [= <-]. exact Hraw.
Qed.

Lemma FieldsFunc_nonempty s sep :
  Forall (λ w, w ≠ EmptyString) (FieldsFunc s sep).
Proof.
  apply fieldsLoop_nonempty; [apply rangeString_raw_nonempty | discriminate].
Qed.

End DecodeFacts.

Section SplitFacts.

Variable letterTable : rune -> bool.

Lemma splitWords_concat c :
  concatS (splitWords letterTable c) = letterBytes letterTable c.
Proof.
  unfold splitWords, FieldsFunc, letterBytes. rewrite fieldsLoop_concat.
  change (default EmptyString None) with EmptyString. rewrite append_nil_l.
  f_equal. apply list_filter_iff. intros x. unfold letterRune.
  rewrite negb_involutive. reflexivity.
Qed.

(** A chunk boundary between two letters cuts the word in two. *)
Lemma splitWords_boundary c1 c2 :
  rangeString (String.append c1 c2) = rangeString c1 ++ rangeString c2 →
  endsWithLetter letterTable c1 = true →
  startsWithLetter letterTable c2 = true →
  ∃ ws1 x y ws2,
    splitWords letterTable c1 = ws1 ++ [x]
    ∧ splitWords letterTable c2 = y :: ws2
    ∧ x ≠ EmptyString ∧ y ≠ EmptyString
    ∧ splitWords letterTable (String.append c1 c2)
      = ws1 ++ [String.append x y] ++ ws2.
Proof.
  intros Hb He Hs.
  unfold endsWithLetter in He. destruct (last (rangeString c1)) as [[r1 raw1]|] eqn:Hl;
    [|discriminate].
  apply last_Some in Hl as [rs1 Hrs1].
  unfold startsWithLetter in Hs. destruct (rangeString c2) as [|[r2 raw2] rs2] eqn:Hrs2;
    [discriminate|].
  unfold letterRune in He, Hs. simpl in He, Hs.
  set (sep := λ r, negb (IsLetter letterTable r)).
  assert (sep r1 = false) as H1 by (unfold sep; rewrite He; reflexivity).
  assert (sep r2 = false) as H2 by (unfold sep; rewrite Hs; reflexivity).
  destruct (fieldsLoop_end_letter sep rs1 None r1 raw1 H1) as (ws1 & x & Hx & Hrest).
  destruct (fieldsLoop_start_letter sep rs2 x r2 raw2 H2) as (y & ws2 & Hy & Hxy).
  exists ws1, x, y, ws2.
  assert (splitWords letterTable c1 = ws1 ++ [x]) as Hc1.
  { unfold splitWords, FieldsFunc. rewrite Hrs1. exact Hx. }
  assert (splitWords letterTable c2 = y :: ws2) as Hc2.
  { unfold splitWords, FieldsFunc. rewrite Hrs2. exact Hy. }
  split; [exact Hc1|]. split; [exact Hc2|].
  assert (Forall (λ w, w ≠ EmptyString) (splitWords letterTable c1)) as Hn1
    by apply FieldsFunc_nonempty.
  assert (Forall (λ w, w ≠ EmptyString) (splitWords letterTable c2)) as Hn2
    by apply FieldsFunc_nonempty.
  rewrite Hc1 in Hn1. rewrite Hc2 in Hn2.
  apply Forall_app in Hn1 as [_ Hn1]. inversion Hn1; subst. inversion Hn2; subst.
  split; [assumption|]. split; [assumption|].
  unfold splitWords, FieldsFunc. rewrite Hb, Hrs1, Hrest, Hxy. reflexivity.
Qed.

(** When no rune is cut by a chunk boundary, the words of the chunks
    hold every letter of the stream, in order. *)
Lemma splitWords_cover chunks :
  rangeString (concatS chunks) = flat_map rangeString chunks →
  concatS (flat_map (splitWords letterTable) chunks)
  = letterBytes letterTable (concatS chunks).
Proof.
  intros H. unfold letterBytes. rewrite H. clear H.
  induction chunks as [|c chunks IH]; [reflexivity|].
  simpl. rewrite concatS_app, filter_app, rawBytes_app, IH, splitWords_concat.
  reflexivity.
Qed.

End SplitFacts.

(** *** A letter across the buffer size *)

Section StraddleFacts.

Variable letterTable : rune -> bool.

Lemma length_spaces n : String.length (spaces n) = n.
Proof. induction n as [|n IH]; simpl; [reflexivity | rewrite IH; reflexivity]. Qed.

Lemma rangeString_space rest :
  rangeString (String " " rest) = (32, String " " EmptyString) :: rangeString rest.
Proof. reflexivity. Qed.

Lemma splitWords_space rest :
  splitWords letterTable (String " " rest) = splitWords letterTable rest.
Proof.
  unfold splitWords, FieldsFunc. rewrite rangeString_space. reflexivity.
Qed.

Lemma splitWords_spaces n rest :
  splitWords letterTable (String.append (spaces n) rest) = splitWords letterTable rest.
Proof.
  induction n as [|n IH]; [reflexivity|].
  change (spaces (S n)) with (String " " (spaces n)).
  rewrite append_cons, splitWords_space. exact IH.
Qed.

Lemma takeS_append a b : takeS (String.length a) (String.append a b) = a.
Proof.
  induction a as [|c a IH]; [destruct b; reflexivity|].
  rewrite append_cons. simpl. rewrite IH. reflexivity.
Qed.

Lemma dropS_append a b : dropS (String.length a) (String.append a b) = b.
Proof.
  induction a as [|c a IH]; [reflexivity|].
  rewrite append_cons. simpl. exact IH.
Qed.

(** With a buffer of [S b] bytes, [b] bytes followed by the two bytes
    [x] and [y] are read as [b] bytes and [x], then [y]. *)
Lemma chunks_straddle b (pad : string) (x y : ascii) :
  String.length pad = b →
  chunks (S b) (String.append pad (String x (String y EmptyString)))
  = [String.append pad (String x EmptyString); String y EmptyString].
Proof.
  intros Hpad.
  assert (String.length (String.append pad (String x EmptyString)) = S b) as Hlen.
  { rewrite length_append, Hpad. simpl. lia. }
  assert (String.append pad (String x (String y EmptyString))
          = String.append (String.append pad (String x EmptyString))
              (String y EmptyString)) as Hfile.
  { rewrite append_assoc. reflexivity. }
  unfold chunks. rewrite Hfile, length_append, Hlen.
  replace (S b + String.length (String y EmptyString))%nat with (S (S b))
    by (simpl; lia).
  cbn [chunksLoop]. rewrite length_append, Hlen.
  destruct (Nat.leb_spec (S b + String.length (String y EmptyString)) (S b))
    as [Habs|_]; [simpl in Habs; lia|].
  assert (takeS (S b) (String.append (String.append pad (String x EmptyString))
                         (String y EmptyString))
          = String.append pad (String x EmptyString)) as ->
    by (rewrite <- Hlen; apply takeS_append).
  assert (dropS (S b) (String.append (String.append pad (String x EmptyString))
                         (String y EmptyString))
          = String y EmptyString) as ->
    by (rewrite <- Hlen; apply dropS_append).
  reflexivity.
Qed.

(** The first read of the straddling file fills the buffer and ends
    between the two bytes of the letter; the second read returns the byte
    that is left. *)
Lemma straddlingFile_reads :
  fileReads bufSize [straddlingFile]
  = [String.append (spaces (Nat.pred bufSize)) eAcuteLead; eAcuteTail].
Proof.
  rewrite fileReads_cons. unfold fileReads. cbn [flat_map]. rewrite app_nil_r.
  unfold straddlingFile, eAcuteLead, eAcuteTail.
  rewrite <- (Nat.succ_pred_pos bufSize bufSize_pos) at 1.
  rewrite append_cons, append_nil_l.
  apply chunks_straddle, length_spaces.
Qed.

End StraddleFacts.
(** ** The per-file tally *)

Section TallyFacts.

Variable letterTable : rune -> bool.
Variable lowerTable : rune -> rune.

Lemma countIn_nil w : countIn w [] = 0.
Proof. reflexivity. Qed.

Lemma countIn_cons w t l :
  countIn w (t :: l) = (if decide (t = w) then 1 else 0) + countIn w l.
Proof.
  unfold countIn. rewrite filter_cons.
  destruct (decide (t = w)); simpl; lia.
Qed.

Lemma countIn_app w l1 l2 : countIn w (l1 ++ l2) = countIn w l1 + countIn w l2.
Proof. unfold countIn. rewrite filter_app, length_app. lia. Qed.

Lemma countIn_nonneg w l : 0 <= countIn w l.
Proof. unfold countIn. lia. Qed.

Lemma countIn_le_length w l : countIn w l <= Z.of_nat (length l).
Proof. unfold countIn. pose proof (length_filter (λ t, t = w) l). lia. Qed.

Lemma countIn_pos_elem w l : 0 < countIn w l ↔ w ∈ l.
Proof.
  induction l as [|t l IH].
  - rewrite countIn_nil. split; [lia | intros H; inversion H].
  - rewrite countIn_cons, elem_of_cons.
    pose proof (countIn_nonneg w l).
    destruct (decide (t = w)) as [->|Hne].
    + split; [auto | lia].
    + rewrite Z.add_0_l, IH. split; [auto | intros [->|]; [congruence | auto]].
Qed.

Lemma valAt_empty w : valAt ∅ w = 0.
Proof. unfold valAt. rewrite lookup_empty. reflexivity. Qed.

Lemma valAt_incr res t w :
  valAt (incr res t) w = if decide (t = w) then wrapInt (valAt res w + 1) else valAt res w.
Proof.
  unfold valAt, incr. destruct (decide (t = w)) as [->|Hne].
  - rewrite lookup_insert_eq. reflexivity.
  - rewrite lookup_insert_ne by exact Hne. reflexivity.
Qed.

Lemma dom_incr res t : dom (incr res t) = {[t]} ∪ dom res.
Proof. unfold incr. apply dom_insert_L. Qed.

Lemma intValued_empty : intValued ∅.
Proof. intros k v H. rewrite lookup_empty in H. discriminate. Qed.

Lemma intValued_insert m k x : intValued m → intValued (<[k := wrapInt x]> m).
Proof.
  intros Hm k' v. rewrite lookup_insert. case_decide.
  - intros [= <-]. apply wrapInt_idem.
  - apply Hm.
Qed.

Lemma tally_val l : ∀ res w,
  eqm (valAt (fold_left incr l res) w) (valAt res w + countIn w l).
Proof.
  induction l as [|t l IH]; intros res w; simpl.
  - rewrite countIn_nil, Z.add_0_r. reflexivity.
  - rewrite IH, valAt_incr, countIn_cons.
    destruct (decide (t = w)).
    + rewrite wrapInt_eqm. replace (valAt res w + 1 + countIn w l)
        with (valAt res w + (1 + countIn w l)) by lia. reflexivity.
    + reflexivity.
Qed.

Lemma tally_dom l : ∀ res, dom (fold_left incr l res) = list_to_set l ∪ dom res.
Proof.
  induction l as [|t l IH]; intros res; simpl.
  - set_solver.
  - rewrite IH, dom_incr. set_solver.
Qed.

Lemma tally_intValued l : ∀ res, intValued res → intValued (fold_left incr l res).
Proof.
  induction l as [|t l IH]; intros res Hres; simpl; [exact Hres|].
  apply IH. unfold incr. apply intValued_insert, Hres.
Qed.

(** The tally of a chunk counts exactly the chunk's tokens, in order. *)
Lemma countChunk_tokens res chunk :
  countChunk letterTable lowerTable res chunk
  = fold_left incr (chunkTokens letterTable lowerTable chunk) res.
Proof.
  unfold countChunk, chunkTokens.
  generalize (splitWords letterTable chunk) as ws. intros ws. revert res.
  induction ws as [|x ws IH]; intros res; simpl; [reflexivity|].
  rewrite IH, filter_cons. unfold countWord.
  destruct (String.eqb_spec (ToLower lowerTable x) EmptyString) as [He|He].
  - rewrite decide_False by (intros Hn; apply Hn, He). reflexivity.
  - rewrite decide_True by exact He. reflexivity.
Qed.

Lemma chunkTokens_empty : chunkTokens letterTable lowerTable EmptyString = [].
Proof. reflexivity. Qed.

Lemma length_zero_empty (s : string) : String.length s = 0%nat → s = EmptyString.
Proof. destruct s; simpl; [reflexivity | discriminate]. Qed.

(** The read loop counts the tokens of the chunks it is handed. *)
Lemma readLoop_tokens reads : ∀ res,
  readLoop letterTable lowerTable reads res
  = fold_left incr (flat_map (chunkTokens letterTable lowerTable) reads) res.
Proof.
  induction reads as [|data reads IH]; intros res; simpl; [reflexivity|].
  rewrite IH, fold_left_app. f_equal.
  destruct (Nat.ltb_spec 0 (String.length data)) as [Hpos|Hz].
  - apply countChunk_tokens.
  - assert (data = EmptyString) as -> by (apply length_zero_empty; lia).
    reflexivity.
Qed.

(** What the worker sends for a file that opens is the tally of the
    file's token stream. *)
Lemma processItem_emits fs fn pieces final closeFails info :
  fs fn = Opens pieces (Completes final closeFails info) →
  fst (processItem letterTable lowerTable fs fn)
  = Emit (fold_left incr (fileTokens letterTable lowerTable fs fn) ∅).
Proof.
  intros H. unfold processItem, fileTokens. rewrite H. simpl.
  rewrite readLoop_tokens. reflexivity.
Qed.

End TallyFacts.
(** ** The phases of [processFiles] *)

Ltac fire_inv H :=
  cbv beta iota delta [fire processFiles processFile reducer] in H;
  repeat (case_match; try discriminate);
  simplify_eq.

Section PhaseFacts.

Variable letterTable : rune -> bool.
Variable lowerTable : rune -> rune.
Variable fs : string -> fileBehaviour.
Variable cap : nat.

Local Abbreviation fire := (fire letterTable lowerTable fs cap).
Local Abbreviation step := (step letterTable lowerTable fs cap).
Local Abbreviation reachable := (reachable letterTable lowerTable fs cap).
Local Abbreviation run := (run letterTable lowerTable fs cap).

Lemma forallb_all_exited ws :
  forallb (λ w, bool_decide (w = WExited)) ws = true → allExited ws.
Proof.
  intros H i w Hi.
  rewrite forallb_forall in H.
  eapply bool_decide_eq_true_1. apply H.
  apply list_elem_of_In, list_elem_of_lookup. eauto.
Qed.

Lemma forallb_all_reducers_exited rs :
  forallb (λ r, bool_decide (r = RExited)) rs = true → allReducersExited rs.
Proof.
  intros H j r Hj.
  rewrite forallb_forall in H.
  eapply bool_decide_eq_true_1. apply H.
  apply list_elem_of_In, list_elem_of_lookup. eauto.
Qed.

Lemma allExited_insert ws i : allExited ws → allExited (<[i := WExited]> ws).
Proof.
  intros H j w Hj. apply list_lookup_insert_Some in Hj.
  destruct Hj as [(_ & <- & _)|(_ & Hj)]; [reflexivity | eauto].
Qed.

Lemma Phase_init files : Phase cap (init files cap).
Proof.
  split; simpl.
  - apply length_replicate.
  - apply length_replicate.
  - lia.
  - lia.
  - reflexivity.
  - split; [discriminate | intros [|]; discriminate].
  - intros [|[|]]; discriminate.
  - discriminate.
  - intros j Hj. apply lookup_replicate in Hj. destruct Hj; discriminate.
  - apply intValued_empty.
Qed.

Lemma allExited_lookup ws i w : allExited ws → ws !! i = Some w → w = WExited.
Proof. intros H Hi. eapply H, Hi. Qed.

Lemma allReducersExited_insert rs j :
  allReducersExited rs → allReducersExited (<[j := RExited]> rs).
Proof.
  intros H i r Hi. apply list_lookup_insert_Some in Hi.
  destruct Hi as [(_ & <- & _)|(_ & Hi)]; [reflexivity | eauto].
Qed.

Ltac phase_auto :=
  simpl in *;
  rewrite ?length_insert, ?length_app in *; simpl in *;
  repeat match goal with
  | H : (_ <? _)%nat = true |- _ => apply Nat.ltb_lt in H
  | H : Some _ = Some _ |- _ => injection H as H
  end;
  try lia; try done; try (intuition congruence).

Ltac phase_more :=
  try match goal with
  | |- _ → allExited (<[_ := WExited]> _) =>
      let Hpc := fresh in intros Hpc; apply allExited_insert; eauto
  | Hj : _ → allExited ?ws, Hi : ?ws !! _ = Some ?w |- _ → allExited _ =>
      let Hpc := fresh in
      intros Hpc; specialize (Hj Hpc);
      apply (allExited_lookup _ _ _ Hj) in Hi; discriminate
  | Hr : _ → allReducersExited ?rs, Hi : ?rs !! _ = Some ?r
    |- _ → allReducersExited _ =>
      let Hpc := fresh in
      intros Hpc; specialize (Hr Hpc);
      pose proof (Hr _ _ Hi); discriminate
  | |- ∀ _, <[_ := _]> _ !! _ = Some RExited → _ =>
      let j0 := fresh in
      let Hj0 := fresh in
      intros j0 Hj0; apply list_lookup_insert_Some in Hj0;
      destruct Hj0 as [(? & ? & ?)|(? & Hj0)]; [try discriminate | ]
  end.

Ltac phase_fin :=
  try match goal with
  | H : forallb _ (workers _) = true |- _ → allExited _ =>
      intros _; apply forallb_all_exited, H
  | H : forallb _ (reducers _) = true |- _ → allReducersExited _ =>
      intros _; apply forallb_all_reducers_exited, H
  | |- intValued (addCount _ _ _) => apply intValued_insert; assumption
  | Hre : ∀ j, _ !! j = Some RExited → _ |- ∀ _, _ !! _ = Some RExited → _ =>
      let j0 := fresh in
      let Hj0 := fresh in
      intros j0 Hj0; destruct (Hre _ Hj0); split; congruence
  | Hre : ∀ j, ?rs !! j = Some RExited → _, H : ?rs !! _ = Some RExited
    |- _ ∧ _ =>
      destruct (Hre _ H); split; congruence
  | H : _ = [] |- (length _ <= _)%nat => rewrite H; simpl; lia
  end.

Lemma Phase_fire a s s' : Phase cap s → fire a s = Some s' → Phase cap s'.
Proof.
  intros [Hw Hr Hwq Hpr Hwc Hrc Hj Hret Hre Hiv] Hf.
  destruct a; fire_inv Hf.
  all: split; phase_auto; phase_more; phase_fin.
Qed.

Lemma Phase_reachable files s :
  reachable (init files cap) s → Phase cap s.
Proof.
  revert s. apply rtc_ind_r.
  - apply Phase_init.
  - intros y z _ [a Ha] IH. eapply Phase_fire; eauto.
Qed.

(** A worker blocked on its send is proof that the results channel is
    still open. *)
Lemma closed_no_sender s i fn res :
  Phase cap s → workers s !! i = Some (WSending fn res) → resultsClosed s = false.
Proof.
  intros Hph Hi. destruct (resultsClosed s) eqn:Hc; [|reflexivity].
  apply (ph_resultsClosed _ _ Hph) in Hc.
  assert (allExited (workers s)) as Hall.
  { apply (ph_joined _ _ Hph). right. exact Hc. }
  specialize (Hall _ _ Hi). discriminate.
Qed.

End PhaseFacts.
(** ** Conservation of counts through the pipeline *)

Section SumFacts.

Context {A : Type}.

Lemma sumZ_app (f : A → Z) l1 l2 : sumZ f (l1 ++ l2) = sumZ f l1 + sumZ f l2.
Proof. induction l1 as [|x l1 IH]; simpl; [reflexivity | rewrite IH; lia]. Qed.

Lemma sumZ_insert (f : A → Z) l i x y :
  l !! i = Some y → sumZ f (<[i := x]> l) = sumZ f l - f y + f x.
Proof.
  revert i. induction l as [|z l IH]; intros [|i] Hi; simpl in *; try discriminate.
  - injection Hi as ->. lia.
  - rewrite (IH i Hi). lia.
Qed.

Lemma sumZ_zero (f : A → Z) l :
  (∀ i x, l !! i = Some x → f x = 0) → sumZ f l = 0.
Proof.
  induction l as [|z l IH]; intros H; simpl; [reflexivity|].
  rewrite (H 0%nat z eq_refl), IH; [reflexivity|].
  intros i x Hi. apply (H (S i) x Hi).
Qed.

Lemma sumZ_nonneg (f : A → Z) l : (∀ x, 0 <= f x) → 0 <= sumZ f l.
Proof. intros H. induction l as [|z l IH]; simpl; [lia | specialize (H z); lia]. Qed.

Lemma sumZ_le (f g : A → Z) l : (∀ x, f x <= g x) → sumZ f l <= sumZ g l.
Proof. intros H. induction l as [|z l IH]; simpl; [lia | specialize (H z); lia]. Qed.

Lemma sumZ_perm (f : A → Z) l l' : l ≡ₚ l' → sumZ f l = sumZ f l'.
Proof. induction 1; simpl; lia. Qed.

Lemma unionOf_app (f : A → gset string) l1 l2 :
  unionOf f (l1 ++ l2) = unionOf f l1 ∪ unionOf f l2.
Proof. induction l1 as [|x l1 IH]; simpl; [set_solver | rewrite IH; set_solver]. Qed.

Lemma unionOf_insert_grow (f : A → gset string) l i x y a :
  l !! i = Some y → f x = a ∪ f y → unionOf f (<[i := x]> l) = a ∪ unionOf f l.
Proof.
  revert i. induction l as [|z l IH]; intros [|i] Hi Hx; simpl in *; try discriminate.
  - injection Hi as ->. rewrite Hx. set_solver.
  - rewrite (IH i Hi Hx). set_solver.
Qed.

Lemma unionOf_insert_shrink (f : A → gset string) l i x y a :
  l !! i = Some y → f y = a ∪ f x → unionOf f l = a ∪ unionOf f (<[i := x]> l).
Proof.
  revert i. induction l as [|z l IH]; intros [|i] Hi Hx; simpl in *; try discriminate.
  - injection Hi as ->. rewrite Hx. set_solver.
  - rewrite (IH i Hi Hx). set_solver.
Qed.

Lemma unionOf_empty (f : A → gset string) l :
  (∀ i x, l !! i = Some x → f x = ∅) → unionOf f l = ∅.
Proof.
  induction l as [|z l IH]; intros H; simpl; [reflexivity|].
  rewrite (H 0%nat z eq_refl), IH; [set_solver|].
  intros i x Hi. apply (H (S i) x Hi).
Qed.

Lemma elem_of_unionOf (f : A → gset string) l w :
  w ∈ unionOf f l ↔ ∃ x, x ∈ l ∧ w ∈ f x.
Proof.
  induction l as [|z l IH]; simpl.
  - split; [set_solver | intros (x & Hx & _); inversion Hx].
  - rewrite elem_of_union, IH. split.
    + intros [H|(x & Hx & Hw)]; [exists z | exists x]; split; auto; constructor; auto.
    + intros (x & Hx & Hw). apply elem_of_cons in Hx as [->|Hx]; eauto.
Qed.

End SumFacts.

Section PendFacts.

Lemma pendVal_cons w k v l :
  pendVal w ((k, v) :: l) = (if decide (k = w) then v else 0) + pendVal w l.
Proof. reflexivity. Qed.

Lemma pendKeys_cons k v l : pendKeys ((k, v) :: l) = {[k]} ∪ pendKeys l.
Proof. reflexivity. Qed.

Lemma pendVal_perm w l l' : l ≡ₚ l' → pendVal w l = pendVal w l'.
Proof. apply sumZ_perm. Qed.

Lemma pendKeys_perm l l' : l ≡ₚ l' → pendKeys l = pendKeys l'.
Proof.
  intros H. unfold pendKeys. apply set_eq. intros x.
  rewrite !elem_of_list_to_set, H. reflexivity.
Qed.

Lemma pendVal_absent w l : w ∉ l.*1 → pendVal w l = 0.
Proof.
  induction l as [|[k v] l IH]; intros H; [reflexivity|].
  rewrite pendVal_cons. simpl in H. apply not_elem_of_cons in H as [Hne Hl].
  rewrite decide_False by congruence. rewrite IH by exact Hl. reflexivity.
Qed.

Lemma pendVal_map_to_list w (m : gmap string Z) :
  pendVal w (map_to_list m) = valAt m w.
Proof.
  induction m as [|k v m Hk IH] using map_ind.
  - rewrite map_to_list_empty. reflexivity.
  - rewrite (pendVal_perm _ _ _ (map_to_list_insert m k v Hk)), pendVal_cons, IH.
    unfold valAt. destruct (decide (k = w)) as [->|Hne].
    + rewrite lookup_insert_eq, Hk. simpl. lia.
    + rewrite lookup_insert_ne by exact Hne. lia.
Qed.

Lemma pendKeys_map_to_list (m : gmap string Z) : pendKeys (map_to_list m) = dom m.
Proof.
  unfold pendKeys. apply set_eq. intros x.
  rewrite elem_of_list_to_set, elem_of_dom, list_elem_of_fmap. split.
  - intros ([k v] & -> & H). apply elem_of_map_to_list in H. eauto.
  - intros [v H]. exists (x, v). split; [reflexivity|]. apply elem_of_map_to_list, H.
Qed.

End PendFacts.
Section Conservation.

Variable letterTable : rune -> bool.
Variable lowerTable : rune -> rune.
Variable fs : string -> fileBehaviour.
Variable cap : nat.

Local Abbreviation fire := (fire letterTable lowerTable fs cap).
Local Abbreviation reachable := (reachable letterTable lowerTable fs cap).
Local Abbreviation tokens := (fileTokens letterTable lowerTable fs).
Local Abbreviation occ := (occurrences letterTable lowerTable fs).
Local Abbreviation words := (wordsOf letterTable lowerTable fs).
Local Abbreviation sVal := (stVal letterTable lowerTable fs).
Local Abbreviation sKeys := (stKeys letterTable lowerTable fs).
Local Abbreviation processItem := (processItem letterTable lowerTable fs).

Global Instance eqm_sub_proper : Proper (eqm ==> eqm ==> eqm) Z.sub.
Proof.
  unfold eqm; intros a a' Ha b b' Hb.
  rewrite (Zminus_mod a b), (Zminus_mod a' b'). rewrite Ha, Hb; reflexivity.
Qed.

Lemma eq_eqm a b : a = b → eqm a b.
Proof. intros ->. reflexivity. Qed.

Lemma occurrences_cons w fn l :
  occ w (fn :: l) = countIn w (tokens fn) + occ w l.
Proof. reflexivity. Qed.

Lemma occurrences_app w l1 l2 :
  occ w (l1 ++ l2) = occ w l1 + occ w l2.
Proof. apply sumZ_app. Qed.

Lemma wordsOf_cons fn l : words (fn :: l) = list_to_set (tokens fn) ∪ words l.
Proof. reflexivity. Qed.

Lemma wordsOf_app l1 l2 : words (l1 ++ l2) = words l1 ∪ words l2.
Proof. apply unionOf_app. Qed.

(** What a worker holds after an item is the tally of the file's token
    stream. *)
Lemma afterItem_val fn w :
  eqm (workerVal w (afterItem fn (fst (processItem fn)))) (countIn w (tokens fn)).
Proof.
  unfold Worker.processItem, fileTokens.
  destruct (fs fn) as [|written|pieces [final closeFails info|written|final written]];
    simpl; try reflexivity.
  rewrite readLoop_tokens, tally_val, valAt_empty. reflexivity.
Qed.

Lemma afterItem_keys fn :
  workerKeys (afterItem fn (fst (processItem fn))) = list_to_set (tokens fn).
Proof.
  unfold Worker.processItem, fileTokens.
  destruct (fs fn) as [|written|pieces [final closeFails info|written|final written]];
    simpl; try reflexivity.
  rewrite readLoop_tokens, tally_dom. set_solver.
Qed.

Lemma valAt_addCount fin k v w :
  valAt (addCount fin k v) w
  = if decide (k = w) then wrapInt (valAt fin w + v) else valAt fin w.
Proof.
  unfold valAt, addCount. destruct (decide (k = w)) as [->|Hne].
  - rewrite lookup_insert_eq. reflexivity.
  - rewrite lookup_insert_ne by exact Hne. reflexivity.
Qed.

Lemma dom_addCount fin k v : dom (addCount fin k v) = {[k]} ∪ dom fin.
Proof. unfold addCount. apply dom_insert_L. Qed.

Lemma conserve_fire a s s' :
  Phase cap s → fire a s = Some s' →
  sKeys s' = sKeys s ∧ ∀ w, eqm (sVal s' w) (sVal s w).
Proof.
  intros Hph Hf.
  destruct a; fire_inv Hf; unfold stKeys, stVal; simpl.
  - (* OFeed *)
    rewrite H; simpl. rewrite <- app_assoc; simpl. split; [reflexivity | intros; reflexivity].
  - rewrite H; simpl. split; [reflexivity | intros; reflexivity].
  - rewrite H; simpl. split; [reflexivity | intros; reflexivity].
  - rewrite H; simpl. split; [reflexivity | intros; reflexivity].
  - rewrite H; simpl. split; [reflexivity | intros; reflexivity].
  - (* WTake *)
    assert (i0 = fst (processItem s0)) as -> by (rewrite H2; reflexivity).
    rewrite H1, <- app_comm_cons. split.
    + rewrite (unionOf_insert_grow workerKeys _ i _ WIdle (list_to_set (tokens s0)) H).
      * rewrite wordsOf_cons. set_solver.
      * rewrite afterItem_keys. simpl. set_solver.
    + intros w. rewrite (sumZ_insert (workerVal w) _ i _ WIdle H).
      rewrite occurrences_cons, afterItem_val. simpl. apply eq_eqm. lia.
  - (* WSend on a closed channel *)
    rewrite (closed_no_sender _ _ _ _ _ Hph H) in H1. discriminate.
  - (* WSend *)
    split.
    + rewrite unionOf_app. simpl.
      rewrite (unionOf_insert_shrink workerKeys (workers s) i WIdle _ (dom res) H)
        by (simpl; set_solver).
      set_solver.
    + intros w. rewrite sumZ_app, (sumZ_insert (workerVal w) _ i _ _ H). simpl.
      apply eq_eqm. lia.
  - (* WSend, and the logger panics *)
    split.
    + rewrite unionOf_app. simpl.
      rewrite (unionOf_insert_shrink workerKeys (workers s) i WExited _ (dom res) H)
        by (simpl; set_solver).
      set_solver.
    + intros w. rewrite sumZ_app, (sumZ_insert (workerVal w) _ i _ _ H). simpl.
      apply eq_eqm. lia.
  - (* WExit *)
    split.
    + rewrite (unionOf_insert_grow workerKeys _ i _ WIdle ∅ H) by (simpl; set_solver).
      set_solver.
    + intros w. rewrite (sumZ_insert (workerVal w) _ i _ _ H). simpl.
      apply eq_eqm. lia.
  - (* RRecv *)
    apply bool_decide_eq_true_1 in H2.
    rewrite H1; simpl. split.
    + rewrite (unionOf_insert_grow reducerKeys _ j _ RIdle (dom g) H).
      * set_solver.
      * simpl. rewrite (pendKeys_perm _ _ H2), pendKeys_map_to_list. set_solver.
    + intros w. rewrite (sumZ_insert (reducerVal w) _ j _ _ H). simpl.
      rewrite (pendVal_perm _ _ _ H2), pendVal_map_to_list. apply eq_eqm. lia.
  - (* RAdd *)
    split.
    + rewrite dom_addCount.
      rewrite (unionOf_insert_shrink reducerKeys (reducers s) j (RMerging l) _ {[s0]} H)
        by (simpl; apply pendKeys_cons).
      set_solver.
    + intros w. rewrite (sumZ_insert (reducerVal w) _ j _ _ H). cbn [reducerVal].
      rewrite valAt_addCount, pendVal_cons.
      destruct (decide (s0 = w)).
      * rewrite wrapInt_eqm. apply eq_eqm. lia.
      * apply eq_eqm. lia.
  - (* RNext *)
    split.
    + rewrite (unionOf_insert_grow reducerKeys _ j _ _ ∅ H) by (simpl; set_solver).
      set_solver.
    + intros w. rewrite (sumZ_insert (reducerVal w) _ j _ _ H). simpl.
      apply eq_eqm. unfold pendVal. simpl. lia.
  - (* RExit *)
    split.
    + rewrite (unionOf_insert_grow reducerKeys _ j _ _ ∅ H) by (simpl; set_solver).
      set_solver.
    + intros w. rewrite (sumZ_insert (reducerVal w) _ j _ _ H). simpl.
      apply eq_eqm. lia.
Qed.

Lemma stKeys_init files n : sKeys (init files n) = words files.
Proof.
  unfold stKeys; simpl.
  rewrite (unionOf_empty reducerKeys), (unionOf_empty workerKeys).
  - set_solver.
  - intros i x Hi. apply lookup_replicate in Hi as [-> _]. reflexivity.
  - intros i x Hi. apply lookup_replicate in Hi as [-> _]. reflexivity.
Qed.

Lemma stVal_init files n w : sVal (init files n) w = occ w files.
Proof.
  unfold stVal; simpl.
  rewrite (sumZ_zero (reducerVal w)), (sumZ_zero (workerVal w)).
  - rewrite valAt_empty. lia.
  - intros i x Hi. apply lookup_replicate in Hi as [-> _]. reflexivity.
  - intros i x Hi. apply lookup_replicate in Hi as [-> _]. reflexivity.
Qed.

Lemma conserve_reachable files s :
  reachable (init files cap) s →
  sKeys s = words files ∧ ∀ w, eqm (sVal s w) (occ w files).
Proof.
  intros Hr. pose proof Hr as Hr'. revert s Hr Hr'. apply (rtc_ind_r (λ s, _ → _)).
  - intros _. split; [apply stKeys_init | intros w; rewrite stVal_init; reflexivity].
  - intros y z Hy [a Ha] IH _.
    destruct (IH Hy) as [Hk Hv].
    destruct (conserve_fire a y z (Phase_reachable _ _ _ _ _ _ Hy) Ha) as [Hk' Hv'].
    split; [congruence | intros w; rewrite Hv'; apply Hv].
Qed.

End Conservation.
(** ** Runs in which no worker panics *)

Section DrainedFacts.

Variable letterTable : rune -> bool.
Variable lowerTable : rune -> rune.
Variable fs : string -> fileBehaviour.
Variable cap : nat.

Local Abbreviation fire := (fire letterTable lowerTable fs cap).
Local Abbreviation reachable := (reachable letterTable lowerTable fs cap).
Local Abbreviation tokens := (fileTokens letterTable lowerTable fs).
Local Abbreviation occ := (occurrences letterTable lowerTable fs).
Local Abbreviation words := (wordsOf letterTable lowerTable fs).
Local Abbreviation sVal := (stVal letterTable lowerTable fs).
Local Abbreviation sKeys := (stKeys letterTable lowerTable fs).
Local Abbreviation processItem := (processItem letterTable lowerTable fs).

Lemma panicFree_app l1 l2 :
  panicFree fs (l1 ++ l2) = panicFree fs l1 && panicFree fs l2.
Proof. unfold panicFree. apply forallb_app. Qed.

Lemma panicFree_item fn l :
  panicFree fs (fn :: l) = true →
  fst (processItem fn) ≠ Panic ∧ infoOutcome fs fn = LogReturns.
Proof.
  unfold panicFree, Worker.processItem, infoOutcome. simpl.
  destruct (fs fn) as [|written|pieces [final closeFails [|written]|written|final written]];
    simpl; intros H; split; try discriminate; reflexivity.
Qed.

Lemma Drained_init files n : panicFree fs files = true → Drained fs (init files n).
Proof.
  intros H. split; simpl.
  - exact H.
  - intros i Hi. apply lookup_replicate in Hi as [Hi _]. discriminate.
  - intros i fn res Hi. apply lookup_replicate in Hi as [Hi _]. discriminate.
Qed.

Lemma Drained_fire a s s' :
  Phase cap s → Drained fs s → fire a s = Some s' → Drained fs s'.
Proof.
  intros Hph [Hpf Hex Hsd] Hf.
  pose proof (ph_workClosed _ _ Hph) as Hwc.
  destruct a; fire_inv Hf; split; simpl in *;
    try assumption; try (intros; eapply Hex; eassumption);
    try (intros; eapply Hsd; eassumption).
  - (* OFeed *)
    rewrite <- app_assoc. exact Hpf.
  - intros i Hi. destruct (Hex i Hi) as [_ Hc]. congruence.
  - (* OCloseWork *)
    intros i Hi. destruct (Hex i Hi) as [_ Hc]. congruence.
  - (* WTake *)
    apply andb_true_iff in Hpf. tauto.
  - intros j Hj. apply list_lookup_insert_Some in Hj.
    destruct Hj as [(_ & Hj & _)|(_ & Hj)].
    + exfalso. destruct (panicFree_item s0 _ Hpf) as [Hnp _].
      rewrite H2 in Hnp. simpl in Hnp.
      destruct i0; simpl in Hj; try discriminate. congruence.
    + destruct (Hex j Hj) as [Habs _]. congruence.
  - intros j fn res Hj. apply list_lookup_insert_Some in Hj.
    destruct Hj as [(_ & Hj & _)|(_ & Hj)]; [|eauto].
    destruct (panicFree_item s0 _ Hpf) as [_ Hinfo].
    destruct i0; simpl in Hj; try discriminate. congruence.
  - (* WSend on a closed channel *)
    assert (resultsClosed s = false) by (eapply closed_no_sender; eauto). congruence.
  - assert (resultsClosed s = false) by (eapply closed_no_sender; eauto). congruence.
  - (* WSend *)
    intros j Hj. apply list_lookup_insert_Some in Hj.
    destruct Hj as [(_ & Hj & _)|(_ & Hj)]; [discriminate | eauto].
  - intros j fn' res' Hj. apply list_lookup_insert_Some in Hj.
    destruct Hj as [(_ & Hj & _)|(_ & Hj)]; [discriminate | eauto].
  - (* WSend, and the logger panics *)
    rewrite (Hsd _ _ _ H) in H3. discriminate.
  - rewrite (Hsd _ _ _ H) in H3. discriminate.
  - (* WExit *)
    rewrite H1. exact Hpf.
  - intros j Hj. split; assumption.
  - intros j fn res Hj. apply list_lookup_insert_Some in Hj.
    destruct Hj as [(_ & Hj & _)|(_ & Hj)]; [discriminate | eauto].
Qed.

Lemma Drained_reachable files s :
  panicFree fs files = true → reachable (init files cap) s → Drained fs s.
Proof.
  intros Hpf Hr. pose proof Hr as Hr'. revert s Hr Hr'.
  apply (rtc_ind_r (λ s, _ → _)).
  - intros _. apply Drained_init, Hpf.
  - intros y z Hy [a Ha] IH _.
    eapply Drained_fire; [eapply Phase_reachable, Hy | apply IH, Hy | exact Ha].
Qed.

End DrainedFacts.
(** ** The map [processFiles] returns *)

Section FinalFacts.

Variable letterTable : rune -> bool.
Variable lowerTable : rune -> rune.
Variable fs : string -> fileBehaviour.
Variable cap : nat.

Local Abbreviation fire := (fire letterTable lowerTable fs cap).
Local Abbreviation reachable := (reachable letterTable lowerTable fs cap).
Local Abbreviation tokens := (fileTokens letterTable lowerTable fs).
Local Abbreviation occ := (occurrences letterTable lowerTable fs).
Local Abbreviation words := (wordsOf letterTable lowerTable fs).
Local Abbreviation total := (totalTokens letterTable lowerTable fs).
Local Abbreviation sVal := (stVal letterTable lowerTable fs).
Local Abbreviation sKeys := (stKeys letterTable lowerTable fs).

Lemma occ_nonneg w files : 0 <= occ w files.
Proof. apply sumZ_nonneg. intros fn. apply countIn_nonneg. Qed.

Lemma occ_le_total w files : occ w files <= total files.
Proof. apply sumZ_le. intros fn. apply countIn_le_length. Qed.

Lemma elem_of_words w files : w ∈ words files ↔ 0 < occ w files.
Proof.
  induction files as [|fn files IH].
  - split; [intros H; inversion H | intros H; cbv in H; discriminate].
  - rewrite wordsOf_cons, occurrences_cons, elem_of_union, IH, elem_of_list_to_set.
    rewrite <- countIn_pos_elem.
    pose proof (countIn_nonneg w (tokens fn)). pose proof (occ_nonneg w files).
    lia.
Qed.

Lemma all_exited_nil (ws : list workerState) :
  allExited ws → ws = [] ∨ ws !! 0%nat = Some WExited.
Proof.
  intros H. destruct ws as [|w ws]; [left; reflexivity | right].
  rewrite (H 0%nat w eq_refl). reflexivity.
Qed.

Lemma all_reducers_exited_nil (rs : list reducerState) :
  allReducersExited rs → rs = [] ∨ rs !! 0%nat = Some RExited.
Proof.
  intros H. destruct rs as [|r rs]; [left; reflexivity | right].
  rewrite (H 0%nat r eq_refl). reflexivity.
Qed.

Lemma length_le_0_nil {A} (l : list A) : (length l <= 0)%nat → l = [].
Proof. destruct l; simpl; [reflexivity | lia]. Qed.

(** At the [return], with no panic on the way, nothing is left in the
    channels or in the goroutines: the final map holds everything. *)
Lemma returned_quiescent s :
  Phase cap s → Drained fs s → pc s = Returned →
  workQueue s = [] ∧ partialResults s = []
  ∧ allExited (workers s) ∧ allReducersExited (reducers s).
Proof.
  intros Hph Hdr Hpc.
  assert (allExited (workers s)) as Hw by (apply (ph_joined _ _ Hph); tauto).
  assert (allReducersExited (reducers s)) as Hr by (apply (ph_returned _ _ Hph), Hpc).
  split; [|split; [|split; assumption]].
  - destruct (all_exited_nil _ Hw) as [Hnil|H0].
    + apply length_le_0_nil. pose proof (ph_workQueue _ _ Hph).
      pose proof (ph_workers _ _ Hph) as Hl. rewrite Hnil in Hl. simpl in Hl. lia.
    + apply (dr_exited _ _ Hdr _ H0).
  - destruct (all_reducers_exited_nil _ Hr) as [Hnil|H0].
    + apply length_le_0_nil. pose proof (ph_partialResults _ _ Hph).
      pose proof (ph_reducers _ _ Hph) as Hl. rewrite Hnil in Hl. simpl in Hl. lia.
    + apply (ph_reducerExit _ _ Hph _ H0).
Qed.

Lemma returned_accounts s :
  Phase cap s → Drained fs s → pc s = Returned →
  sKeys s = dom (finalResult s) ∧ ∀ w, sVal s w = valAt (finalResult s) w.
Proof.
  intros Hph Hdr Hpc.
  destruct (returned_quiescent s Hph Hdr Hpc) as (Hwq & Hpr & Hw & Hr).
  unfold stKeys, stVal. rewrite Hwq, Hpr, Hpc. simpl.
  rewrite (unionOf_empty reducerKeys), (unionOf_empty workerKeys).
  - split; [set_solver|]. intros w.
    rewrite (sumZ_zero (reducerVal w)), (sumZ_zero (workerVal w)).
    + unfold occurrences. simpl. lia.
    + intros i x Hi. rewrite (Hw _ _ Hi). reflexivity.
    + intros j x Hj. rewrite (Hr _ _ Hj). reflexivity.
  - intros i x Hi. rewrite (Hw _ _ Hi). reflexivity.
  - intros j x Hj. rewrite (Hr _ _ Hj). reflexivity.
Qed.

(** The returned map holds, for each word, the number of its occurrences
    in the token streams of the files, reduced to Go's [int]; words that
    do not occur are not keys. *)
Lemma finalResult_lookup files s :
  panicFree fs files = true →
  reachable (init files cap) s → pc s = Returned →
  ∀ w, finalResult s !! w
       = if occ w files =? 0 then None else Some (wrapInt (occ w files)).
Proof.
  intros Hpf Hr Hpc w.
  pose proof (Phase_reachable _ _ _ _ _ _ Hr) as Hph.
  pose proof (Drained_reachable _ _ _ _ _ _ Hpf Hr) as Hdr.
  destruct (returned_accounts s Hph Hdr Hpc) as [Hk Hv].
  destruct (conserve_reachable _ _ _ _ _ _ Hr) as [Hk' Hv'].
  rewrite Hk in Hk'. specialize (Hv' w). rewrite Hv in Hv'.
  pose proof (elem_of_words w files) as Hw. rewrite <- Hk', elem_of_dom in Hw.
  pose proof (occ_nonneg w files) as Hnn.
  destruct (Z.eqb_spec (occ w files) 0) as [Hz|Hnz].
  - destruct (finalResult s !! w) eqn:Hl; [|reflexivity].
    exfalso. assert (is_Some (Some z)) as HS by eauto. apply Hw in HS. lia.
  - destruct Hw as [_ Hw]. destruct Hw as [v Hl]; [lia|].
    rewrite Hl. f_equal. apply eqm_in_range.
    + unfold valAt in Hv'. rewrite Hl in Hv'. exact Hv'.
    + apply (ph_intValued _ _ Hph _ _ Hl).
Qed.

Lemma wrapInt_occ files w :
  total files < 2 ^ (intBits - 1) → wrapInt (occ w files) = occ w files.
Proof.
  intros H. apply wrapInt_small. unfold inIntRange.
  pose proof (occ_nonneg w files). pose proof (occ_le_total w files).
  unfold intBits in *. lia.
Qed.

End FinalFacts.
(** ** Termination and absence of deadlock *)

Section LivenessFacts.

Variable letterTable : rune -> bool.
Variable lowerTable : rune -> rune.
Variable fs : string -> fileBehaviour.
Variable cap : nat.

Local Abbreviation fire := (fire letterTable lowerTable fs cap).
Local Abbreviation run := (run letterTable lowerTable fs cap).
Local Abbreviation step := (step letterTable lowerTable fs cap).
Local Abbreviation reachable := (reachable letterTable lowerTable fs cap).
Local Abbreviation mu := (measure letterTable lowerTable fs).
Local Abbreviation weight := (itemWeight letterTable lowerTable fs).
Local Abbreviation processItem := (processItem letterTable lowerTable fs).

Lemma sumNat_app {A} (f : A → nat) l1 l2 :
  sumNat f (l1 ++ l2) = (sumNat f l1 + sumNat f l2)%nat.
Proof. induction l1 as [|x l1 IH]; simpl; [reflexivity | rewrite IH; lia]. Qed.

Lemma sumNat_insert {A} (f : A → nat) l i x y :
  l !! i = Some y → (sumNat f (<[i := x]> l) + f y = sumNat f l + f x)%nat.
Proof.
  revert i. induction l as [|z l IH]; intros [|i] Hi; simpl in *; try discriminate.
  - injection Hi as ->. lia.
  - specialize (IH i Hi). lia.
Qed.

Lemma weight_afterItem fn :
  (workerWeight (afterItem fn (fst (processItem fn))) <= weight fn)%nat.
Proof.
  unfold itemWeight. destruct (fst (processItem fn)); simpl; lia.
Qed.

(** Every action lowers the measure. *)
Lemma measure_fire a s s' : fire a s = Some s' → (mu s' < mu s)%nat.
Proof.
  intros Hf. destruct a; fire_inv Hf; unfold measure; simpl.
  - rewrite H, sumNat_app. simpl. lia.
  - rewrite H. simpl. lia.
  - rewrite H. simpl. lia.
  - rewrite H. simpl. lia.
  - rewrite H. simpl. lia.
  - assert (i0 = fst (processItem s0)) as -> by (rewrite H2; reflexivity).
    pose proof (sumNat_insert workerWeight _ i (afterItem s0 (fst (processItem s0))) _ H).
    pose proof (weight_afterItem s0).
    rewrite H1. simpl in *. lia.
  - pose proof (sumNat_insert workerWeight _ i WExited _ H). simpl in *.
    unfold partialWeight in *. lia.
  - pose proof (sumNat_insert workerWeight _ i WIdle _ H).
    rewrite sumNat_app. simpl in *. lia.
  - pose proof (sumNat_insert workerWeight _ i WExited _ H).
    rewrite sumNat_app. simpl in *. lia.
  - pose proof (sumNat_insert workerWeight _ i WExited _ H). simpl in *. lia.
  - apply bool_decide_eq_true_1 in H2.
    pose proof (sumNat_insert reducerWeight _ j (RMerging order) _ H).
    pose proof (Permutation_length H2) as Hlen.
    rewrite length_map_to_list in Hlen.
    rewrite H1. simpl in *. unfold partialWeight. lia.
  - pose proof (sumNat_insert reducerWeight _ j (RMerging l) _ H). simpl in *. lia.
  - pose proof (sumNat_insert reducerWeight _ j RIdle _ H). simpl in *. lia.
  - pose proof (sumNat_insert reducerWeight _ j RExited _ H). simpl in *. lia.
Qed.

Lemma run_bounded sched : ∀ s s', run sched s = Some s' → (length sched + mu s' <= mu s)%nat.
Proof.
  induction sched as [|a sched IH]; intros s s' Hr; simpl in *.
  - injection Hr as ->. lia.
  - destruct (fire a s) as [s1|] eqn:Hf; [|discriminate].
    specialize (IH _ _ Hr). pose proof (measure_fire _ _ _ Hf). lia.
Qed.

Lemma run_reachable sched : ∀ s s', run sched s = Some s' → reachable s s'.
Proof.
  induction sched as [|a sched IH]; intros s s' Hr; simpl in *.
  - injection Hr as ->. apply rtc_refl.
  - destruct (fire a s) as [s1|] eqn:Hf; [|discriminate].
    eapply rtc_l; [exists a; exact Hf | apply IH, Hr].
Qed.

Lemma reachable_run s s' : reachable s s' → ∃ sched, run sched s = Some s'.
Proof.
  induction 1 as [s|s s1 s' [a Ha] _ [sched IH]].
  - exists []. reflexivity.
  - exists (a :: sched). simpl. rewrite Ha. exact IH.
Qed.

Lemma forallb_false_lookup {A} (p : A → bool) l :
  forallb p l = false → ∃ i x, l !! i = Some x ∧ p x = false.
Proof.
  induction l as [|y l IH]; simpl; [discriminate|].
  destruct (p y) eqn:Hy; simpl.
  - intros H. destruct (IH H) as (i & x & Hi & Hx). exists (S i), x. auto.
  - intros _. exists 0%nat, y. auto.
Qed.

Lemma lookup_0_nonempty {A} (l : list A) :
  (1 <= length l)%nat → ∃ x, l !! 0%nat = Some x.
Proof. destruct l; simpl; [lia | eauto]. Qed.

(** A reducer that has not returned can act as soon as there is a map to
    receive or the results channel is closed. *)
Lemma reducer_can_fire s j r :
  reducers s !! j = Some r → r ≠ RExited →
  partialResults s ≠ [] ∨ resultsClosed s = true →
  ∃ a s', fire a s = Some s'.
Proof.
  intros Hj Hr Hq. destruct r as [|[|[k v] l]|]; [| | |congruence].
  - destruct (partialResults s) as [|res q] eqn:Hp.
    + destruct Hq as [Hq|Hq]; [congruence|].
      exists (RExit j). eexists. simpl. rewrite Hj, Hp, Hq. reflexivity.
    + exists (RRecv j (map_to_list res)). eexists. simpl. rewrite Hj, Hp.
      rewrite bool_decide_eq_true_2 by reflexivity. reflexivity.
  - exists (RNext j). eexists. simpl. rewrite Hj. reflexivity.
  - exists (RAdd j). eexists. simpl. rewrite Hj. reflexivity.
Qed.

(** A worker that has not returned can act, or a reducer can, as soon as
    there is an item to take, the work queue is closed, or the worker
    holds a tally. *)
Lemma worker_can_fire s i w :
  (1 <= cap)%nat → Phase cap s →
  workers s !! i = Some w → w ≠ WExited →
  workQueue s ≠ [] ∨ workClosed s = true →
  ∃ a s', fire a s = Some s'.
Proof.
  intros Hcap Hph Hi Hw Hq. destruct w as [|fn res|]; [| |congruence].
  - destruct (workQueue s) as [|fn q] eqn:Hwq.
    + destruct Hq as [Hq|Hq]; [congruence|].
      exists (WExit i). eexists. simpl. rewrite Hi, Hwq, Hq. reflexivity.
    + exists (WTake i). simpl. rewrite Hi, Hwq.
      destruct (processItem fn) as [r l]. eexists. reflexivity.
  - destruct (Nat.ltb_spec (length (partialResults s)) cap) as [Hlt|Hge].
    + exists (WSend i). simpl. rewrite Hi.
      rewrite (closed_no_sender _ _ _ _ _ Hph Hi).
      apply Nat.ltb_lt in Hlt. rewrite Hlt.
      destruct (infoOutcome fs fn); eexists; reflexivity.
    + destruct (lookup_0_nonempty (reducers s)) as [r Hr].
      { rewrite (ph_reducers _ _ Hph). exact Hcap. }
      assert (partialResults s ≠ []) as Hne.
      { intros Hn. rewrite Hn in Hge. simpl in Hge. lia. }
      apply (reducer_can_fire s 0%nat r Hr); [|left; exact Hne].
      intros ->. destruct (ph_reducerExit _ _ Hph _ Hr) as [Hn _]. congruence.
Qed.

(** [processFiles] does not block before its [return] as long as a
    worker is left whenever the orchestrator finds the work queue full. *)
Lemma progress_with_worker s :
  Phase cap s →
  (∀ fn rest, pc s = Feeding (fn :: rest) → length (workQueue s) = cap →
              ∃ i w, workers s !! i = Some w ∧ w ≠ WExited) →
  pc s ≠ Returned →
  ∃ a s', fire a s = Some s'.
Proof.
  intros Hph Hleft Hpc.
  pose proof (ph_workClosed _ _ Hph) as Hwc.
  assert (∀ i w, workers s !! i = Some w → (1 <= cap)%nat) as Hcap.
  { intros i w Hi. apply lookup_lt_Some in Hi. rewrite (ph_workers _ _ Hph) in Hi. lia. }
  destruct (pc s) as [[|fn rest]| | | |] eqn:Hp; [| | | | |congruence].
  - exists OCloseWork. eexists. simpl. rewrite Hp. reflexivity.
  - destruct (Nat.ltb_spec (length (workQueue s)) cap) as [Hlt|Hge].
    + exists OFeed. eexists. simpl. rewrite Hp.
      apply Nat.ltb_lt in Hlt. rewrite Hlt. reflexivity.
    + pose proof (ph_workQueue _ _ Hph) as Hle.
      destruct (Hleft fn rest eq_refl) as (i & w & Hi & Hw); [lia|].
      apply (worker_can_fire s i w (Hcap _ _ Hi) Hph Hi Hw). left.
      intros Hn. rewrite Hn in Hge. simpl in Hge. pose proof (Hcap _ _ Hi). lia.
  - destruct (forallb (λ w, bool_decide (w = WExited)) (workers s)) eqn:Hall.
    + exists OWorkersDone. eexists. simpl. rewrite Hp, Hall. reflexivity.
    + apply forallb_false_lookup in Hall as (i & w & Hi & Hw).
      apply (worker_can_fire s i w (Hcap _ _ Hi) Hph Hi).
      * intros ->. rewrite bool_decide_eq_true_2 in Hw by reflexivity. discriminate.
      * right. rewrite Hwc. reflexivity.
  - exists OCloseResults. eexists. simpl. rewrite Hp. reflexivity.
  - destruct (forallb (λ r, bool_decide (r = RExited)) (reducers s)) eqn:Hall.
    + exists OReducersDone. eexists. simpl. rewrite Hp, Hall. reflexivity.
    + apply forallb_false_lookup in Hall as (j & r & Hj & Hr).
      apply (reducer_can_fire s j r Hj).
      * intros ->. rewrite bool_decide_eq_true_2 in Hr by reflexivity. discriminate.
      * right. apply (ph_resultsClosed _ _ Hph). left. exact Hp.
Qed.

(** With at least one worker and no panic, [processFiles] never blocks
    before its [return]. *)
Lemma progress s :
  (1 <= cap)%nat → Phase cap s → Drained fs s → pc s ≠ Returned →
  ∃ a s', fire a s = Some s'.
Proof.
  intros Hcap Hph Hdr Hpc. apply progress_with_worker; [exact Hph | | exact Hpc].
  intros fn rest Hp Hfull.
  destruct (lookup_0_nonempty (workers s)) as [w Hw].
  { rewrite (ph_workers _ _ Hph). exact Hcap. }
  exists 0%nat, w. split; [exact Hw|].
  intros ->. destruct (dr_exited _ _ Hdr _ Hw) as [Hn _].
  rewrite Hn in Hfull. simpl in Hfull. lia.
Qed.

(** Total correctness of the run, for a pool of at least one worker and
    files that do not make a worker panic. *)
Lemma processFiles_alwaysReturns files :
  (1 <= cap)%nat → panicFree fs files = true →
  alwaysReturns letterTable lowerTable fs cap (init files cap).
Proof.
  intros Hcap Hpf. split.
  - intros s Hr Hpc. apply progress; try assumption.
    + eapply Phase_reachable, Hr.
    + eapply Drained_reachable; eassumption.
  - intros sched s Hr. pose proof (run_bounded _ _ _ Hr). lia.
Qed.

End LivenessFacts.
(** ** Further facts about runs *)

Section RunFacts.

Variable letterTable : rune -> bool.
Variable lowerTable : rune -> rune.
Variable fs : string -> fileBehaviour.
Variable cap : nat.

Local Abbreviation fire := (fire letterTable lowerTable fs cap).
Local Abbreviation run := (run letterTable lowerTable fs cap).
Local Abbreviation reachable := (reachable letterTable lowerTable fs cap).
Local Abbreviation tokens := (fileTokens letterTable lowerTable fs).
Local Abbreviation occ := (occurrences letterTable lowerTable fs).
Local Abbreviation processItem := (processItem letterTable lowerTable fs).

Lemma tally_lookup l w :
  fold_left incr l ∅ !! w
  = if countIn w l =? 0 then None else Some (wrapInt (countIn w l)).
Proof.
  pose proof (tally_val l ∅ w) as Hv. rewrite valAt_empty, Z.add_0_l in Hv.
  pose proof (tally_dom l ∅) as Hd. rewrite dom_empty_L, union_empty_r_L in Hd.
  pose proof (tally_intValued l ∅ intValued_empty) as Hi.
  pose proof (countIn_pos_elem w l) as Hpos.
  pose proof (countIn_nonneg w l) as Hnn.
  assert (is_Some (fold_left incr l ∅ !! w) ↔ w ∈ l) as Hs.
  { rewrite <- elem_of_dom, Hd, elem_of_list_to_set. reflexivity. }
  destruct (Z.eqb_spec (countIn w l) 0) as [Hz|Hnz].
  - destruct (fold_left incr l ∅ !! w) eqn:Hl; [|reflexivity].
    exfalso. assert (is_Some (Some z)) as HS by eauto.
    apply Hs, Hpos in HS. lia.
  - destruct Hs as [_ Hs]. destruct Hs as [v Hl]; [apply Hpos; lia|].
    rewrite Hl. f_equal. apply eqm_in_range.
    + unfold valAt in Hv. rewrite Hl in Hv. exact Hv.
    + apply (Hi _ _ Hl).
Qed.

Lemma readCleanly_panicFree files :
  readCleanly fs files = true → panicFree fs files = true.
Proof.
  unfold readCleanly, panicFree. rewrite !forallb_forall.
  intros H fn Hfn. specialize (H fn Hfn). unfold faultFree.
  destruct (fs fn) as [|?|? [[] ? []|?|? ?]]; auto.
Qed.

Lemma tokens_not_opened fn : opens fs fn = false → tokens fn = [].
Proof. unfold opens, fileTokens. destruct (fs fn); [reflexivity | reflexivity | discriminate]. Qed.

(** Files that do not open add nothing to any count. *)
Lemma occ_filter_opens w files :
  occ w (filter (λ fn, opens fs fn = true) files) = occ w files.
Proof.
  induction files as [|fn files IH]; [reflexivity|].
  rewrite filter_cons. destruct (opens fs fn) eqn:Ho.
  - rewrite decide_True by reflexivity. rewrite !occurrences_cons, IH. reflexivity.
  - rewrite decide_False by discriminate. rewrite occurrences_cons, IH.
    rewrite (tokens_not_opened fn Ho). rewrite countIn_nil. lia.
Qed.

(** The order of two merge steps does not matter. *)
Lemma addCount_comm fin k1 v1 k2 v2 :
  addCount (addCount fin k1 v1) k2 v2 = addCount (addCount fin k2 v2) k1 v1.
Proof.
  apply map_eq. intros w. unfold addCount.
  destruct (decide (k1 = k2)) as [->|Hne].
  - rewrite !lookup_insert_eq. simpl. rewrite !insert_insert_eq.
    f_equal. f_equal. apply wrapInt_congr. rewrite !wrapInt_eqm.
    apply eq_eqm. lia.
  - rewrite (lookup_insert_ne _ k1 k2) by exact Hne.
    rewrite (lookup_insert_ne _ k2 k1) by congruence.
    destruct (decide (k1 = w)) as [->|H1]; destruct (decide (k2 = w)) as [->|H2];
      try congruence;
      rewrite ?lookup_insert_eq, ?lookup_insert_ne by congruence;
      rewrite ?lookup_insert_eq, ?lookup_insert_ne by congruence; reflexivity.
Qed.

(** A worker that has returned stays returned. *)
Lemma exited_fire a s s' i :
  fire a s = Some s' → workers s !! i = Some WExited → workers s' !! i = Some WExited.
Proof.
  intros Hf Hi. destruct a; fire_inv Hf; simpl; try exact Hi.
  all: destruct (decide (i0 = i)) as [->|Hne];
    [congruence | rewrite list_lookup_insert_ne by exact Hne; exact Hi].
Qed.

Lemma exited_run sched : ∀ s s' i,
  run sched s = Some s' → workers s !! i = Some WExited → workers s' !! i = Some WExited.
Proof.
  induction sched as [|a sched IH]; intros s s' i Hr Hi; simpl in Hr.
  - injection Hr as <-. exact Hi.
  - destruct (fire a s) as [s1|] eqn:Hf; [|discriminate].
    eapply IH; [exact Hr | eapply exited_fire; eassumption].
Qed.


Lemma Quiet_init n : Quiet (init [] n).
Proof.
  split; simpl; try reflexivity.
  - intros i w Hi. apply lookup_replicate in Hi as [-> _]. auto.
  - intros j r Hj. apply lookup_replicate in Hj as [-> _]. auto.
Qed.

Lemma Quiet_fire a s s' : Quiet s → fire a s = Some s' → Quiet s'.
Proof.
  intros [Hf Hq Hr Hfin Hl Hw Hrd] Hfire.
  destruct a; fire_inv Hfire; simpl in *; try congruence.
  all: try (rewrite H in Hf; simpl in Hf; discriminate).
  all: try (destruct (Hw _ _ H); discriminate).
  all: try (destruct (Hrd _ _ H); discriminate).
  all: split; simpl; try assumption; try reflexivity.
  all: try (rewrite H in Hf; exact Hf).
  all: intros k x Hk; apply list_lookup_insert_Some in Hk;
    destruct Hk as [(_ & <- & _)|(_ & Hk)]; eauto.
Qed.

Lemma Quiet_run sched : ∀ s s', Quiet s → run sched s = Some s' → Quiet s'.
Proof.
  induction sched as [|a sched IH]; intros s s' Hq Hr; simpl in Hr.
  - injection Hr as <-. exact Hq.
  - destruct (fire a s) as [s1|] eqn:Hf; [|discriminate].
    eapply IH; [eapply Quiet_fire; eassumption | exact Hr].
Qed.

Lemma Warned_init files n : Warned fs files (init files n).
Proof. intros fn Hfn _. left. simpl. exact Hfn. Qed.

Lemma Warned_fire files a s s' :
  Warned fs files s → fire a s = Some s' → Warned fs files s'.
Proof.
  intros Hw Hf fn Hfn Hopen. specialize (Hw fn Hfn Hopen).
  destruct a; fire_inv Hf; simpl in *; try exact Hw.
  - rewrite <- app_assoc. exact Hw.
  - destruct Hw as [Hw|Hw].
    + apply elem_of_cons in Hw as [->|Hw]; [|left; exact Hw].
      right. unfold Worker.processItem in H2. rewrite Hopen in H2.
      injection H2 as <- <-. apply elem_of_app. right. constructor.
    + right. apply elem_of_app. left. exact Hw.
  - destruct Hw as [Hw|Hw]; [left; exact Hw | right; apply elem_of_app; left; exact Hw].
  - destruct Hw as [Hw|Hw]; [left; exact Hw | right; apply elem_of_app; left; exact Hw].
  - destruct Hw as [Hw|Hw]; [left; exact Hw | right; apply elem_of_app; left; exact Hw].
  - rewrite H1. exact Hw.
Qed.

Lemma Warned_run files sched : ∀ s s',
  Warned fs files s → run sched s = Some s' → Warned fs files s'.
Proof.
  induction sched as [|a sched IH]; intros s s' Hq Hr; simpl in Hr.
  - injection Hr as <-. exact Hq.
  - destruct (fire a s) as [s1|] eqn:Hf; [|discriminate].
    eapply IH; [eapply Warned_fire; eassumption | exact Hr].
Qed.

(** With no file to feed, the run cannot block either, whatever the
    size of the pool. *)
Lemma progress_fed s :
  Phase cap s → Drained fs s → pcFiles (pc s) = [] → pc s ≠ Returned →
  ∃ a s', fire a s = Some s'.
Proof.
  intros Hph Hdr Hfiles Hpc.
  destruct (Nat.le_gt_cases 1 cap) as [Hcap|Hcap].
  - eapply progress; eassumption.
  - assert (cap = 0%nat) as Hz by lia.
    assert (workers s = []) as Hw.
    { apply length_zero_iff_nil. rewrite (ph_workers _ _ Hph). exact Hz. }
    assert (reducers s = []) as Hr.
    { apply length_zero_iff_nil. rewrite (ph_reducers _ _ Hph). exact Hz. }
    destruct (pc s) as [[|fn rest]| | | |] eqn:Hp; try congruence.
    + exists OCloseWork. eexists. simpl. rewrite Hp. reflexivity.
    + simpl in Hfiles. discriminate.
    + exists OWorkersDone. eexists. simpl. rewrite Hp, Hw. reflexivity.
    + exists OCloseResults. eexists. simpl. rewrite Hp. reflexivity.
    + exists OReducersDone. eexists. simpl. rewrite Hp, Hr. reflexivity.
Qed.

Lemma empty_alwaysReturns :
  alwaysReturns letterTable lowerTable fs cap (init [] cap).
Proof.
  split.
  - intros s Hr Hpc. apply progress_fed; try assumption.
    + eapply Phase_reachable, Hr.
    + apply (Drained_reachable _ _ _ _ [] s eq_refl Hr).
    + destruct (reachable_run _ _ _ _ _ _ Hr) as [sched Hs].
      apply (q_files _ (Quiet_run sched _ _ (Quiet_init cap) Hs)).
  - intros sched s Hr. pose proof (run_bounded _ _ _ _ _ _ _ Hr). lia.
Qed.

(** A pool of size zero given a file blocks on the first send. *)
Lemma zero_pool_stuck fn rest a :
  Pipeline.fire letterTable lowerTable fs 0 a (init (fn :: rest) 0) = None.
Proof. destruct a; reflexivity. Qed.

(** The final map of any schedule over files that do not panic. *)
Lemma run_final_lookup files sched s :
  panicFree fs files = true →
  run sched (init files cap) = Some s → pc s = Returned →
  returned s = Some (finalResult s, None)
  ∧ ∀ w, finalResult s !! w
         = if occ w files =? 0 then None else Some (wrapInt (occ w files)).
Proof.
  intros Hpf Hrun Hpc. split.
  - unfold returned. rewrite Hpc. reflexivity.
  - apply (finalResult_lookup letterTable lowerTable fs cap files s Hpf).
    + eapply run_reachable, Hrun.
    + exact Hpc.
Qed.

Lemma length_tokens_le_total fn files :
  fn ∈ files →
  Z.of_nat (length (tokens fn)) <= totalTokens letterTable lowerTable fs files.
Proof.
  induction files as [|f fl IH]; intros Hfn; [inversion Hfn|].
  unfold totalTokens in *. simpl.
  assert (0 <= sumZ (λ fn, Z.of_nat (length (tokens fn))) fl) as Hnn.
  { apply sumZ_nonneg. intros x. lia. }
  apply elem_of_cons in Hfn as [->|Hfn]; [lia|].
  specialize (IH Hfn). lia.
Qed.

End RunFacts.
(** ** Counts stay positive and within the range of [int] *)

Section AccountFacts.

Variable letterTable : rune -> bool.
Variable lowerTable : rune -> rune.
Variable fs : string -> fileBehaviour.
Variable cap : nat.
Variable files : list string.

Local Abbreviation run := (run letterTable lowerTable fs cap).
Local Abbreviation occ := (occurrences letterTable lowerTable fs).

Lemma sumZ_nonneg_lookup {A} (f : A → Z) l :
  (∀ i x, l !! i = Some x → 0 <= f x) → 0 <= sumZ f l.
Proof.
  induction l as [|z l IH]; intros H; simpl; [lia|].
  pose proof (H 0%nat z eq_refl).
  assert (0 <= sumZ f l) by (apply IH; intros i x Hi; apply (H (S i) x Hi)).
  lia.
Qed.

Lemma sumZ_lookup_le {A} (f : A → Z) l j y :
  (∀ i x, l !! i = Some x → 0 <= f x) → l !! j = Some y → f y <= sumZ f l.
Proof.
  revert j. induction l as [|z l IH]; intros [|j] H Hj; simpl in *; try discriminate.
  - injection Hj as ->.
    assert (0 <= sumZ f l)
      by (apply sumZ_nonneg_lookup; intros i x Hi; apply (H (S i) x Hi)).
    lia.
  - pose proof (H 0%nat z eq_refl).
    assert (f y <= sumZ f l) by (apply (IH j); [intros i x Hi; apply (H (S i) x Hi) | exact Hj]).
    lia.
Qed.

Lemma valAt_nonneg (m : gmap string Z) w :
  (∀ c, m !! w = Some c → 1 <= c) → 0 <= valAt m w.
Proof.
  intros H. unfold valAt. destruct (m !! w) as [c|]; simpl; [|lia].
  specialize (H c eq_refl). lia.
Qed.

Lemma pendVal_nonneg w l :
  (∀ k v, (k, v) ∈ l → 1 <= v) → 0 <= pendVal w l.
Proof.
  induction l as [|[k v] l IH]; intros H; [cbv; discriminate|].
  rewrite pendVal_cons.
  assert (1 <= v) by (apply (H k); constructor).
  assert (0 <= pendVal w l) by (apply IH; intros k' v' Hkv; apply (H k'); constructor; exact Hkv).
  destruct (decide (k = w)); lia.
Qed.

(** A word that occurs in no file is never a key of the final map. *)
Lemma absent_word_no_key sched s w :
  run sched (init files cap) = Some s → occ w files = 0 → finalResult s !! w = None.
Proof.
  intros Hrun Hz.
  destruct (conserve_reachable letterTable lowerTable fs cap files s
              (run_reachable _ _ _ _ _ _ _ Hrun)) as [Hk _].
  apply not_elem_of_dom. intros Hd.
  assert (w ∈ wordsOf letterTable lowerTable fs files) as Hw.
  { rewrite <- Hk. unfold stKeys. set_solver. }
  apply elem_of_words in Hw. lia.
Qed.

End AccountFacts.

Section BoundedFacts.

Variable letterTable : rune -> bool.
Variable lowerTable : rune -> rune.
Variable fs : string -> fileBehaviour.
Variable cap : nat.
Variable files : list string.

Hypothesis total_in_range :
  totalTokens letterTable lowerTable fs files < 2 ^ (intBits - 1).

Local Abbreviation fire := (fire letterTable lowerTable fs cap).
Local Abbreviation run := (run letterTable lowerTable fs cap).
Local Abbreviation tokens := (fileTokens letterTable lowerTable fs).
Local Abbreviation occ := (occurrences letterTable lowerTable fs).
Local Abbreviation sVal := (stVal letterTable lowerTable fs).
Local Abbreviation processItem := (processItem letterTable lowerTable fs).
Local Abbreviation Bounded := (Bounded letterTable lowerTable fs files).

(** The parts of the account are never negative. *)
Lemma Bounded_parts s w :
  Bounded s →
  0 <= valAt (finalResult s) w
  ∧ (∀ j r, reducers s !! j = Some r → 0 <= reducerVal w r)
  ∧ (∀ i m, partialResults s !! i = Some m → 0 <= valAt m w)
  ∧ (∀ i x, workers s !! i = Some x → 0 <= workerVal w x)
  ∧ 0 <= occ w (workQueue s ++ pcFiles (pc s)).
Proof.
  intros [Hf Hr Hp Hw _]. split; [|split; [|split; [|split]]].
  - apply valAt_nonneg. intros c. apply Hf.
  - intros j r Hj. destruct r as [|l|]; simpl; try lia.
    apply pendVal_nonneg. intros k v. apply (Hr j l k v Hj).
  - intros i m Hi. apply valAt_nonneg. intros c. apply (Hp m w c).
    apply list_elem_of_lookup. eauto.
  - intros i x Hi. destruct x as [|fn res|]; simpl; try lia.
    apply valAt_nonneg. intros c. apply (Hw i fn res w c Hi).
  - apply occ_nonneg.
Qed.

Lemma occ_le_range w : occ w files < 2 ^ (intBits - 1).
Proof.
  pose proof (occ_le_total letterTable lowerTable fs w files). lia.
Qed.

(** A tally whose counts fit in an [int] holds the exact counts. *)
Lemma tally_exact l w :
  countIn w l < 2 ^ (intBits - 1) →
  valAt (fold_left incr l ∅) w = countIn w l
  ∧ ∀ c, fold_left incr l ∅ !! w = Some c → 1 <= c.
Proof.
  intros Hlt. pose proof (countIn_nonneg w l) as Hnn.
  assert (wrapInt (countIn w l) = countIn w l) as Hwrap.
  { apply wrapInt_small. unfold inIntRange. unfold intBits in *. lia. }
  unfold valAt. rewrite tally_lookup.
  destruct (Z.eqb_spec (countIn w l) 0) as [Hz|Hnz]; simpl.
  - split; [lia | discriminate].
  - rewrite Hwrap. split; [reflexivity|]. intros c [= <-]. lia.
Qed.

Lemma Bounded_init n : Bounded (init files n).
Proof.
  split; simpl.
  - intros w c H. rewrite lookup_empty in H. discriminate.
  - intros j l k v H. apply lookup_replicate in H as [H _]. discriminate.
  - intros m w c H. inversion H.
  - intros i fn res w c H. apply lookup_replicate in H as [H _]. discriminate.
  - intros w. rewrite stVal_init. lia.
Qed.

Lemma afterItem_val_exact fn w :
  countIn w (tokens fn) < 2 ^ (intBits - 1) →
  workerVal w (afterItem fn (fst (processItem fn))) = countIn w (tokens fn)
  ∧ ∀ res c, afterItem fn (fst (processItem fn)) = WSending fn res →
             res !! w = Some c → 1 <= c.
Proof.
  unfold Worker.processItem, fileTokens.
  destruct (fs fn) as [|written|pieces [final closeFails info|written|final written]];
    simpl; try (intros _; split; [reflexivity | discriminate]).
  intros Hlt. rewrite readLoop_tokens.
  destruct (tally_exact _ w Hlt) as [Hv Hp].
  split; [exact Hv|]. intros res c [= <-]. apply Hp.
Qed.

(** While the counts fit in an [int], no action changes the account of a
    word, now without reduction modulo [2 ^ intBits]. *)
Lemma stVal_fire_exact a s s' w :
  Phase cap s → Bounded s → fire a s = Some s' → sVal s' w = sVal s w.
Proof.
  intros Hph Hbd Hf.
  destruct (Bounded_parts s w Hbd) as (Hfin & Hred & Hpar & Hwrk & Hocc).
  pose proof (bd_sum _ _ _ _ _ Hbd w) as Hsum.
  pose proof (occ_le_range w) as Hrange.
  assert (0 <= sumZ (reducerVal w) (reducers s)) as Hr0
    by (apply sumZ_nonneg_lookup, Hred).
  assert (0 <= sumZ (λ m, valAt m w) (partialResults s)) as Hp0
    by (apply sumZ_nonneg_lookup, Hpar).
  assert (0 <= sumZ (workerVal w) (workers s)) as Hw0
    by (apply sumZ_nonneg_lookup, Hwrk).
  unfold stVal in Hsum.
  destruct a; fire_inv Hf; unfold stVal; simpl.
  - rewrite H; simpl. rewrite <- app_assoc; reflexivity.
  - rewrite H; reflexivity.
  - rewrite H; reflexivity.
  - rewrite H; reflexivity.
  - rewrite H; reflexivity.
  - (* WTake *)
    assert (i0 = fst (processItem s0)) as -> by (rewrite H2; reflexivity).
    rewrite H1, <- app_comm_cons in *.
    rewrite (sumZ_insert (workerVal w) _ i _ WIdle H).
    rewrite occurrences_cons in *.
    pose proof (countIn_nonneg w (tokens s0)).
    pose proof (occ_nonneg letterTable lowerTable fs w (l ++ pcFiles (pc s))).
    destruct (afterItem_val_exact s0 w) as [-> _]; [lia|]. simpl. lia.
  - (* WSend on a closed channel *)
    rewrite (closed_no_sender _ _ _ _ _ Hph H) in H1. discriminate.
  - rewrite sumZ_app, (sumZ_insert (workerVal w) _ i _ _ H). simpl. lia.
  - rewrite sumZ_app, (sumZ_insert (workerVal w) _ i _ _ H). simpl. lia.
  - rewrite (sumZ_insert (workerVal w) _ i _ _ H). simpl. lia.
  - (* RRecv *)
    apply bool_decide_eq_true_1 in H2.
    rewrite H1; simpl. rewrite (sumZ_insert (reducerVal w) _ j _ _ H). simpl.
    rewrite (pendVal_perm _ _ _ H2), pendVal_map_to_list. lia.
  - (* RAdd *)
    rewrite (sumZ_insert (reducerVal w) _ j _ _ H). cbn [reducerVal].
    rewrite valAt_addCount, pendVal_cons.
    destruct (decide (s0 = w)) as [->|Hne]; [|lia].
    assert (1 <= z) as Hz.
    { apply (bd_reducers _ _ _ _ _ Hbd j _ w z H). constructor. }
    assert (0 <= pendVal w l) as Hl.
    { apply pendVal_nonneg. intros k v Hkv.
      apply (bd_reducers _ _ _ _ _ Hbd j _ k v H). constructor. exact Hkv. }
    pose proof (sumZ_lookup_le (reducerVal w) _ j _ Hred H) as Hle.
    cbn [reducerVal] in Hle. rewrite pendVal_cons in Hle.
    rewrite decide_True in Hle by reflexivity.
    rewrite wrapInt_small; [lia|].
    unfold inIntRange. unfold intBits in *. lia.
  - rewrite (sumZ_insert (reducerVal w) _ j _ _ H). simpl.
    unfold pendVal. simpl. lia.
  - rewrite (sumZ_insert (reducerVal w) _ j _ _ H). simpl. lia.
Qed.

(** The file at the head of the work queue cannot overflow a count. *)
Lemma head_item_in_range s fn q w :
  Bounded s → workQueue s = fn :: q → countIn w (tokens fn) < 2 ^ (intBits - 1).
Proof.
  intros Hbd Hq.
  destruct (Bounded_parts s w Hbd) as (Hfin & Hred & Hpar & Hwrk & Hocc).
  pose proof (bd_sum _ _ _ _ _ Hbd w) as Hsum.
  pose proof (occ_le_range w) as Hrange.
  assert (0 <= sumZ (reducerVal w) (reducers s)) as Hr0
    by (apply sumZ_nonneg_lookup, Hred).
  assert (0 <= sumZ (λ m, valAt m w) (partialResults s)) as Hp0
    by (apply sumZ_nonneg_lookup, Hpar).
  assert (0 <= sumZ (workerVal w) (workers s)) as Hw0
    by (apply sumZ_nonneg_lookup, Hwrk).
  unfold stVal in Hsum. rewrite Hq, <- app_comm_cons, occurrences_cons in Hsum.
  pose proof (occ_nonneg letterTable lowerTable fs w (q ++ pcFiles (pc s))).
  lia.
Qed.

(** The addition a reducer is about to make cannot overflow. *)
Lemma merge_in_range s j k v l :
  Bounded s → reducers s !! j = Some (RMerging ((k, v) :: l)) →
  wrapInt (valAt (finalResult s) k + v) = valAt (finalResult s) k + v
  ∧ 1 <= valAt (finalResult s) k + v.
Proof.
  intros Hbd Hj.
  destruct (Bounded_parts s k Hbd) as (Hfin & Hred & Hpar & Hwrk & Hocc).
  pose proof (bd_sum _ _ _ _ _ Hbd k) as Hsum.
  pose proof (occ_le_range k) as Hrange.
  assert (0 <= sumZ (λ m, valAt m k) (partialResults s)) as Hp0
    by (apply sumZ_nonneg_lookup, Hpar).
  assert (0 <= sumZ (workerVal k) (workers s)) as Hw0
    by (apply sumZ_nonneg_lookup, Hwrk).
  assert (1 <= v) as Hv.
  { apply (bd_reducers _ _ _ _ _ Hbd j _ k v Hj). constructor. }
  assert (0 <= pendVal k l) as Hl.
  { apply pendVal_nonneg. intros k' v' Hkv.
    apply (bd_reducers _ _ _ _ _ Hbd j _ k' v' Hj). constructor. exact Hkv. }
  pose proof (sumZ_lookup_le (reducerVal k) _ j _ Hred Hj) as Hle.
  cbn [reducerVal] in Hle. rewrite pendVal_cons in Hle.
  rewrite decide_True in Hle by reflexivity.
  unfold stVal in Hsum.
  split; [|lia]. apply wrapInt_small. unfold inIntRange. unfold intBits in *. lia.
Qed.

Ltac insert_other H :=
  apply list_lookup_insert_Some in H;
  destruct H as [(_ & H & _)|(_ & H)]; [try discriminate H | eauto].

Lemma Bounded_fire a s s' :
  Phase cap s → Bounded s → fire a s = Some s' → Bounded s'.
Proof.
  intros Hph Hbd Hf.
  assert (∀ w, sVal s' w <= occ w files) as Hsum'.
  { intros w. rewrite (stVal_fire_exact a s s' w Hph Hbd Hf).
    apply (bd_sum _ _ _ _ _ Hbd). }
  pose proof Hbd as [Hfin Hred Hpar Hwrk Hsum].
  destruct a; fire_inv Hf; split; simpl in *; try assumption.
  - (* WTake *)
    intros i1 fn res w c Hl Hc. insert_other Hl.
    assert (i0 = fst (processItem s0)) as -> by (rewrite H2; reflexivity).
    destruct (afterItem_val_exact s0 w (head_item_in_range s s0 l w Hbd H1))
      as [_ Hpos].
    assert (fn = s0) as ->.
    { destruct (fst (processItem s0)); simpl in Hl; congruence. }
    eapply Hpos; eassumption.
  - (* WSend on a closed channel *)
    intros i1 fn1 res1 w c Hl Hc. insert_other Hl.
  - (* WSend *)
    intros m w c Hm Hc. apply elem_of_app in Hm as [Hm|Hm]; [eauto|].
    apply list_elem_of_singleton in Hm as ->. eauto.
  - intros i1 fn1 res1 w c Hl Hc. insert_other Hl.
  - (* WSend, and the logger panics *)
    intros m w c Hm Hc. apply elem_of_app in Hm as [Hm|Hm]; [eauto|].
    apply list_elem_of_singleton in Hm as ->. eauto.
  - intros i1 fn1 res1 w c Hl Hc. insert_other Hl.
  - (* WExit *)
    intros i1 fn1 res1 w c Hl Hc. insert_other Hl.
  - (* RRecv *)
    apply bool_decide_eq_true_1 in H2.
    intros j0 l0 k v Hl Hkv. insert_other Hl. injection Hl as <-.
    rewrite H2 in Hkv. apply elem_of_map_to_list in Hkv.
    apply (Hpar g k v); [rewrite ?H1; constructor | exact Hkv].
  - intros m w c Hm Hc. apply (Hpar m w c); [|exact Hc].
    rewrite ?H1. constructor. exact Hm.
  - (* RAdd *)
    intros w c Hc. unfold addCount in Hc. rewrite lookup_insert in Hc.
    destruct (decide (s0 = w)) as [->|Hne]; [|eauto].
    injection Hc as <-.
    destruct (merge_in_range s j w z l Hbd H) as [Hwrap Hpos].
    fold (valAt (finalResult s) w). rewrite Hwrap. exact Hpos.
  - intros j0 l0 k v Hl Hkv. insert_other Hl. injection Hl as <-.
    apply (Hred j _ k v H). constructor. exact Hkv.
  - (* RNext *)
    intros j0 l0 k v Hl Hkv. insert_other Hl.
  - (* RExit *)
    intros j0 l0 k v Hl Hkv. insert_other Hl.
  - intros m w c Hm Hc. rewrite ?H1 in Hm. eauto.
Qed.

Lemma Bounded_run sched : ∀ s s',
  Phase cap s → Bounded s → run sched s = Some s' → Bounded s'.
Proof.
  induction sched as [|a sched IH]; intros s s' Hph Hbd Hr; simpl in Hr.
  - injection Hr as <-. exact Hbd.
  - destruct (fire a s) as [s1|] eqn:Hf; [|discriminate].
    eapply IH; [eapply Phase_fire | eapply Bounded_fire | exact Hr]; eassumption.
Qed.

End BoundedFacts.
(** ** Merging tallies and the order of the files *)

Section OrderFacts.

Variable letterTable : rune -> bool.
Variable lowerTable : rune -> rune.
Variable fs : string -> fileBehaviour.

Local Abbreviation occ := (occurrences letterTable lowerTable fs).
Local Abbreviation tokens := (fileTokens letterTable lowerTable fs).

Lemma panicFree_perm l l' : l ≡ₚ l' → panicFree fs l = panicFree fs l'.
Proof.
  unfold panicFree. induction 1 as [|x l l' _ IH|x y l|l l' l'' _ IH1 _ IH2]; simpl;
    try congruence.
  destruct (faultFree (fs x)), (faultFree (fs y)); reflexivity.
Qed.

Lemma occurrences_perm w l l' : l ≡ₚ l' → occ w l = occ w l'.
Proof. apply sumZ_perm. Qed.

Lemma valAt_final files cap s w :
  panicFree fs files = true →
  reachable letterTable lowerTable fs cap (init files cap) s → pc s = Returned →
  valAt (finalResult s) w = wrapInt (occ w files).
Proof.
  intros Hpf Hr Hpc. unfold valAt.
  rewrite (finalResult_lookup letterTable lowerTable fs cap files s Hpf Hr Hpc).
  destruct (Z.eqb_spec (occ w files) 0) as [->|]; reflexivity.
Qed.

Lemma mergeTally_lookup order : ∀ fin w,
  NoDup order.*1 →
  mergeTally fin order !! w
  = match (list_to_map order : gmap string Z) !! w with
    | Some v => Some (wrapInt (valAt fin w + v))
    | None => fin !! w
    end.
Proof.
  induction order as [|[k v] order IH]; intros fin w Hnd.
  - simpl. rewrite lookup_empty. reflexivity.
  - rewrite fmap_cons in Hnd. apply NoDup_cons in Hnd as [Hk Hnd].
    change (mergeTally fin ((k, v) :: order)) with (mergeTally (addCount fin k v) order).
    rewrite IH by exact Hnd. rewrite list_to_map_cons.
    destruct (decide (k = w)) as [->|Hne].
    + rewrite lookup_insert_eq.
      assert ((list_to_map order : gmap string Z) !! w = None) as ->.
      { apply not_elem_of_list_to_map_1, Hk. }
      unfold addCount. rewrite lookup_insert_eq. reflexivity.
    + rewrite lookup_insert_ne by exact Hne.
      rewrite valAt_addCount. destruct (decide (k = w)); [congruence|].
      unfold addCount. rewrite lookup_insert_ne by exact Hne. reflexivity.
Qed.

Lemma mergeTally_map_to_list fin (res : gmap string Z) w :
  mergeTally fin (map_to_list res) !! w
  = match res !! w with
    | Some v => Some (wrapInt (valAt fin w + v))
    | None => fin !! w
    end.
Proof.
  rewrite mergeTally_lookup by apply NoDup_fst_map_to_list.
  rewrite list_to_map_to_list. reflexivity.
Qed.

End OrderFacts.
(** ** The allocation of the channels *)

Lemma start_Some maxAlloc hchanSize files maxWorkers s0 :
  start maxAlloc hchanSize files maxWorkers = Some s0 →
  s0 = init files (Z.to_nat maxWorkers).
Proof.
  unfold start.
  destruct (makechan maxAlloc hchanSize 8 maxWorkers); [|discriminate].
  destruct (makechan maxAlloc hchanSize 16 maxWorkers); [|discriminate].
  intros [= <-]. reflexivity.
Qed.

Section StartFacts.

Variable maxAlloc : Z.
Variable hchanSize : Z.
Hypothesis runtime_constants : 0 <= hchanSize <= maxAlloc ∧ maxAlloc < 2 ^ 64.

Lemma lor_small a b : 0 <= a → 0 <= b → Z.lor a b < 2 ^ 32 → a < 2 ^ 32 ∧ b < 2 ^ 32.
Proof.
  intros Ha Hb H.
  assert (∀ x, 0 <= x → Z.log2 x < 32 → x < 2 ^ 32) as Hlog.
  { intros x Hx Hl. destruct (Z.eq_dec x 0) as [->|Hne]; [lia|].
    apply Z.log2_lt_pow2; lia. }
  assert (Z.log2 (Z.lor a b) < 32) as Hl.
  { destruct (Z.eq_dec (Z.lor a b) 0) as [->|Hne]; [simpl; lia|].
    apply Z.log2_lt_pow2; [|exact H].
    pose proof (proj2 (Z.lor_nonneg a b) (conj Ha Hb)). lia. }
  rewrite Z.log2_lor in Hl by assumption.
  split; apply Hlog; lia.
Qed.

(** [math.MulUintptr] reports an overflow exactly when the product does
    not fit in a [uintptr]. *)
Lemma MulUintptr_spec a b :
  0 <= a < 2 ^ 64 → 0 <= b < 2 ^ 64 →
  MulUintptr a b = ((a * b) mod 2 ^ 64, 2 ^ 64 <=? a * b).
Proof.
  intros Ha Hb. unfold MulUintptr, MaxUintptr.
  destruct (Z.ltb_spec (Z.lor a b) (2 ^ 32)) as [Hs|Hs]; simpl.
  - destruct (lor_small a b) as [Ha' Hb']; try lia.
    f_equal. symmetry. apply Z.leb_gt.
    change (2 ^ 64) with (2 ^ 32 * 2 ^ 32). nia.
  - destruct (Z.eqb_spec a 0) as [->|Hne].
    + f_equal.
    + f_equal.
      assert (0 < a) as Hpos by lia.
      pose proof (Z.div_mod (2 ^ 64 - 1) a ltac:(lia)) as Hdm.
      pose proof (Z.mod_pos_bound (2 ^ 64 - 1) a Hpos) as Hmb.
      destruct (Z.ltb_spec ((2 ^ 64 - 1) / a) b) as [Hlt|Hge];
        destruct (Z.leb_spec (2 ^ 64) (a * b)) as [Hle|Hgt]; try reflexivity; exfalso; nia.
Qed.

(** The sizes for which a channel can be made. *)
Lemma makechan_spec elemSize size :
  0 <= elemSize < 2 ^ 16 → - 2 ^ 63 <= size < 2 ^ 63 →
  makechan maxAlloc hchanSize elemSize size
  = if (0 <=? size) && (elemSize * size <=? maxAlloc - hchanSize)
    then Some (elemSize * size) else None.
Proof.
  intros He Hs. unfold makechan.
  destruct (Z.leb_spec 0 size) as [Hpos|Hneg]; simpl.
  - rewrite Z.mod_small by lia.
    rewrite MulUintptr_spec by lia.
    assert ((size <? 0) = false) as -> by (apply Z.ltb_ge; lia).
    rewrite orb_false_r.
    destruct (Z.leb_spec (2 ^ 64) (elemSize * size)) as [Hov|Hfit]; simpl.
    + destruct (Z.leb_spec (elemSize * size) (maxAlloc - hchanSize)); [lia | reflexivity].
    + rewrite Z.mod_small by nia.
      destruct (Z.leb_spec (elemSize * size) (maxAlloc - hchanSize));
        destruct (Z.ltb_spec (maxAlloc - hchanSize) (elemSize * size)); try lia; reflexivity.
  - assert ((size <? 0) = true) as Hn by (apply Z.ltb_lt; lia).
    destruct (MulUintptr elemSize (size mod 2 ^ 64)) as [mem overflow].
    rewrite Hn, orb_true_r. reflexivity.
Qed.

(** [processFiles] gets as far as its feeding loop exactly for the pool
    sizes from zero up to the largest for which the work queue, the
    larger of its two channels, can be made. *)
Lemma start_spec files maxWorkers :
  - 2 ^ 63 <= maxWorkers < 2 ^ 63 →
  start maxAlloc hchanSize files maxWorkers
  = if (0 <=? maxWorkers) && (16 * maxWorkers <=? maxAlloc - hchanSize)
    then Some (init files (Z.to_nat maxWorkers)) else None.
Proof.
  intros Hs. unfold start.
  rewrite !makechan_spec by lia.
  destruct (Z.leb_spec 0 maxWorkers) as [Hpos|Hneg]; simpl; [|reflexivity].
  destruct (Z.leb_spec (16 * maxWorkers) (maxAlloc - hchanSize)) as [H16|H16];
    destruct (Z.leb_spec (8 * maxWorkers) (maxAlloc - hchanSize)) as [H8|H8];
    try reflexivity; lia.
Qed.

End StartFacts.
(** ** A worker that meets a fault *)

Section FaultFacts.

Variable letterTable : rune -> bool.
Variable lowerTable : rune -> rune.
Variable fs : string -> fileBehaviour.
Variable cap : nat.

Local Abbreviation fire := (fire letterTable lowerTable fs cap).
Local Abbreviation run := (run letterTable lowerTable fs cap).
Local Abbreviation processItem := (processItem letterTable lowerTable fs).

(** An item during which the logger panics ends in a panic before the
    send, or with a tally whose line in the log will not be written
    without one. *)
Lemma faulty_item fn :
  faultFree (fs fn) = false →
  (∃ lines, processItem fn = (Panic, lines ++ [ErrorPanic]))
  ∨ (∃ res lines, processItem fn = (Emit res, lines)
                  ∧ infoOutcome fs fn ≠ LogReturns).
Proof.
  unfold Worker.processItem, infoOutcome, faultFree.
  destruct (fs fn) as [|written|pieces [final closeFails [|w]|written|final written]];
    intros H; try discriminate.
  - left. eexists. reflexivity.
  - right. eexists _, _. split; [reflexivity | discriminate].
  - left. eexists. reflexivity.
  - left. exists (readWarning fn final ++ ifWritten written (WarnClose fn)).
    rewrite <- app_assoc. reflexivity.
Qed.

Lemma Doomed_fire i fn a s s' :
  Doomed fs i fn s → fire a s = Some s' → Doomed fs i fn s'.
Proof.
  intros Hd Hf. unfold Doomed in *.
  assert (∀ l, ErrorPanic ∈ logs s → ErrorPanic ∈ logs s ++ l) as Hmore.
  { intros l H. apply elem_of_app. left. exact H. }
  assert (∀ l, ErrorPanic ∈ l ++ [ErrorPanic]) as Hlast.
  { intros l. apply elem_of_app. right. constructor. }
  destruct a; fire_inv Hf; simpl; try exact Hd.
  all: destruct (decide (i0 = i)) as [->|Hne];
    [ destruct Hd as [[Hi _]|(res' & Hi & Hout)]; try congruence
    | rewrite list_lookup_insert_ne by exact Hne;
      destruct Hd as [[Hi Hl]|Hd];
      [left; split; [exact Hi | first [exact Hl | apply Hmore, Hl]] | right; exact Hd] ].
  all: try (left; split;
            [ apply list_lookup_insert_eq; eapply lookup_lt_Some; eassumption
            | rewrite ?app_assoc; first [apply Hlast | apply elem_of_app; right; constructor] ]).
  all: try (exfalso; assert (fn0 = fn) as -> by congruence; congruence).
Qed.

Lemma Doomed_run i fn sched : ∀ s s',
  Doomed fs i fn s → run sched s = Some s' → Doomed fs i fn s'.
Proof.
  induction sched as [|a sched IH]; intros s s' Hd Hr; simpl in Hr.
  - injection Hr as <-. exact Hd.
  - destruct (fire a s) as [s1|] eqn:Hf; [|discriminate].
    eapply IH; [eapply Doomed_fire; eassumption | exact Hr].
Qed.

End FaultFacts.
(** ** What the log holds *)

Section LogFacts.

Variable letterTable : rune -> bool.
Variable lowerTable : rune -> rune.
Variable fs : string -> fileBehaviour.
Variable cap : nat.

Local Abbreviation fire := (fire letterTable lowerTable fs cap).
Local Abbreviation run := (run letterTable lowerTable fs cap).
Local Abbreviation processItem := (processItem letterTable lowerTable fs).

Lemma flat_map_insert_perm {A B} (f : A → list B) l i x y :
  l !! i = Some y → flat_map f (<[i := x]> l) ++ f y ≡ₚ f x ++ flat_map f l.
Proof.
  revert i. induction l as [|z l IH]; intros [|i] Hi; simpl in *; try discriminate.
  - injection Hi as ->. rewrite <- app_assoc.
    apply Permutation_app_head, Permutation_app_comm.
  - rewrite <- app_assoc, (IH i Hi). rewrite !app_assoc.
    apply Permutation_app_tail, Permutation_app_comm.
Qed.

Lemma item_logs fn :
  snd (processItem fn) ++ heldLogs fs (afterItem fn (fst (processItem fn)))
  = fileLogs fs fn.
Proof.
  unfold Worker.processItem, fileLogs, heldLogs, infoLogs, infoOutcome.
  destruct (fs fn) as [|written|pieces [final closeFails [|w]|written|final written]]
    eqn:Hfn; simpl; rewrite ?Hfn, <- ?app_assoc, ?app_nil_r; reflexivity.
Qed.

Lemma Logged_init files n : Logged fs files (init files n).
Proof.
  unfold Logged. simpl.
  assert (flat_map (heldLogs fs) (replicate n WIdle) = []) as ->.
  { induction n; simpl; auto. }
  reflexivity.
Qed.

Lemma Logged_fire files a s s' :
  Phase cap s → Logged fs files s → fire a s = Some s' → Logged fs files s'.
Proof.
  intros Hph Hl Hf. unfold Logged in *.
  pose proof (closed_no_sender cap s) as Hopen.
  destruct a; fire_inv Hf; simpl in *; try exact Hl.
  - rewrite <- app_assoc. exact Hl.
  - rewrite <- Hl.
    pose proof (item_logs s0) as Hitem. rewrite H2 in Hitem. simpl in Hitem.
    rewrite <- Hitem.
    pose proof (flat_map_insert_perm (heldLogs fs) _ i (afterItem s0 i0) _ H) as Hp.
    simpl in Hp. rewrite app_nil_r in Hp. rewrite Hp.
    solve_Permutation.
  - specialize (Hopen _ _ _ Hph H). congruence.
  - rewrite <- Hl.
    pose proof (flat_map_insert_perm (heldLogs fs) _ i WIdle _ H) as Hp.
    simpl in Hp. unfold infoLogs in Hp. rewrite H3 in Hp.
    rewrite <- Hp. solve_Permutation.
  - rewrite <- Hl.
    pose proof (flat_map_insert_perm (heldLogs fs) _ i WExited _ H) as Hp.
    simpl in Hp. unfold infoLogs in Hp. rewrite H3 in Hp.
    rewrite <- Hp. solve_Permutation.
  - rewrite <- Hl.
    pose proof (flat_map_insert_perm (heldLogs fs) _ i WExited _ H) as Hp.
    simpl in Hp. rewrite app_nil_r in Hp. rewrite Hp, H1. reflexivity.
Qed.

Lemma Logged_run files sched : ∀ s s',
  Phase cap s → Logged fs files s → run sched s = Some s' → Logged fs files s'.
Proof.
  induction sched as [|a sched IH]; intros s s' Hph Hl Hr; simpl in *.
  - injection Hr as <-. exact Hl.
  - destruct (fire a s) as [s1|] eqn:Hf; [|discriminate].
    apply (IH s1 s'); [| |exact Hr].
    + apply (Phase_fire _ _ _ _ _ _ _ Hph Hf).
    + apply (Logged_fire _ _ _ _ Hph Hl Hf).
Qed.

Lemma flat_map_nil_all {A B} (f : A → list B) l :
  (∀ i x, l !! i = Some x → f x = []) → flat_map f l = [].
Proof.
  induction l as [|y l IH]; intros H; simpl; [reflexivity|].
  rewrite (H 0%nat y eq_refl), IH; [reflexivity|].
  intros i x Hi. apply (H (S i) x Hi).
Qed.

End LogFacts.

(** ** The number of keys of the final map *)

Section SizeFacts.

Variable letterTable : rune -> bool.
Variable lowerTable : rune -> rune.
Variable fs : string -> fileBehaviour.
Variable cap : nat.

Local Abbreviation reachable := (reachable letterTable lowerTable fs cap).
Local Abbreviation tokens := (fileTokens letterTable lowerTable fs).
Local Abbreviation words := (wordsOf letterTable lowerTable fs).

Lemma wordsOf_tokens files : words files = list_to_set (flat_map tokens files).
Proof.
  induction files as [|fn l IH]; [reflexivity|].
  rewrite wordsOf_cons, IH. simpl. rewrite list_to_set_app_L. reflexivity.
Qed.

Lemma size_list_to_set_dups (l : list string) :
  size (list_to_set l : gset string) = length (remove_dups l).
Proof.
  rewrite <- (size_list_to_set (C := gset string) (remove_dups l))
    by apply NoDup_remove_dups.
  f_equal. apply set_eq. intros x.
  rewrite !elem_of_list_to_set, elem_of_remove_dups. reflexivity.
Qed.

Lemma final_size files s :
  panicFree fs files = true →
  reachable (init files cap) s → pc s = Returned →
  size (finalResult s) = length (distinctWords letterTable lowerTable fs files).
Proof.
  intros Hpf Hr Hpc.
  pose proof (Phase_reachable _ _ _ _ _ _ Hr) as Hph.
  pose proof (Drained_reachable _ _ _ _ _ _ Hpf Hr) as Hdr.
  destruct (returned_accounts letterTable lowerTable fs cap s Hph Hdr Hpc) as [Hk _].
  destruct (conserve_reachable _ _ _ _ _ _ Hr) as [Hk' _].
  rewrite <- size_dom, <- Hk, Hk', wordsOf_tokens.
  apply size_list_to_set_dups.
Qed.

End SizeFacts.
(** ** Decoding a string that continues *)

Section RangeFacts.

Lemma length_dropS_decode c t :
  (String.length (dropS (snd (DecodeRuneInString (String c t))) (String c t))
   <= String.length t)%nat.
Proof.
  pose proof (DecodeRuneInString_width c t) as Hw. rewrite length_dropS.
  destruct (DecodeRuneInString (String c t)) as [r w]. cbn [snd String.length] in *. lia.
Qed.

Lemma rangeLoop_fuel fuel1 : ∀ fuel2 s,
  (String.length s <= fuel1)%nat → (String.length s <= fuel2)%nat →
  rangeLoop fuel1 s = rangeLoop fuel2 s.
Proof.
  induction fuel1 as [|fuel1 IH]; intros [|fuel2] [|c t] H1 H2;
    cbn [rangeLoop String.length] in *; try reflexivity; try lia.
  pose proof (length_dropS_decode c t) as Hd.
  destruct (DecodeRuneInString (String c t)) as [r w]. cbn [snd] in Hd.
  f_equal. apply IH; lia.
Qed.

Lemma rangeString_cons c t :
  rangeString (String c t)
  = (fst (DecodeRuneInString (String c t)),
     takeS (snd (DecodeRuneInString (String c t))) (String c t))
    :: rangeString (dropS (snd (DecodeRuneInString (String c t))) (String c t)).
Proof.
  unfold rangeString at 1. cbn [String.length rangeLoop].
  pose proof (length_dropS_decode c t) as Hd.
  destruct (DecodeRuneInString (String c t)) as [r w]. cbn [fst snd] in *.
  f_equal. apply rangeLoop_fuel; [exact Hd | lia].
Qed.

(** A rune decoded without error is decoded from bytes that are all
    there, and the bytes that follow do not change it. *)
Lemma DecodeRuneInString_stable c t r w :
  DecodeRuneInString (String c t) = (r, w) →
  decodedRune (r, takeS w (String c t)) = true →
  (w <= String.length (String c t))%nat
  ∧ ∀ rest, DecodeRuneInString (String c (String.append t rest)) = (r, w).
Proof.
  unfold DecodeRuneInString, decodedRune. cbn [fst snd].
  set (x := first (byteVal c)).
  destruct (as_ <=? x) eqn:Hx.
  { intros [= <- <-] _. split; [simpl; lia | reflexivity]. }
  set (sz := Z.land x 7).
  set (accept := acceptRanges (Z.shiftr x 4)).
  assert (∀ n m, (n <= m)%nat → (Z.of_nat n <? sz) = false → (Z.of_nat m <? sz) = false)
    as Hlen.
  { intros n m Hnm Hn. apply Z.ltb_ge in Hn. apply Z.ltb_ge. lia. }
  assert (∀ rest, (String.length (String c t)
                   <= String.length (String c (String.append t rest)))%nat) as Hgrow.
  { intros rest. simpl. rewrite length_append. lia. }
  destruct (Z.of_nat (String.length (String c t)) <? sz) eqn:Hsz.
  { intros [= <- <-]. simpl. discriminate. }
  destruct t as [|c1 t1].
  { intros [= <- <-]. simpl. discriminate. }
  destruct ((byteVal c1 <? accept.1) || (accept.2 <? byteVal c1)) eqn:H1.
  { intros [= <- <-]. simpl. discriminate. }
  destruct (sz <=? 2) eqn:H2.
  { intros [= <- <-] _. split; [simpl; lia|]. intros rest.
    rewrite (Hlen _ _ (Hgrow rest) Hsz). rewrite append_cons, H1. reflexivity. }
  destruct t1 as [|c2 t2].
  { intros [= <- <-]. simpl. discriminate. }
  destruct ((byteVal c2 <? locb) || (hicb <? byteVal c2)) eqn:H3.
  { intros [= <- <-]. simpl. discriminate. }
  destruct (sz <=? 3) eqn:H4.
  { intros [= <- <-] _. split; [simpl; lia|]. intros rest.
    rewrite (Hlen _ _ (Hgrow rest) Hsz). rewrite !append_cons, H1, H3. reflexivity. }
  destruct t2 as [|c3 t3].
  { intros [= <- <-]. simpl. discriminate. }
  destruct ((byteVal c3 <? locb) || (hicb <? byteVal c3)) eqn:H5.
  { intros [= <- <-]. simpl. discriminate. }
  intros [= <- <-] _. split; [simpl; lia|]. intros rest.
  rewrite (Hlen _ _ (Hgrow rest) Hsz). rewrite !append_cons, H1, H3, H5. reflexivity.
Qed.

Lemma takeS_append_le n : ∀ a b,
  (n <= String.length a)%nat → takeS n (String.append a b) = takeS n a.
Proof.
  induction n as [|n IH]; intros [|c a] b H; simpl in *; try reflexivity; try lia.
  rewrite IH by lia. reflexivity.
Qed.

Lemma dropS_append_le n : ∀ a b,
  (n <= String.length a)%nat →
  dropS n (String.append a b) = String.append (dropS n a) b.
Proof.
  induction n as [|n IH]; intros [|c a] b H; simpl in *; try reflexivity; try lia.
  apply IH. lia.
Qed.

(** The runes of a valid string followed by any bytes are its own runes
    followed by those of the other bytes. *)
Lemma rangeString_app_valid n : ∀ s rest,
  (String.length s <= n)%nat →
  validString s = true →
  rangeString (String.append s rest) = rangeString s ++ rangeString rest.
Proof.
  induction n as [|n IH]; intros [|c t] rest Hn Hv; simpl in Hn; try lia;
    try (rewrite append_nil_l; reflexivity).
  unfold validString in Hv. rewrite rangeString_cons in Hv.
  cbn [forallb] in Hv. apply andb_true_iff in Hv as [Hd Hv].
  destruct (DecodeRuneInString (String c t)) as [r w] eqn:Hdec. cbn [fst snd] in *.
  destruct (DecodeRuneInString_stable c t r w Hdec Hd) as [Hw Hst].
  pose proof (DecodeRuneInString_width c t) as Hw1. rewrite Hdec in Hw1. simpl in Hw1.
  rewrite append_cons, !rangeString_cons, Hst, Hdec. cbn [fst snd].
  rewrite <- append_cons.
  rewrite takeS_append_le, dropS_append_le by exact Hw.
  rewrite <- app_comm_cons. f_equal.
  apply IH; [|exact Hv].
  rewrite length_dropS. simpl in *. lia.
Qed.

End RangeFacts.
(** ** Fields on either side of a boundary *)

Section BoundaryFacts.

Variable letterTable : rune -> bool.

Lemma fieldsLoop_end_sep sep rs1 : ∀ start r raw rs2,
  sep r = true →
  fieldsLoop sep ((rs1 ++ [(r, raw)]) ++ rs2) start
  = fieldsLoop sep (rs1 ++ [(r, raw)]) start ++ fieldsLoop sep rs2 None.
Proof.
  induction rs1 as [|[r1 raw1] rs1 IH]; intros start r raw rs2 Hr.
  - simpl. rewrite Hr. destruct start; simpl; reflexivity.
  - rewrite <- !app_comm_cons. cbn [fieldsLoop].
    destruct (sep r1), start; rewrite ?IH by exact Hr; reflexivity.
Qed.

Lemma last_snoc_inv {A} (l : list A) x : last l = Some x → ∃ l', l = l' ++ [x].
Proof.
  intros H. destruct (decide (l = [])) as [->|Hne]; [discriminate|].
  destruct (exists_last Hne) as (l' & y & ->).
  rewrite last_snoc in H. injection H as ->. eauto.
Qed.

(** A boundary with a rune that is no letter on one side of it does not
    change the words. *)
Lemma splitWords_no_straddle c1 c2 :
  rangeString (String.append c1 c2) = rangeString c1 ++ rangeString c2 →
  endsWithLetter letterTable c1 = false ∨ startsWithLetter letterTable c2 = false →
  splitWords letterTable (String.append c1 c2)
  = splitWords letterTable c1 ++ splitWords letterTable c2.
Proof.
  intros Happ Hb. unfold splitWords, FieldsFunc. rewrite Happ.
  unfold endsWithLetter, startsWithLetter, letterRune in Hb.
  destruct (last (rangeString c1)) as [[r raw]|] eqn:Hlast.
  - destruct (last_snoc_inv _ _ Hlast) as (rs1 & Hrs). rewrite Hrs.
    destruct (IsLetter letterTable r) eqn:Hr.
    + destruct Hb as [Hb|Hb]; [simpl in Hb; congruence|].
      destruct (fieldsLoop_end_letter (λ r, negb (IsLetter letterTable r))
                  rs1 None r raw) as (ws & x & E1 & E2).
      { rewrite Hr. reflexivity. }
      rewrite E2, E1.
      destruct (rangeString c2) as [|[r2 raw2] rest].
      * simpl. rewrite app_nil_r. reflexivity.
      * simpl in Hb. cbn [fieldsLoop]. rewrite Hb. simpl.
        rewrite <- app_assoc. reflexivity.
    + apply fieldsLoop_end_sep. rewrite Hr. reflexivity.
  - apply last_None in Hlast. rewrite Hlast. reflexivity.
Qed.

End BoundaryFacts.
(** ** ASCII case and decoding *)

Section CaseFacts.

Lemma lowerBytes_app a b :
  lowerBytes (String.append a b) = String.append (lowerBytes a) (lowerBytes b).
Proof.
  induction a as [|c a IH]; [rewrite !append_nil_l; reflexivity|].
  rewrite append_cons. cbn [lowerBytes]. rewrite append_cons, IH. reflexivity.
Qed.

Lemma isUpperByte_val c :
  isUpperByte c = true →
  0x41 <= byteVal c <= 0x5A ∧ byteVal (toByte (byteVal c + 32)) = byteVal c + 32.
Proof.
  unfold isUpperByte. intros H. apply andb_true_iff in H as [H1 H2].
  apply Z.leb_le in H1, H2. split; [lia|]. apply byteVal_toByte. lia.
Qed.

Lemma allASCII_lowerBytes s : allASCII (lowerBytes s) = allASCII s.
Proof.
  induction s as [|c s IH]; [reflexivity|]. cbn [lowerBytes allASCII]. rewrite IH.
  f_equal. destruct (isUpperByte c) eqn:Hu; [|reflexivity].
  destruct (isUpperByte_val c Hu) as [Hr ->]. unfold RuneSelf.
  destruct (Z.ltb_spec (byteVal c + 32) 128), (Z.ltb_spec (byteVal c) 128);
    try reflexivity; lia.
Qed.

Lemma takeS_lowerBytes n : ∀ s, takeS n (lowerBytes s) = lowerBytes (takeS n s).
Proof.
  induction n as [|n IH]; intros [|c s]; cbn [takeS lowerBytes]; try reflexivity.
  rewrite IH. reflexivity.
Qed.

Lemma dropS_lowerBytes n : ∀ s, dropS n (lowerBytes s) = lowerBytes (dropS n s).
Proof.
  induction n as [|n IH]; intros [|c s]; cbn [dropS lowerBytes]; try reflexivity.
  apply IH.
Qed.

Lemma acceptRanges_low i :
  0x80 <= fst (acceptRanges i) ∨ acceptRanges i = (0, 0).
Proof.
  unfold acceptRanges, locb, hicb.
  repeat (case_match; [left; simpl; lia|]). right. reflexivity.
Qed.

(** Lowering a byte does not change whether it is accepted as a
    continuation byte, and an accepted byte is not changed. *)
Lemma lower_continuation lo hi c :
  0x80 <= lo ∨ (lo, hi) = (0, 0) →
  let c' := if isUpperByte c then toByte (byteVal c + 32) else c in
  ((byteVal c' <? lo) || (hi <? byteVal c'))
  = ((byteVal c <? lo) || (hi <? byteVal c))
  ∧ (((byteVal c <? lo) || (hi <? byteVal c)) = false → c' = c).
Proof.
  intros Hlo. cbn zeta. destruct (isUpperByte c) eqn:Hu; [|split; reflexivity].
  destruct (isUpperByte_val c Hu) as [Hr ->].
  destruct Hlo as [Hlo|[= -> ->]].
  - assert ((byteVal c + 32 <? lo) = true) as -> by (apply Z.ltb_lt; lia).
    assert ((byteVal c <? lo) = true) as -> by (apply Z.ltb_lt; lia).
    split; [reflexivity | discriminate].
  - assert ((0 <? byteVal c + 32) = true) as -> by (apply Z.ltb_lt; lia).
    assert ((0 <? byteVal c) = true) as -> by (apply Z.ltb_lt; lia).
    rewrite !orb_true_r. split; [reflexivity | discriminate].
Qed.

Lemma first_ascii b : 0 <= b < 0x80 → first b = as_.
Proof.
  intros H. unfold first.
  assert ((b <? 128) = true) as -> by (apply Z.ltb_lt; lia). reflexivity.
Qed.

Lemma DecodeRuneInString_ascii c t :
  byteVal c < 0x80 → DecodeRuneInString (String c t) = (byteVal c, 1%nat).
Proof.
  intros H. unfold DecodeRuneInString.
  rewrite first_ascii by (pose proof (byteVal_range c); lia). reflexivity.
Qed.

Lemma lowerItem_wide r raw :
  (String.length raw =? 1)%nat = false → fst (lowerItem (r, raw)) = r.
Proof. intros H. unfold lowerItem. cbn [fst snd]. rewrite H. reflexivity. Qed.

Lemma lowerItem_other r raw :
  ((0x41 <=? r) && (r <=? 0x5A)) = false → fst (lowerItem (r, raw)) = r.
Proof.
  intros H. unfold lowerItem. cbn [fst snd].
  rewrite <- andb_assoc, H, andb_false_r. reflexivity.
Qed.

(** Decoding after [lowerBytes]: the same width, and the same rune but
    for a byte in [A] to [Z]. *)
Lemma DecodeRuneInString_lowerBytes c t :
  DecodeRuneInString (lowerBytes (String c t))
  = (fst (lowerItem (fst (DecodeRuneInString (String c t)),
                     takeS (snd (DecodeRuneInString (String c t))) (String c t))),
     snd (DecodeRuneInString (String c t))).
Proof.
  cbn [lowerBytes]. destruct (isUpperByte c) eqn:Hu.
  { destruct (isUpperByte_val c Hu) as [Hr Hv].
    rewrite !DecodeRuneInString_ascii by lia. rewrite Hv. cbn [fst snd].
    unfold lowerItem. cbn [fst snd takeS String.length Nat.eqb andb].
    assert ((0x41 <=? byteVal c) = true) as -> by (apply Z.leb_le; lia).
    assert ((byteVal c <=? 0x5A) = true) as -> by (apply Z.leb_le; lia).
    reflexivity. }
  assert (((0x41 <=? byteVal c) && (byteVal c <=? 0x5A)) = false) as Hnu by exact Hu.
  unfold DecodeRuneInString.
  set (x := first (byteVal c)).
  destruct (as_ <=? x) eqn:Hx.
  { cbn [fst snd]. destruct (x =? xx).
    - rewrite lowerItem_other by reflexivity. reflexivity.
    - rewrite lowerItem_other by exact Hnu. reflexivity. }
  set (sz := Z.land x 7).
  pose proof (acceptRanges_low (Z.shiftr x 4)) as Hacc.
  set (accept := acceptRanges (Z.shiftr x 4)) in *.
  cbn [String.length]. rewrite length_lowerBytes.
  destruct (Z.of_nat (S (String.length t)) <? sz) eqn:Hsz.
  { cbn [fst snd]. rewrite lowerItem_other by reflexivity. reflexivity. }
  destruct t as [|c1 t1]; cbn [lowerBytes].
  { cbn [fst snd]. rewrite lowerItem_other by reflexivity. reflexivity. }
  destruct (lower_continuation (fst accept) (snd accept) c1) as [E1 K1].
  { destruct Hacc as [Hacc|Hacc]; [left; exact Hacc | right].
    rewrite <- Hacc. destruct accept; reflexivity. }
  cbn zeta in E1, K1. rewrite E1.
  destruct ((byteVal c1 <? accept.1) || (accept.2 <? byteVal c1)) eqn:H1.
  { cbn [fst snd]. rewrite lowerItem_other by reflexivity. reflexivity. }
  rewrite (K1 eq_refl).
  destruct (sz <=? 2) eqn:H2.
  { cbn [fst snd]. rewrite lowerItem_wide by reflexivity. reflexivity. }
  destruct t1 as [|c2 t2]; cbn [lowerBytes].
  { cbn [fst snd]. rewrite lowerItem_other by reflexivity. reflexivity. }
  destruct (lower_continuation locb hicb c2) as [E2 K2].
  { left. unfold locb. lia. }
  cbn zeta in E2, K2. rewrite E2.
  destruct ((byteVal c2 <? locb) || (hicb <? byteVal c2)) eqn:H3.
  { cbn [fst snd]. rewrite lowerItem_other by reflexivity. reflexivity. }
  rewrite (K2 eq_refl).
  destruct (sz <=? 3) eqn:H4.
  { cbn [fst snd]. rewrite lowerItem_wide by reflexivity. reflexivity. }
  destruct t2 as [|c3 t3]; cbn [lowerBytes].
  { cbn [fst snd]. rewrite lowerItem_other by reflexivity. reflexivity. }
  destruct (lower_continuation locb hicb c3) as [E3 K3].
  { left. unfold locb. lia. }
  cbn zeta in E3, K3. rewrite E3.
  destruct ((byteVal c3 <? locb) || (hicb <? byteVal c3)) eqn:H5.
  { cbn [fst snd]. rewrite lowerItem_other by reflexivity. reflexivity. }
  rewrite (K3 eq_refl).
  cbn [fst snd]. rewrite lowerItem_wide by reflexivity. reflexivity.
Qed.

Lemma rangeString_lowerBytes n : ∀ s,
  (String.length s <= n)%nat →
  rangeString (lowerBytes s) = map lowerItem (rangeString s).
Proof.
  induction n as [|n IH]; intros [|c t] Hn; cbn [String.length] in Hn; try lia;
    try reflexivity.
  change (lowerBytes (String c t))
    with (String (if isUpperByte c then toByte (byteVal c + 32) else c) (lowerBytes t)).
  rewrite !rangeString_cons.
  change (String (if isUpperByte c then toByte (byteVal c + 32) else c) (lowerBytes t))
    with (lowerBytes (String c t)).
  rewrite DecodeRuneInString_lowerBytes.
  pose proof (length_dropS_decode c t) as Hd.
  destruct (DecodeRuneInString (String c t)) as [r w]. cbn [fst snd] in *.
  cbn [map]. rewrite takeS_lowerBytes, dropS_lowerBytes.
  f_equal. apply IH. lia.
Qed.

End CaseFacts.
(** ** Words and ASCII case *)

Section CaseWords.

Variable letterTable : rune -> bool.
Variable lowerTable : rune -> rune.

Local Abbreviation sep := (λ r : rune, negb (IsLetter letterTable r)).

Lemma lowerItem_cases x :
  fst (lowerItem x) = fst x
  ∨ (0x41 <= fst x <= 0x5A ∧ fst (lowerItem x) = fst x + 32).
Proof.
  unfold lowerItem. cbn [fst].
  destruct ((String.length x.2 =? 1)%nat && (0x41 <=? x.1) && (x.1 <=? 0x5A)) eqn:H;
    [right | left; reflexivity].
  apply andb_true_iff in H as [H H2]. apply andb_true_iff in H as [_ H1].
  apply Z.leb_le in H1, H2. split; [lia | reflexivity].
Qed.

Lemma IsLetter_upper r : 0x41 <= r <= 0x5A →
  IsLetter letterTable r = true ∧ IsLetter letterTable (r + 32) = true.
Proof.
  intros H. unfold IsLetter, latin1Letter.
  assert ((0 <=? r) = true) as -> by (apply Z.leb_le; lia).
  assert ((r <=? 255) = true) as -> by (apply Z.leb_le; lia).
  assert ((0 <=? r + 32) = true) as -> by (apply Z.leb_le; lia).
  assert ((r + 32 <=? 255) = true) as -> by (apply Z.leb_le; lia).
  assert ((65 <=? r) = true) as -> by (apply Z.leb_le; lia).
  assert ((r <=? 90) = true) as -> by (apply Z.leb_le; lia).
  assert ((97 <=? r + 32) = true) as -> by (apply Z.leb_le; lia).
  assert ((r + 32 <=? 122) = true) as -> by (apply Z.leb_le; lia).
  cbn [andb orb]. rewrite !orb_true_r. split; reflexivity.
Qed.

Lemma IsLetter_lowerItem x :
  IsLetter letterTable (fst (lowerItem x)) = IsLetter letterTable (fst x).
Proof.
  destruct (lowerItem_cases x) as [->|[Hr ->]]; [reflexivity|].
  destruct (IsLetter_upper _ Hr) as [-> ->]. reflexivity.
Qed.

Lemma unicode_ToLower_lowerItem x :
  unicode_ToLower lowerTable (fst (lowerItem x)) = unicode_ToLower lowerTable (fst x).
Proof.
  destruct (lowerItem_cases x) as [->|[Hr ->]]; [reflexivity|].
  unfold unicode_ToLower.
  assert ((x.1 + 32 <=? 127) = true) as -> by (apply Z.leb_le; lia).
  assert ((x.1 <=? 127) = true) as -> by (apply Z.leb_le; lia).
  assert ((65 <=? x.1) = true) as -> by (apply Z.leb_le; lia).
  assert ((x.1 <=? 90) = true) as -> by (apply Z.leb_le; lia).
  assert ((x.1 + 32 <=? 90) = false) as -> by (apply Z.leb_gt; lia).
  rewrite andb_false_r. reflexivity.
Qed.

Lemma fieldsLoop_lowerItem rs : ∀ start,
  fieldsLoop sep (map lowerItem rs) (option_map lowerBytes start)
  = map lowerBytes (fieldsLoop sep rs start).
Proof.
  induction rs as [|[r raw] rs IH]; intros start.
  - destruct start; reflexivity.
  - cbn [map fieldsLoop].
    change (lowerItem (r, raw)) with ((lowerItem (r, raw)).1, lowerBytes raw).
    cbv beta iota. rewrite (IsLetter_lowerItem (r, raw)). cbn [fst].
    destruct (negb (IsLetter letterTable r)), start as [fld|]; cbn [option_map map].
    + f_equal. apply (IH None).
    + apply (IH None).
    + rewrite <- lowerBytes_app. apply (IH (Some (String.append fld raw))).
    + apply (IH (Some raw)).
Qed.

Lemma splitWords_lowerBytes s :
  splitWords letterTable (lowerBytes s) = map lowerBytes (splitWords letterTable s).
Proof.
  unfold splitWords, FieldsFunc.
  rewrite (rangeString_lowerBytes (String.length s)) by lia.
  apply (fieldsLoop_lowerItem _ None).
Qed.

Lemma Map_lowerBytes s :
  Map (unicode_ToLower lowerTable) (lowerBytes s) = Map (unicode_ToLower lowerTable) s.
Proof.
  unfold Map. rewrite (rangeString_lowerBytes (String.length s)) by lia.
  induction (rangeString s) as [|[r raw] rs IH]; [reflexivity|].
  cbn [map fold_right]. rewrite IH.
  change (lowerItem (r, raw)) with ((lowerItem (r, raw)).1, lowerBytes raw).
  cbv beta iota. rewrite (unicode_ToLower_lowerItem (r, raw)). reflexivity.
Qed.

Lemma ToLower_lowerBytes s :
  ToLower lowerTable (lowerBytes s) = ToLower lowerTable s.
Proof.
  rewrite !ToLower_unfold, allASCII_lowerBytes.
  destruct (allASCII s); [|apply Map_lowerBytes].
  apply lowerBytes_id, lowerBytes_no_upper.
Qed.

Lemma chunkTokens_lowerBytes s :
  chunkTokens letterTable lowerTable (lowerBytes s)
  = chunkTokens letterTable lowerTable s.
Proof.
  unfold chunkTokens. rewrite splitWords_lowerBytes, map_map. f_equal.
  apply map_ext. intros f. apply ToLower_lowerBytes.
Qed.

End CaseWords.
(** ** Words of ASCII text *)

Section AsciiWords.

Variable letterTable : rune -> bool.
Variable lowerTable : rune -> rune.

Local Abbreviation sep := (λ r : rune, negb (IsLetter letterTable r)).
Local Abbreviation asciiLetter :=
  (λ b : Z, ((0x41 <=? b) && (b <=? 0x5A)) || ((0x61 <=? b) && (b <=? 0x7A))).

Lemma asciiLetters_app a b :
  asciiLetters (String.append a b) = asciiLetters a && asciiLetters b.
Proof.
  induction a as [|c a IH]; [rewrite append_nil_l; reflexivity|].
  rewrite append_cons. cbn [asciiLetters]. rewrite IH, andb_assoc. reflexivity.
Qed.

Lemma asciiLetter_range b : asciiLetter b = true → 0x41 <= b <= 0x7A.
Proof.
  intros H. apply orb_true_iff in H as [H|H]; apply andb_true_iff in H as [H1 H2];
    apply Z.leb_le in H1, H2; lia.
Qed.

Lemma asciiLetters_allASCII s : asciiLetters s = true → allASCII s = true.
Proof.
  induction s as [|c s IH]; [reflexivity|]. cbn [asciiLetters allASCII].
  intros H. apply andb_true_iff in H as [Hc Hs]. rewrite (IH Hs), andb_true_r.
  apply asciiLetter_range in Hc. apply Z.ltb_lt. unfold RuneSelf. lia.
Qed.

Lemma lowerAlpha_lowerBytes s :
  asciiLetters s = true → lowerAlpha (lowerBytes s) = true.
Proof.
  induction s as [|c s IH]; [reflexivity|]. cbn [asciiLetters lowerBytes lowerAlpha].
  intros H. apply andb_true_iff in H as [Hc Hs]. rewrite (IH Hs), andb_true_r.
  destruct (isUpperByte c) eqn:Hu.
  - destruct (isUpperByte_val c Hu) as [Hr ->].
    apply andb_true_iff. split; apply Z.leb_le; lia.
  - unfold isUpperByte in Hu. rewrite Hu in Hc. exact Hc.
Qed.

Lemma IsLetter_ascii b :
  0 <= b < 0x80 → IsLetter letterTable b = asciiLetter b.
Proof.
  intros H. unfold IsLetter, latin1Letter.
  assert ((0 <=? b) = true) as -> by (apply Z.leb_le; lia).
  assert ((b <=? 255) = true) as -> by (apply Z.leb_le; lia).
  assert ((b =? 170) = false) as -> by (apply Z.eqb_neq; lia).
  assert ((b =? 181) = false) as -> by (apply Z.eqb_neq; lia).
  assert ((b =? 186) = false) as -> by (apply Z.eqb_neq; lia).
  assert ((192 <=? b) = false) as -> by (apply Z.leb_gt; lia).
  assert ((216 <=? b) = false) as -> by (apply Z.leb_gt; lia).
  assert ((248 <=? b) = false) as -> by (apply Z.leb_gt; lia).
  cbn [andb orb]. rewrite !orb_false_r. reflexivity.
Qed.

Lemma rangeString_ascii c t :
  byteVal c < 0x80 →
  rangeString (String c t) = (byteVal c, String c EmptyString) :: rangeString t.
Proof.
  intros H. rewrite rangeString_cons, DecodeRuneInString_ascii by exact H.
  reflexivity.
Qed.

Lemma fieldsLoop_ascii s : ∀ start,
  allASCII s = true →
  (∀ f, start = Some f → asciiLetters f = true) →
  Forall (λ f, asciiLetters f = true) (fieldsLoop sep (rangeString s) start).
Proof.
  induction s as [|c s IH]; intros start Hs Hst.
  - destruct start as [f|]; simpl; [|constructor].
    constructor; [apply Hst; reflexivity | constructor].
  - cbn [allASCII] in Hs. apply andb_true_iff in Hs as [Hc Hs].
    apply Z.ltb_lt in Hc. unfold RuneSelf in Hc.
    rewrite rangeString_ascii by exact Hc. cbn [fieldsLoop].
    pose proof (byteVal_range c) as Hb.
    rewrite IsLetter_ascii by lia.
    destruct (asciiLetter (byteVal c)) eqn:Hl; cbn [negb].
    + destruct start as [f|]; apply IH; try exact Hs; intros f' [= <-].
      * rewrite asciiLetters_app, (Hst f eq_refl). cbn [asciiLetters andb].
        rewrite Hl. reflexivity.
      * cbn [asciiLetters]. rewrite Hl. reflexivity.
    + destruct start as [f|].
      * constructor; [apply Hst; reflexivity|]. apply IH; [exact Hs | discriminate].
      * apply IH; [exact Hs | discriminate].
Qed.

Lemma chunkTokens_ascii c :
  allASCII c = true →
  Forall (λ t, t ≠ EmptyString ∧ lowerAlpha t = true)
    (chunkTokens letterTable lowerTable c).
Proof.
  intros Hc. unfold chunkTokens.
  pose proof (fieldsLoop_ascii c None Hc ltac:(discriminate)) as Hf.
  change (fieldsLoop sep (rangeString c) None) with (splitWords letterTable c) in Hf.
  apply Forall_forall. intros t Ht.
  apply list_elem_of_filter in Ht as [Hne Ht].
  apply list_elem_of_fmap in Ht as (f & -> & Hin).
  split; [exact Hne|].
  rewrite Forall_forall in Hf. specialize (Hf f Hin).
  rewrite ToLower_unfold, (asciiLetters_allASCII f Hf).
  apply lowerAlpha_lowerBytes, Hf.
Qed.

Lemma allASCII_takeS n : ∀ s, allASCII s = true → allASCII (takeS n s) = true.
Proof.
  induction n as [|n IH]; intros [|c s] H; cbn [takeS allASCII] in *; try reflexivity.
  apply andb_true_iff in H as [-> H]. apply (IH _ H).
Qed.

Lemma allASCII_dropS n : ∀ s, allASCII s = true → allASCII (dropS n s) = true.
Proof.
  induction n as [|n IH]; intros [|c s] H; cbn [dropS allASCII] in *; try assumption.
  apply andb_true_iff in H as [_ H]. apply (IH _ H).
Qed.

Lemma chunksLoop_ascii bufLen fuel : ∀ piece,
  allASCII piece = true →
  Forall (λ c, allASCII c = true) (chunksLoop fuel bufLen piece).
Proof.
  induction fuel as [|fuel IH]; intros piece H; cbn [chunksLoop].
  - constructor; [exact H | constructor].
  - destruct (String.length piece <=? bufLen)%nat.
    + constructor; [exact H | constructor].
    + constructor; [apply allASCII_takeS, H | apply IH, allASCII_dropS, H].
Qed.

Lemma fileReads_ascii bufLen pieces :
  Forall (λ p, allASCII p = true) pieces →
  Forall (λ c, allASCII c = true) (fileReads bufLen pieces).
Proof.
  induction 1 as [|p pieces Hp _ IH]; [constructor|].
  rewrite fileReads_cons. apply Forall_app. split; [|exact IH].
  apply chunksLoop_ascii, Hp.
Qed.

Lemma fileTokens_ascii (fs : string → fileBehaviour) fn :
  (∀ pieces final, fs fn = Opens pieces final →
                   Forall (λ p, allASCII p = true) pieces) →
  Forall (λ t, t ≠ EmptyString ∧ lowerAlpha t = true)
    (fileTokens letterTable lowerTable fs fn).
Proof.
  intros H. unfold fileTokens.
  destruct (fs fn) as [|written|pieces final]; try constructor.
  specialize (H pieces final eq_refl). destruct final; try constructor.
  pose proof (fileReads_ascii bufSize pieces H) as Hr.
  induction Hr as [|c l Hc _ IH]; [constructor|].
  simpl. apply Forall_app. split; [apply chunkTokens_ascii, Hc | exact IH].
Qed.

(** A key of the final map is a token of one of the files. *)
Lemma final_key_token (fs : string → fileBehaviour) cap files s w :
  reachable letterTable lowerTable fs cap (init files cap) s →
  is_Some (finalResult s !! w) →
  ∃ fn, fn ∈ files ∧ w ∈ fileTokens letterTable lowerTable fs fn.
Proof.
  intros Hr Hw.
  destruct (conserve_reachable _ _ _ _ _ _ Hr) as [Hk _].
  assert (w ∈ wordsOf letterTable lowerTable fs files) as Hin.
  { rewrite <- Hk. unfold stKeys. apply elem_of_dom in Hw. set_solver. }
  apply elem_of_unionOf in Hin as (fn & Hfn & Hin).
  exists fn. split; [exact Hfn|]. apply elem_of_list_to_set in Hin. exact Hin.
Qed.

End AsciiWords.
(** ** Formatting *)

Section FmtFacts.

Import Fmt Report.

Lemma fmtDigits_buf fuel : ∀ u buf,
  fmtDigits fuel u buf = String.append (fmtDigits fuel u EmptyString) buf.
Proof.
  induction fuel as [|fuel IH]; intros u buf; cbn [fmtDigits].
  - rewrite append_nil_l. reflexivity.
  - destruct (10 <=? u).
    + rewrite (IH _ (String _ buf)), (IH _ (String _ EmptyString)).
      rewrite append_assoc, append_cons, append_nil_l. reflexivity.
    + rewrite append_cons, append_nil_l. reflexivity.
Qed.

Lemma readDigits_app a : ∀ acc b,
  readDigits acc (String.append a b) = readDigits (readDigits acc a) b.
Proof.
  induction a as [|c a IH]; intros acc b.
  - rewrite append_nil_l. reflexivity.
  - rewrite append_cons. cbn [readDigits]. apply IH.
Qed.

Lemma allDigits_app a b :
  allDigits (String.append a b) = allDigits a && allDigits b.
Proof.
  induction a as [|c a IH]; [rewrite append_nil_l; reflexivity|].
  rewrite append_cons. cbn [allDigits]. rewrite IH, andb_assoc. reflexivity.
Qed.

Lemma digit_byte d : 0 <= d < 10 → byteVal (toByte (0x30 + d)) = 0x30 + d.
Proof. intros H. apply byteVal_toByte. lia. Qed.

(** The digits written for [u] are decimal digits, denote [u], and are
    as many as [u] needs. *)
Lemma fmtDigits_spec fuel : ∀ u,
  0 <= u < 10 ^ Z.of_nat (S fuel) →
  allDigits (fmtDigits (S fuel) u EmptyString) = true
  ∧ readDigits 0 (fmtDigits (S fuel) u EmptyString) = u
  ∧ (1 <= String.length (fmtDigits (S fuel) u EmptyString))%nat
  ∧ ∀ k : nat, (1 <= k)%nat →
      (u < 10 ^ Z.of_nat k ↔ (String.length (fmtDigits (S fuel) u EmptyString) <= k)%nat).
Proof.
  assert (∀ u, 0 <= u < 10 →
    allDigits (String (toByte (0x30 + u)) EmptyString) = true
    ∧ readDigits 0 (String (toByte (0x30 + u)) EmptyString) = u
    ∧ (1 <= String.length (String (toByte (0x30 + u)) EmptyString))%nat
    ∧ ∀ k : nat, (1 <= k)%nat →
        (u < 10 ^ Z.of_nat k
         ↔ (String.length (String (toByte (0x30 + u)) EmptyString) <= k)%nat)) as Hone.
  { intros u Hu. cbn [allDigits readDigits String.length andb].
    rewrite digit_byte by lia.
    split; [|split; [|split]].
    - apply andb_true_iff. split; [|reflexivity].
      apply andb_true_iff. split; apply Z.leb_le; lia.
    - lia.
    - lia.
    - intros k Hk1. split; [intros; lia|]. intros _.
      assert (10 ^ 1 <= 10 ^ Z.of_nat k) by (apply Z.pow_le_mono_r; lia). lia. }
  induction fuel as [|fuel IH]; intros u Hu.
  - cbn [fmtDigits]. destruct (Z.leb_spec 10 u) as [H10|H10]; [simpl in Hu; lia|].
    apply Hone. lia.
  - change (fmtDigits (S (S fuel)) u EmptyString)
      with (if 10 <=? u
            then fmtDigits (S fuel) (u / 10)
                   (String (toByte (0x30 + u - u / 10 * 10)) EmptyString)
            else String (toByte (0x30 + u)) EmptyString).
    destruct (Z.leb_spec 10 u) as [H10|H10]; [|apply Hone; lia].
    assert (0 <= u / 10 < 10 ^ Z.of_nat (S fuel)) as Hq.
    { rewrite (Nat2Z.inj_succ (S fuel)), Z.pow_succ_r in Hu by lia.
      split; [apply Z.div_pos; lia | apply Z.div_lt_upper_bound; lia]. }
    destruct (IH _ Hq) as (Hd & Hr & Hl & Hk).
    pose proof (Z.div_mod u 10 ltac:(lia)) as Hdm.
    pose proof (Z.mod_pos_bound u 10 ltac:(lia)) as Hm.
    assert (0x30 + u - u / 10 * 10 = 0x30 + u mod 10) as -> by lia.
    rewrite fmtDigits_buf.
    rewrite allDigits_app, readDigits_app, length_append, Hd, Hr.
    cbn [allDigits readDigits String.length andb]. rewrite digit_byte by lia.
    split; [|split; [|split]].
    + apply andb_true_iff. split; [|reflexivity].
      apply andb_true_iff. split; apply Z.leb_le; lia.
    + lia.
    + lia.
    + intros [|k] Hk1; [lia|].
      destruct k as [|k].
      { change (10 ^ Z.of_nat 1) with 10. split; intros; lia. }
      specialize (Hk (S k) ltac:(lia)).
      rewrite (Nat2Z.inj_succ (S k)), Z.pow_succ_r by lia.
      split.
      * intros Hlt. assert (u / 10 < 10 ^ Z.of_nat (S k)) as Hq'.
        { apply Z.div_lt_upper_bound; lia. }
        apply Hk in Hq'. lia.
      * intros Hlen. assert (u / 10 < 10 ^ Z.of_nat (S k)) as Hq'.
        { apply Hk. lia. }
        lia.
Qed.

Lemma allDigits_allASCII s : allDigits s = true → allASCII s = true.
Proof.
  induction s as [|c s IH]; [reflexivity|]. cbn [allDigits allASCII].
  intros H. apply andb_true_iff in H as [Hc Hs]. rewrite (IH Hs), andb_true_r.
  apply andb_true_iff in Hc as [_ Hc]. apply Z.leb_le in Hc.
  apply Z.ltb_lt. unfold RuneSelf. lia.
Qed.

Lemma RuneCountInString_ascii s :
  allASCII s = true → RuneCountInString s = String.length s.
Proof.
  unfold RuneCountInString. induction s as [|c s IH]; [reflexivity|].
  cbn [allASCII]. intros H. apply andb_true_iff in H as [Hc Hs].
  apply Z.ltb_lt in Hc. unfold RuneSelf in Hc.
  rewrite rangeString_ascii by exact Hc. cbn [length String.length].
  rewrite (IH Hs). reflexivity.
Qed.

Lemma length_writePadding n : String.length (writePadding n) = n.
Proof. induction n as [|n IH]; simpl; [reflexivity | rewrite IH; reflexivity]. Qed.

Lemma fmtInteger_nonneg v :
  0 <= v → fmtInteger v = fmtDigits 20 v EmptyString.
Proof.
  intros H. unfold fmtInteger.
  assert ((v <? 0) = false) as -> by (apply Z.ltb_ge; lia). reflexivity.
Qed.

End FmtFacts.
(** ** Chunks and ASCII case *)

Section CaseChunks.

Variable letterTable : rune -> bool.
Variable lowerTable : rune -> rune.

Lemma chunksLoop_lowerBytes bufLen fuel : ∀ piece,
  chunksLoop fuel bufLen (lowerBytes piece)
  = map lowerBytes (chunksLoop fuel bufLen piece).
Proof.
  induction fuel as [|fuel IH]; intros piece; cbn [chunksLoop]; [reflexivity|].
  rewrite length_lowerBytes.
  destruct (String.length piece <=? bufLen)%nat; [reflexivity|].
  cbn [map]. rewrite takeS_lowerBytes, dropS_lowerBytes, IH. reflexivity.
Qed.

Lemma fileReads_lowerBytes bufLen pieces :
  fileReads bufLen (map lowerBytes pieces)
  = map lowerBytes (fileReads bufLen pieces).
Proof.
  induction pieces as [|p pieces IH]; [reflexivity|].
  cbn [map]. rewrite !fileReads_cons, map_app, IH. f_equal.
  unfold chunks. rewrite length_lowerBytes. apply chunksLoop_lowerBytes.
Qed.

Lemma tokens_lowerBytes reads :
  flat_map (chunkTokens letterTable lowerTable) (map lowerBytes reads)
  = flat_map (chunkTokens letterTable lowerTable) reads.
Proof.
  induction reads as [|c reads IH]; [reflexivity|].
  cbn [map flat_map]. rewrite IH, chunkTokens_lowerBytes. reflexivity.
Qed.

Lemma decodedRune_ascii c :
  byteVal c < 0x80 → decodedRune (byteVal c, String c EmptyString) = true.
Proof.
  intros H. unfold decodedRune, RuneError. cbn [fst snd].
  assert ((byteVal c =? 65533) = false) as -> by (apply Z.eqb_neq; lia).
  reflexivity.
Qed.

Lemma allASCII_valid s : allASCII s = true → validString s = true.
Proof.
  unfold validString. induction s as [|c s IH]; [reflexivity|].
  cbn [allASCII]. intros H. apply andb_true_iff in H as [Hc Hs].
  apply Z.ltb_lt in Hc. unfold RuneSelf in Hc.
  rewrite rangeString_ascii by exact Hc. cbn [forallb].
  rewrite decodedRune_ascii by exact Hc. apply (IH Hs).
Qed.

(** The runes of chunks that are each valid are the runes of their
    concatenation. *)
Lemma rangeString_concat_valid chunks :
  Forall (λ c, validString c = true) chunks →
  rangeString (concatS chunks) = flat_map rangeString chunks.
Proof.
  induction 1 as [|c chunks Hc _ IH]; [reflexivity|].
  rewrite concatS_cons. cbn [flat_map].
  rewrite (rangeString_app_valid (String.length c)) by (lia || exact Hc).
  rewrite IH. reflexivity.
Qed.

End CaseChunks.
(** ** UTF-8 *)



Section BitFacts.

Lemma land_shiftl_low x y k :
  0 <= k → 0 <= y < 2 ^ k → Z.land (Z.shiftl x k) y = 0.
Proof.
  intros Hk Hy. apply Z.bits_inj'. intros n Hn.
  rewrite Z.land_spec, Z.bits_0.
  destruct (Z.lt_ge_cases n k) as [Hlt|Hge].
  - rewrite Z.shiftl_spec_low by exact Hlt. reflexivity.
  - destruct (Z.eq_dec y 0) as [->|Hy0]; [rewrite Z.bits_0, andb_false_r; reflexivity|].
    rewrite (Z.bits_above_log2 y n), andb_false_r; [reflexivity | lia |].
    assert (Z.log2 y < k) by (apply Z.log2_lt_pow2; lia). lia.
Qed.

(** Joining a high part and a low part that do not overlap. *)
Lemma lor_shiftl x y k :
  0 <= k → 0 <= y < 2 ^ k → Z.lor (Z.shiftl x k) y = x * 2 ^ k + y.
Proof.
  intros Hk Hy. pose proof (Z.add_lor_land (Z.shiftl x k) y) as H.
  rewrite land_shiftl_low in H by assumption.
  rewrite Z.shiftl_mul_pow2 in H |- * by exact Hk. lia.
Qed.

Lemma lor_add x y k :
  0 <= k → 0 <= y < 2 ^ k → x mod 2 ^ k = 0 → Z.lor x y = x + y.
Proof.
  intros Hk Hy Hx.
  pose proof (Z.div_mod x (2 ^ k) ltac:(lia)) as Hd. rewrite Hx, Z.add_0_r in Hd.
  rewrite Hd at 1. rewrite Z.mul_comm, <- Z.shiftl_mul_pow2 by exact Hk.
  rewrite lor_shiftl by assumption. lia.
Qed.

Lemma land_mask x k : 0 <= k → Z.land x (2 ^ k - 1) = x mod 2 ^ k.
Proof.
  intros Hk. rewrite <- Z.land_ones by exact Hk.
  rewrite Z.ones_equiv. reflexivity.
Qed.

Lemma toByte_byteVal c : toByte (byteVal c) = c.
Proof.
  unfold toByte, byteVal. pose proof (byteVal_range c) as Hr. unfold byteVal in Hr.
  rewrite Z.mod_small by exact Hr. rewrite N2Z.id. apply ascii_N_embedding.
Qed.

Lemma first_lead b :
  (0xC2 <= b < 0xE0 → first b = s1)
  ∧ (b = 0xE0 → first b = s2)
  ∧ (0xE1 <= b < 0xED ∨ 0xEE <= b < 0xF0 → first b = s3)
  ∧ (b = 0xED → first b = s4)
  ∧ (b = 0xF0 → first b = s5)
  ∧ (0xF1 <= b < 0xF4 → first b = s6)
  ∧ (b = 0xF4 → first b = s7).
Proof.
  unfold first.
  repeat split; intros H;
    repeat match goal with
    | |- context [?x <? ?y] => destruct (Z.ltb_spec x y); try lia
    | |- context [?x =? ?y] => destruct (Z.eqb_spec x y); try lia
    end; reflexivity.
Qed.

End BitFacts.
Section DecodeShapes.

Lemma mask_values :
  maskx = 2 ^ 6 - 1 ∧ mask2 = 2 ^ 5 - 1 ∧ mask3 = 2 ^ 4 - 1 ∧ mask4 = 2 ^ 3 - 1.
Proof. repeat split; reflexivity. Qed.

Lemma land_cont b : 0x80 <= b <= 0xBF → Z.land b maskx = b - 0x80.
Proof.
  intros H. rewrite (proj1 mask_values), land_mask by lia.
  symmetry. apply (Z.mod_unique b (2 ^ 6) 2); lia.
Qed.

Lemma land_lead2 b : 0xC0 <= b <= 0xDF → Z.land b mask2 = b - 0xC0.
Proof.
  intros H. rewrite (proj1 (proj2 mask_values)), land_mask by lia.
  symmetry. apply (Z.mod_unique b (2 ^ 5) 6); lia.
Qed.

Lemma land_lead3 b : 0xE0 <= b <= 0xEF → Z.land b mask3 = b - 0xE0.
Proof.
  intros H. rewrite (proj1 (proj2 (proj2 mask_values))), land_mask by lia.
  symmetry. apply (Z.mod_unique b (2 ^ 4) 14); lia.
Qed.

Lemma land_lead4 b : 0xF0 <= b <= 0xF7 → Z.land b mask4 = b - 0xF0.
Proof.
  intros H. rewrite (proj2 (proj2 (proj2 mask_values))), land_mask by lia.
  symmetry. apply (Z.mod_unique b (2 ^ 3) 30); lia.
Qed.

(** Settles the comparisons of the goal from the bounds at hand. *)
Ltac settle :=
  repeat match goal with
  | |- context [?x <? ?y] => destruct (Z.ltb_spec x y); try lia
  | |- context [?x <=? ?y] => destruct (Z.leb_spec x y); try lia
  | |- context [?x =? ?y] => destruct (Z.eqb_spec x y); try lia
  end.

(** The decoder on a well-formed encoding of two, three and four
    bytes. *)
Lemma decode_two c0 c1 t :
  0xC2 <= byteVal c0 < 0xE0 → 0x80 <= byteVal c1 <= 0xBF →
  DecodeRuneInString (String c0 (String c1 t))
  = ((byteVal c0 - 0xC0) * 2 ^ 6 + (byteVal c1 - 0x80), 2%nat).
Proof.
  intros H0 H1. unfold DecodeRuneInString.
  rewrite (proj1 (first_lead (byteVal c0)) H0).
  change (as_ <=? s1) with false. cbv iota.
  change (Z.land s1 7) with 2. change (acceptRanges (Z.shiftr s1 4)) with (locb, hicb).
  cbn [fst snd String.length]. unfold locb, hicb.
  assert ((Z.of_nat (S (S (String.length t))) <? 2) = false) as ->
    by (apply Z.ltb_ge; lia).
  assert ((byteVal c1 <? 128) = false) as -> by (apply Z.ltb_ge; lia).
  assert ((191 <? byteVal c1) = false) as -> by (apply Z.ltb_ge; lia).
  cbn [orb]. change (2 <=? 2) with true. cbv iota.
  rewrite land_lead2, land_cont by lia.
  rewrite lor_shiftl by lia. reflexivity.
Qed.

Lemma decode_three c0 c1 c2 t :
  (byteVal c0 = 0xE0 ∧ 0xA0 <= byteVal c1 <= 0xBF)
  ∨ ((0xE1 <= byteVal c0 < 0xED ∨ 0xEE <= byteVal c0 < 0xF0)
     ∧ 0x80 <= byteVal c1 <= 0xBF)
  ∨ (byteVal c0 = 0xED ∧ 0x80 <= byteVal c1 <= 0x9F) →
  0x80 <= byteVal c2 <= 0xBF →
  DecodeRuneInString (String c0 (String c1 (String c2 t)))
  = ((byteVal c0 - 0xE0) * 2 ^ 12 + (byteVal c1 - 0x80) * 2 ^ 6
     + (byteVal c2 - 0x80), 3%nat).
Proof.
  intros H01 H2. unfold DecodeRuneInString.
  destruct (first_lead (byteVal c0)) as (_ & F2 & F3 & F4 & _).
  assert (∃ x, first (byteVal c0) = x
               ∧ (as_ <=? x) = false ∧ Z.land x 7 = 3
               ∧ ((byteVal c1 <? fst (acceptRanges (Z.shiftr x 4)))
                  || (snd (acceptRanges (Z.shiftr x 4)) <? byteVal c1)) = false)
    as (x & -> & -> & -> & ->).
  { destruct H01 as [[E H1]|[[E H1]|[E H1]]].
    - exists s2. rewrite (F2 E).
      split; [reflexivity|split; [reflexivity|split; [reflexivity|]]].
      change (acceptRanges (Z.shiftr s2 4)) with (0xA0, hicb). unfold hicb.
      cbn [fst snd]. settle; try reflexivity.
    - exists s3. rewrite (F3 E).
      split; [reflexivity|split; [reflexivity|split; [reflexivity|]]].
      change (acceptRanges (Z.shiftr s3 4)) with (locb, hicb). unfold locb, hicb.
      cbn [fst snd]. settle; try reflexivity.
    - exists s4. rewrite (F4 E).
      split; [reflexivity|split; [reflexivity|split; [reflexivity|]]].
      change (acceptRanges (Z.shiftr s4 4)) with (locb, 0x9F). unfold locb.
      cbn [fst snd]. settle; try reflexivity. }
  cbn [String.length]. unfold locb, hicb.
  assert ((Z.of_nat (S (S (S (String.length t)))) <? 3) = false) as ->
    by (apply Z.ltb_ge; lia).
  assert ((byteVal c2 <? 128) = false) as -> by (apply Z.ltb_ge; lia).
  assert ((191 <? byteVal c2) = false) as -> by (apply Z.ltb_ge; lia).
  cbn [orb]. change (3 <=? 2) with false. change (3 <=? 3) with true. cbv iota.
  assert (0xE0 <= byteVal c0 <= 0xEF) as H0 by lia.
  assert (0x80 <= byteVal c1 <= 0xBF) as H1 by lia.
  rewrite land_lead3, !land_cont by lia.
  rewrite !Z.shiftl_mul_pow2 by lia.
  rewrite (lor_add ((byteVal c0 - 224) * 2 ^ 12) ((byteVal c1 - 128) * 2 ^ 6) 12)
    by (try apply Z.mod_mul; lia).
  rewrite (lor_add _ _ 6); [reflexivity | lia | lia |].
  symmetry.
  apply (Z.mod_unique _ _ ((byteVal c0 - 224) * 2 ^ 6 + (byteVal c1 - 128))); lia.
Qed.

Lemma decode_four c0 c1 c2 c3 t :
  (byteVal c0 = 0xF0 ∧ 0x90 <= byteVal c1 <= 0xBF)
  ∨ (0xF1 <= byteVal c0 < 0xF4 ∧ 0x80 <= byteVal c1 <= 0xBF)
  ∨ (byteVal c0 = 0xF4 ∧ 0x80 <= byteVal c1 <= 0x8F) →
  0x80 <= byteVal c2 <= 0xBF →
  0x80 <= byteVal c3 <= 0xBF →
  DecodeRuneInString (String c0 (String c1 (String c2 (String c3 t))))
  = ((byteVal c0 - 0xF0) * 2 ^ 18 + (byteVal c1 - 0x80) * 2 ^ 12
     + (byteVal c2 - 0x80) * 2 ^ 6 + (byteVal c3 - 0x80), 4%nat).
Proof.
  intros H01 H2 H3. unfold DecodeRuneInString.
  destruct (first_lead (byteVal c0)) as (_ & _ & _ & _ & F5 & F6 & F7).
  assert (∃ x, first (byteVal c0) = x
               ∧ (as_ <=? x) = false ∧ Z.land x 7 = 4
               ∧ ((byteVal c1 <? fst (acceptRanges (Z.shiftr x 4)))
                  || (snd (acceptRanges (Z.shiftr x 4)) <? byteVal c1)) = false)
    as (x & -> & -> & -> & ->).
  { destruct H01 as [[E H1]|[[E H1]|[E H1]]].
    - exists s5. rewrite (F5 E).
      split; [reflexivity|split; [reflexivity|split; [reflexivity|]]].
      change (acceptRanges (Z.shiftr s5 4)) with (0x90, hicb). unfold hicb.
      cbn [fst snd]. settle; try reflexivity.
    - exists s6. rewrite (F6 E).
      split; [reflexivity|split; [reflexivity|split; [reflexivity|]]].
      change (acceptRanges (Z.shiftr s6 4)) with (locb, hicb). unfold locb, hicb.
      cbn [fst snd]. settle; try reflexivity.
    - exists s7. rewrite (F7 E).
      split; [reflexivity|split; [reflexivity|split; [reflexivity|]]].
      change (acceptRanges (Z.shiftr s7 4)) with (locb, 0x8F). unfold locb.
      cbn [fst snd]. settle; try reflexivity. }
  cbn [String.length]. unfold locb, hicb.
  assert ((Z.of_nat (S (S (S (S (String.length t))))) <? 4) = false) as ->
    by (apply Z.ltb_ge; lia).
  assert ((byteVal c2 <? 128) = false) as -> by (apply Z.ltb_ge; lia).
  assert ((191 <? byteVal c2) = false) as -> by (apply Z.ltb_ge; lia).
  assert ((byteVal c3 <? 128) = false) as -> by (apply Z.ltb_ge; lia).
  assert ((191 <? byteVal c3) = false) as -> by (apply Z.ltb_ge; lia).
  cbn [orb]. change (4 <=? 2) with false. change (4 <=? 3) with false. cbv iota.
  assert (0xF0 <= byteVal c0 <= 0xF4) as H0 by lia.
  assert (0x80 <= byteVal c1 <= 0xBF) as H1 by lia.
  rewrite land_lead4, !land_cont by lia.
  rewrite !Z.shiftl_mul_pow2 by lia.
  rewrite (lor_add ((byteVal c0 - 240) * 2 ^ 18) ((byteVal c1 - 128) * 2 ^ 12) 18)
    by (try apply Z.mod_mul; lia).
  rewrite (lor_add ((byteVal c0 - 240) * 2 ^ 18 + (byteVal c1 - 128) * 2 ^ 12)
             ((byteVal c2 - 128) * 2 ^ 6) 12); [| lia | lia |].
  2:{ symmetry.
      apply (Z.mod_unique _ _ ((byteVal c0 - 240) * 2 ^ 6 + (byteVal c1 - 128))); lia. }
  rewrite (lor_add _ _ 6); [reflexivity | lia | lia |].
  symmetry.
  apply (Z.mod_unique _ _ ((byteVal c0 - 240) * 2 ^ 12 + (byteVal c1 - 128) * 2 ^ 6
                           + (byteVal c2 - 128))); lia.
Qed.

End DecodeShapes.
Section EncodeShapes.

Lemma lor_cont v : 0 <= v → Z.lor 0x80 (Z.land v maskx) = 0x80 + v mod 2 ^ 6.
Proof.
  intros Hv. rewrite (proj1 mask_values), land_mask by lia.
  pose proof (Z.mod_pos_bound v (2 ^ 6) ltac:(lia)).
  apply (lor_add _ _ 6); [lia | lia | reflexivity].
Qed.

Lemma encode_one r : 0 <= r <= 0x7F → EncodeRune r = String (toByte r) EmptyString.
Proof.
  intros H. unfold EncodeRune. rewrite Z.mod_small by lia.
  assert ((r <=? 127) = true) as -> by (apply Z.leb_le; lia). reflexivity.
Qed.

Lemma encode_two r :
  0x80 <= r <= 0x7FF →
  EncodeRune r
  = String (toByte (0xC0 + r / 2 ^ 6))
      (String (toByte (0x80 + r mod 2 ^ 6)) EmptyString).
Proof.
  intros H. unfold EncodeRune. rewrite Z.mod_small by lia.
  assert ((r <=? 127) = false) as -> by (apply Z.leb_gt; lia).
  assert ((r <=? 2047) = true) as -> by (apply Z.leb_le; lia).
  rewrite lor_cont by lia. rewrite Z.shiftr_div_pow2 by lia.
  rewrite (lor_add 0xC0 _ 5); [reflexivity | lia | | reflexivity].
  split; [apply Z.div_pos; lia | apply Z.div_lt_upper_bound; lia].
Qed.

Lemma encode3_bytes r :
  0 <= r <= 0xFFFF →
  encode3 r
  = String (toByte (0xE0 + r / 2 ^ 12))
      (String (toByte (0x80 + (r / 2 ^ 6) mod 2 ^ 6))
         (String (toByte (0x80 + r mod 2 ^ 6)) EmptyString)).
Proof.
  intros H. unfold encode3.
  rewrite !Z.shiftr_div_pow2 by lia.
  rewrite !lor_cont by (try apply Z.div_pos; lia).
  rewrite (lor_add 0xE0 _ 4); [reflexivity | lia | | reflexivity].
  split; [apply Z.div_pos; lia | apply Z.div_lt_upper_bound; lia].
Qed.

Lemma encode_three r :
  0x800 <= r <= 0xFFFF → ¬ (0xD800 <= r <= 0xDFFF) →
  EncodeRune r
  = String (toByte (0xE0 + r / 2 ^ 12))
      (String (toByte (0x80 + (r / 2 ^ 6) mod 2 ^ 6))
         (String (toByte (0x80 + r mod 2 ^ 6)) EmptyString)).
Proof.
  intros H Hs. unfold EncodeRune, MaxRune. rewrite Z.mod_small by lia.
  assert ((r <=? 127) = false) as -> by (apply Z.leb_gt; lia).
  assert ((r <=? 2047) = false) as -> by (apply Z.leb_gt; lia).
  assert ((1114111 <? r) = false) as -> by (apply Z.ltb_ge; lia).
  assert (((55296 <=? r) && (r <=? 57343)) = false) as ->.
  { destruct (Z.leb_spec 55296 r), (Z.leb_spec r 57343); try reflexivity. lia. }
  assert ((r <=? 65535) = true) as -> by (apply Z.leb_le; lia).
  cbn [orb]. cbv iota. apply encode3_bytes. lia.
Qed.

Lemma encode_four r :
  0x10000 <= r <= 0x10FFFF →
  EncodeRune r
  = String (toByte (0xF0 + r / 2 ^ 18))
      (String (toByte (0x80 + (r / 2 ^ 12) mod 2 ^ 6))
         (String (toByte (0x80 + (r / 2 ^ 6) mod 2 ^ 6))
            (String (toByte (0x80 + r mod 2 ^ 6)) EmptyString))).
Proof.
  intros H. unfold EncodeRune, MaxRune. rewrite Z.mod_small by lia.
  assert ((r <=? 127) = false) as -> by (apply Z.leb_gt; lia).
  assert ((r <=? 2047) = false) as -> by (apply Z.leb_gt; lia).
  assert ((1114111 <? r) = false) as -> by (apply Z.ltb_ge; lia).
  assert (((55296 <=? r) && (r <=? 57343)) = false) as ->.
  { destruct (Z.leb_spec 55296 r), (Z.leb_spec r 57343); try reflexivity. lia. }
  assert ((r <=? 65535) = false) as -> by (apply Z.leb_gt; lia).
  cbn [orb]. cbv iota.
  rewrite !Z.shiftr_div_pow2 by lia.
  rewrite !lor_cont by (try apply Z.div_pos; lia).
  rewrite (lor_add 0xF0 _ 3); [reflexivity | lia | | reflexivity].
  split; [apply Z.div_pos; lia | apply Z.div_lt_upper_bound; lia].
Qed.

(** A value that is no Unicode scalar value is encoded as U+FFFD. *)
Lemma encode_invalid r :
  0 <= r < 2 ^ 32 → ValidRune r = false → EncodeRune r = encode3 RuneError.
Proof.
  intros H Hv. unfold ValidRune, MaxRune in Hv. unfold EncodeRune, MaxRune.
  rewrite Z.mod_small by lia.
  apply orb_false_iff in Hv as [Hv1 Hv2].
  assert ((0 <=? r) = true) as E0 by (apply Z.leb_le; lia).
  rewrite E0 in Hv1. cbn [andb] in Hv1. apply Z.ltb_ge in Hv1.
  assert ((r <=? 127) = false) as -> by (apply Z.leb_gt; lia).
  assert ((r <=? 2047) = false) as -> by (apply Z.leb_gt; lia).
  destruct (Z.ltb_spec 1114111 r) as [Hbig|Hsmall]; [reflexivity|].
  assert ((r <=? 1114111) = true) as E1 by (apply Z.leb_le; lia).
  rewrite E1, andb_true_r in Hv2. apply Z.ltb_ge in Hv2.
  assert ((55296 <=? r) = true) as -> by (apply Z.leb_le; lia).
  assert ((r <=? 57343) = true) as -> by (apply Z.leb_le; lia).
  reflexivity.
Qed.

Lemma ValidRune_cases r :
  ValidRune r = true →
  0 <= r <= 0x7F ∨ 0x80 <= r <= 0x7FF
  ∨ (0x800 <= r <= 0xFFFF ∧ ¬ (0xD800 <= r <= 0xDFFF))
  ∨ 0x10000 <= r <= 0x10FFFF.
Proof.
  unfold ValidRune, MaxRune. intros H.
  apply orb_true_iff in H as [H|H]; apply andb_true_iff in H as [H1 H2].
  - apply Z.leb_le in H1. apply Z.ltb_lt in H2. lia.
  - apply Z.ltb_lt in H1. apply Z.leb_le in H2. lia.
Qed.

(** Decoding an encoding gives the rune back, whatever bytes follow. *)
Lemma DecodeRuneInString_EncodeRune r rest :
  ValidRune r = true →
  DecodeRuneInString (String.append (EncodeRune r) rest)
  = (r, String.length (EncodeRune r)).
Proof.
  intros Hv. destruct (ValidRune_cases r Hv) as [H|[H|[[H Hs]|H]]].
  - rewrite encode_one by exact H. rewrite append_cons, append_nil_l.
    rewrite DecodeRuneInString_ascii; rewrite byteVal_toByte by lia;
      [reflexivity | lia].
  - rewrite encode_two by exact H. rewrite !append_cons, append_nil_l.
    pose proof (Z.div_mod r (2 ^ 6) ltac:(lia)) as Hd.
    pose proof (Z.mod_pos_bound r (2 ^ 6) ltac:(lia)) as Hm.
    assert (2 <= r / 2 ^ 6 < 32) as Hq.
    { split; [apply Z.div_le_lower_bound; lia | apply Z.div_lt_upper_bound; lia]. }
    rewrite decode_two; rewrite !byteVal_toByte by lia; [|lia|lia].
    cbn [String.length]. f_equal. lia.
  - rewrite encode_three by assumption. rewrite !append_cons, append_nil_l.
    pose proof (Z.div_mod r (2 ^ 6) ltac:(lia)) as Hd.
    pose proof (Z.mod_pos_bound r (2 ^ 6) ltac:(lia)) as Hm.
    pose proof (Z.div_mod (r / 2 ^ 6) (2 ^ 6) ltac:(lia)) as Hd2.
    pose proof (Z.mod_pos_bound (r / 2 ^ 6) (2 ^ 6) ltac:(lia)) as Hm2.
    assert (r / 2 ^ 6 / 2 ^ 6 = r / 2 ^ 12) as Hdd.
    { rewrite Z.div_div by lia. reflexivity. }
    rewrite Hdd in Hd2.
    assert (0 <= r / 2 ^ 12 < 16) as Hq.
    { split; [apply Z.div_pos; lia | apply Z.div_lt_upper_bound; lia]. }
    rewrite decode_three; rewrite !byteVal_toByte by lia; [|lia|lia].
    cbn [String.length]. f_equal. lia.
  - rewrite encode_four by assumption. rewrite !append_cons, append_nil_l.
    pose proof (Z.div_mod r (2 ^ 6) ltac:(lia)) as Hd.
    pose proof (Z.mod_pos_bound r (2 ^ 6) ltac:(lia)) as Hm.
    pose proof (Z.div_mod (r / 2 ^ 6) (2 ^ 6) ltac:(lia)) as Hd2.
    pose proof (Z.mod_pos_bound (r / 2 ^ 6) (2 ^ 6) ltac:(lia)) as Hm2.
    pose proof (Z.div_mod (r / 2 ^ 12) (2 ^ 6) ltac:(lia)) as Hd3.
    pose proof (Z.mod_pos_bound (r / 2 ^ 12) (2 ^ 6) ltac:(lia)) as Hm3.
    assert (r / 2 ^ 6 / 2 ^ 6 = r / 2 ^ 12) as Hdd.
    { rewrite Z.div_div by lia. reflexivity. }
    assert (r / 2 ^ 12 / 2 ^ 6 = r / 2 ^ 18) as Hdd3.
    { rewrite Z.div_div by lia. reflexivity. }
    rewrite Hdd in Hd2. rewrite Hdd3 in Hd3.
    assert (0 <= r / 2 ^ 18 <= 4) as Hq.
    { split; [apply Z.div_pos; lia|].
      apply Z.lt_succ_r. apply Z.div_lt_upper_bound; lia. }
    rewrite decode_four; rewrite !byteVal_toByte by lia; [|lia|lia|lia].
    cbn [String.length]. f_equal. lia.
Qed.

End EncodeShapes.
Section DecodeInversion.

Lemma first_inv b :
  0 <= b < 256 →
  (b < 0x80 ∧ first b = as_)
  ∨ first b = xx
  ∨ (0xC2 <= b < 0xE0 ∧ first b = s1)
  ∨ (b = 0xE0 ∧ first b = s2)
  ∨ ((0xE1 <= b < 0xED ∨ 0xEE <= b < 0xF0) ∧ first b = s3)
  ∨ (b = 0xED ∧ first b = s4)
  ∨ (b = 0xF0 ∧ first b = s5)
  ∨ (0xF1 <= b < 0xF4 ∧ first b = s6)
  ∨ (b = 0xF4 ∧ first b = s7).
Proof.
  intros Hb. unfold first.
  repeat match goal with
  | |- context [?x <? ?y] => destruct (Z.ltb_spec x y)
  | |- context [?x =? ?y] => destruct (Z.eqb_spec x y)
  end; try lia; intuition lia.
Qed.

(** The shapes of a string whose first rune is decoded without
    error. *)
Lemma DecodeRuneInString_shape c t r w :
  DecodeRuneInString (String c t) = (r, w) →
  decodedRune (r, takeS w (String c t)) = true →
  (byteVal c < 0x80 ∧ w = 1%nat)
  ∨ (∃ c1 t1, t = String c1 t1 ∧ w = 2%nat
       ∧ 0xC2 <= byteVal c < 0xE0 ∧ 0x80 <= byteVal c1 <= 0xBF)
  ∨ (∃ c1 c2 t2, t = String c1 (String c2 t2) ∧ w = 3%nat
       ∧ ((byteVal c = 0xE0 ∧ 0xA0 <= byteVal c1 <= 0xBF)
          ∨ ((0xE1 <= byteVal c < 0xED ∨ 0xEE <= byteVal c < 0xF0)
             ∧ 0x80 <= byteVal c1 <= 0xBF)
          ∨ (byteVal c = 0xED ∧ 0x80 <= byteVal c1 <= 0x9F))
       ∧ 0x80 <= byteVal c2 <= 0xBF)
  ∨ (∃ c1 c2 c3 t3, t = String c1 (String c2 (String c3 t3)) ∧ w = 4%nat
       ∧ ((byteVal c = 0xF0 ∧ 0x90 <= byteVal c1 <= 0xBF)
          ∨ (0xF1 <= byteVal c < 0xF4 ∧ 0x80 <= byteVal c1 <= 0xBF)
          ∨ (byteVal c = 0xF4 ∧ 0x80 <= byteVal c1 <= 0x8F))
       ∧ 0x80 <= byteVal c2 <= 0xBF
       ∧ 0x80 <= byteVal c3 <= 0xBF).
Proof.
  unfold DecodeRuneInString, decodedRune. cbn [fst snd].
  pose proof (byteVal_range c) as Hc.
  assert (∀ rr, (RuneError, 1%nat) = (r, w) →
                negb (r =? RuneError)
                || negb (String.length (takeS w (String c rr)) =? 1)%nat = true →
                False) as Herr.
  { intros rr [= <- <-]. simpl. discriminate. }
  destruct (first_inv (byteVal c) Hc)
    as [[H ->]|[->|[[H ->]|[[H ->]|[[H ->]|[[H ->]|[[H ->]|[[H ->]|[H ->]]]]]]]]].
  - intros [= <- <-] _. left. split; [exact H | reflexivity].
  - change (as_ <=? xx) with true. cbv iota. change (xx =? xx) with true. cbv iota.
    intros E D. destruct (Herr t E D).
  - change (as_ <=? s1) with false. cbv iota.
    change (Z.land s1 7) with 2. change (acceptRanges (Z.shiftr s1 4)) with (locb, hicb).
    unfold locb, hicb. cbn [fst snd].
    destruct (Z.of_nat (String.length (String c t)) <? 2);
      [intros E D; destruct (Herr t E D)|].
    destruct t as [|c1 t1]; [intros E D; destruct (Herr _ E D)|].
    destruct (Z.ltb_spec (byteVal c1) 128); cbn [orb];
      [intros E D; destruct (Herr _ E D)|].
    destruct (Z.ltb_spec 191 (byteVal c1)); [intros E D; destruct (Herr _ E D)|].
    change (2 <=? 2) with true. cbv iota.
    intros [= <- <-] _. right. left. exists c1, t1. repeat split; lia.
  - change (as_ <=? s2) with false. cbv iota.
    change (Z.land s2 7) with 3. change (acceptRanges (Z.shiftr s2 4)) with (0xA0, hicb).
    unfold locb, hicb. cbn [fst snd].
    destruct (Z.of_nat (String.length (String c t)) <? 3);
      [intros E D; destruct (Herr t E D)|].
    destruct t as [|c1 t1]; [intros E D; destruct (Herr _ E D)|].
    destruct (Z.ltb_spec (byteVal c1) 160); cbn [orb];
      [intros E D; destruct (Herr _ E D)|].
    destruct (Z.ltb_spec 191 (byteVal c1)); [intros E D; destruct (Herr _ E D)|].
    change (3 <=? 2) with false. cbv iota.
    destruct t1 as [|c2 t2]; [intros E D; destruct (Herr _ E D)|].
    destruct (Z.ltb_spec (byteVal c2) 128); cbn [orb];
      [intros E D; destruct (Herr _ E D)|].
    destruct (Z.ltb_spec 191 (byteVal c2)); [intros E D; destruct (Herr _ E D)|].
    change (3 <=? 3) with true. cbv iota.
    intros [= <- <-] _. right. right. left. exists c1, c2, t2.
    split; [reflexivity|]. split; [reflexivity|]. split; [left; lia | lia].
  - change (as_ <=? s3) with false. cbv iota.
    change (Z.land s3 7) with 3. change (acceptRanges (Z.shiftr s3 4)) with (locb, hicb).
    unfold locb, hicb. cbn [fst snd].
    destruct (Z.of_nat (String.length (String c t)) <? 3);
      [intros E D; destruct (Herr t E D)|].
    destruct t as [|c1 t1]; [intros E D; destruct (Herr _ E D)|].
    destruct (Z.ltb_spec (byteVal c1) 128); cbn [orb];
      [intros E D; destruct (Herr _ E D)|].
    destruct (Z.ltb_spec 191 (byteVal c1)); [intros E D; destruct (Herr _ E D)|].
    change (3 <=? 2) with false. cbv iota.
    destruct t1 as [|c2 t2]; [intros E D; destruct (Herr _ E D)|].
    destruct (Z.ltb_spec (byteVal c2) 128); cbn [orb];
      [intros E D; destruct (Herr _ E D)|].
    destruct (Z.ltb_spec 191 (byteVal c2)); [intros E D; destruct (Herr _ E D)|].
    change (3 <=? 3) with true. cbv iota.
    intros [= <- <-] _. right. right. left. exists c1, c2, t2.
    split; [reflexivity|]. split; [reflexivity|].
    split; [right; left; split; [exact H | lia] | lia].
  - change (as_ <=? s4) with false. cbv iota.
    change (Z.land s4 7) with 3. change (acceptRanges (Z.shiftr s4 4)) with (locb, 0x9F).
    unfold locb, hicb. cbn [fst snd].
    destruct (Z.of_nat (String.length (String c t)) <? 3);
      [intros E D; destruct (Herr t E D)|].
    destruct t as [|c1 t1]; [intros E D; destruct (Herr _ E D)|].
    destruct (Z.ltb_spec (byteVal c1) 128); cbn [orb];
      [intros E D; destruct (Herr _ E D)|].
    destruct (Z.ltb_spec 159 (byteVal c1)); [intros E D; destruct (Herr _ E D)|].
    change (3 <=? 2) with false. cbv iota.
    destruct t1 as [|c2 t2]; [intros E D; destruct (Herr _ E D)|].
    destruct (Z.ltb_spec (byteVal c2) 128); cbn [orb];
      [intros E D; destruct (Herr _ E D)|].
    destruct (Z.ltb_spec 191 (byteVal c2)); [intros E D; destruct (Herr _ E D)|].
    change (3 <=? 3) with true. cbv iota.
    intros [= <- <-] _. right. right. left. exists c1, c2, t2.
    split; [reflexivity|]. split; [reflexivity|]. split; [right; right; lia | lia].
  - change (as_ <=? s5) with false. cbv iota.
    change (Z.land s5 7) with 4. change (acceptRanges (Z.shiftr s5 4)) with (0x90, hicb).
    unfold locb, hicb. cbn [fst snd].
    destruct (Z.of_nat (String.length (String c t)) <? 4);
      [intros E D; destruct (Herr t E D)|].
    destruct t as [|c1 t1]; [intros E D; destruct (Herr _ E D)|].
    destruct (Z.ltb_spec (byteVal c1) 144); cbn [orb];
      [intros E D; destruct (Herr _ E D)|].
    destruct (Z.ltb_spec 191 (byteVal c1)); [intros E D; destruct (Herr _ E D)|].
    change (4 <=? 2) with false. cbv iota.
    destruct t1 as [|c2 t2]; [intros E D; destruct (Herr _ E D)|].
    destruct (Z.ltb_spec (byteVal c2) 128); cbn [orb];
      [intros E D; destruct (Herr _ E D)|].
    destruct (Z.ltb_spec 191 (byteVal c2)); [intros E D; destruct (Herr _ E D)|].
    change (4 <=? 3) with false. cbv iota.
    destruct t2 as [|c3 t3]; [intros E D; destruct (Herr _ E D)|].
    destruct (Z.ltb_spec (byteVal c3) 128); cbn [orb];
      [intros E D; destruct (Herr _ E D)|].
    destruct (Z.ltb_spec 191 (byteVal c3)); [intros E D; destruct (Herr _ E D)|].
    intros [= <- <-] _. right. right. right. exists c1, c2, c3, t3.
    split; [reflexivity|]. split; [reflexivity|]. split; [left; lia | lia].
  - change (as_ <=? s6) with false. cbv iota.
    change (Z.land s6 7) with 4. change (acceptRanges (Z.shiftr s6 4)) with (locb, hicb).
    unfold locb, hicb. cbn [fst snd].
    destruct (Z.of_nat (String.length (String c t)) <? 4);
      [intros E D; destruct (Herr t E D)|].
    destruct t as [|c1 t1]; [intros E D; destruct (Herr _ E D)|].
    destruct (Z.ltb_spec (byteVal c1) 128); cbn [orb];
      [intros E D; destruct (Herr _ E D)|].
    destruct (Z.ltb_spec 191 (byteVal c1)); [intros E D; destruct (Herr _ E D)|].
    change (4 <=? 2) with false. cbv iota.
    destruct t1 as [|c2 t2]; [intros E D; destruct (Herr _ E D)|].
    destruct (Z.ltb_spec (byteVal c2) 128); cbn [orb];
      [intros E D; destruct (Herr _ E D)|].
    destruct (Z.ltb_spec 191 (byteVal c2)); [intros E D; destruct (Herr _ E D)|].
    change (4 <=? 3) with false. cbv iota.
    destruct t2 as [|c3 t3]; [intros E D; destruct (Herr _ E D)|].
    destruct (Z.ltb_spec (byteVal c3) 128); cbn [orb];
      [intros E D; destruct (Herr _ E D)|].
    destruct (Z.ltb_spec 191 (byteVal c3)); [intros E D; destruct (Herr _ E D)|].
    intros [= <- <-] _. right. right. right. exists c1, c2, c3, t3.
    split; [reflexivity|]. split; [reflexivity|].
    split; [right; left; split; [exact H | lia] | lia].
  - change (as_ <=? s7) with false. cbv iota.
    change (Z.land s7 7) with 4. change (acceptRanges (Z.shiftr s7 4)) with (locb, 0x8F).
    unfold locb, hicb. cbn [fst snd].
    destruct (Z.of_nat (String.length (String c t)) <? 4);
      [intros E D; destruct (Herr t E D)|].
    destruct t as [|c1 t1]; [intros E D; destruct (Herr _ E D)|].
    destruct (Z.ltb_spec (byteVal c1) 128); cbn [orb];
      [intros E D; destruct (Herr _ E D)|].
    destruct (Z.ltb_spec 143 (byteVal c1)); [intros E D; destruct (Herr _ E D)|].
    change (4 <=? 2) with false. cbv iota.
    destruct t1 as [|c2 t2]; [intros E D; destruct (Herr _ E D)|].
    destruct (Z.ltb_spec (byteVal c2) 128); cbn [orb];
      [intros E D; destruct (Herr _ E D)|].
    destruct (Z.ltb_spec 191 (byteVal c2)); [intros E D; destruct (Herr _ E D)|].
    change (4 <=? 3) with false. cbv iota.
    destruct t2 as [|c3 t3]; [intros E D; destruct (Herr _ E D)|].
    destruct (Z.ltb_spec (byteVal c3) 128); cbn [orb];
      [intros E D; destruct (Herr _ E D)|].
    destruct (Z.ltb_spec 191 (byteVal c3)); [intros E D; destruct (Herr _ E D)|].
    intros [= <- <-] _. right. right. right. exists c1, c2, c3, t3.
    split; [reflexivity|]. split; [reflexivity|]. split; [right; right; lia | lia].
Qed.

End DecodeInversion.
Section RoundTrip.

Lemma div_mod_join a b k :
  0 <= k → 0 <= b < 2 ^ k →
  (a * 2 ^ k + b) / 2 ^ k = a ∧ (a * 2 ^ k + b) mod 2 ^ k = b.
Proof.
  intros Hk Hb. split.
  - symmetry. apply (Z.div_unique _ _ a b); lia.
  - symmetry. apply (Z.mod_unique _ _ a b); lia.
Qed.

Lemma ValidRune_intro r :
  0 <= r < 0xD800 ∨ 0xDFFF < r <= 0x10FFFF → ValidRune r = true.
Proof.
  unfold ValidRune, MaxRune. intros [H|H].
  - assert ((0 <=? r) = true) as -> by (apply Z.leb_le; lia).
    assert ((r <? 55296) = true) as -> by (apply Z.ltb_lt; lia). reflexivity.
  - assert ((57343 <? r) = true) as -> by (apply Z.ltb_lt; lia).
    assert ((r <=? 1114111) = true) as -> by (apply Z.leb_le; lia).
    apply orb_true_r.
Qed.

(** A rune decoded without error is a Unicode scalar value, and its
    encoding is the bytes it was decoded from. *)
Lemma EncodeRune_DecodeRuneInString c t r w :
  DecodeRuneInString (String c t) = (r, w) →
  decodedRune (r, takeS w (String c t)) = true →
  ValidRune r = true ∧ EncodeRune r = takeS w (String c t).
Proof.
  intros Hdec Hok.
  destruct (DecodeRuneInString_shape c t r w Hdec Hok)
    as [[H ->]|[(c1 & t1 & -> & -> & H0 & H1)
               |[(c1 & c2 & t2 & -> & -> & H01 & H2)
                |(c1 & c2 & c3 & t3 & -> & -> & H01 & H2 & H3)]]].
  - rewrite DecodeRuneInString_ascii in Hdec by exact H. injection Hdec as <-.
    pose proof (byteVal_range c) as Hc.
    split; [apply ValidRune_intro; lia|].
    rewrite encode_one by lia. rewrite toByte_byteVal. reflexivity.
  - rewrite decode_two in Hdec by assumption. injection Hdec as <-.
    destruct (div_mod_join (byteVal c - 192) (byteVal c1 - 128) 6 ltac:(lia) ltac:(lia))
      as [Hq Hm].
    split; [apply ValidRune_intro; lia|].
    rewrite encode_two by lia. rewrite Hq, Hm.
    replace (192 + (byteVal c - 192)) with (byteVal c) by lia.
    replace (128 + (byteVal c1 - 128)) with (byteVal c1) by lia.
    rewrite !toByte_byteVal. reflexivity.
  - rewrite decode_three in Hdec by assumption. injection Hdec as <-.
    assert (0xE0 <= byteVal c <= 0xEF) as H0 by lia.
    assert (0x80 <= byteVal c1 <= 0xBF) as H1 by lia.
    destruct (div_mod_join ((byteVal c - 224) * 2 ^ 6 + (byteVal c1 - 128))
                (byteVal c2 - 128) 6 ltac:(lia) ltac:(lia)) as [Hq Hm].
    destruct (div_mod_join (byteVal c - 224) (byteVal c1 - 128) 6 ltac:(lia) ltac:(lia))
      as [Hq1 Hm1].
    destruct (div_mod_join (byteVal c - 224)
                ((byteVal c1 - 128) * 2 ^ 6 + (byteVal c2 - 128)) 12
                ltac:(lia) ltac:(lia)) as [Hq2 _].
    replace (((byteVal c - 224) * 2 ^ 6 + (byteVal c1 - 128)) * 2 ^ 6
             + (byteVal c2 - 128))
      with ((byteVal c - 224) * 2 ^ 12 + (byteVal c1 - 128) * 2 ^ 6
            + (byteVal c2 - 128)) in Hq, Hm by lia.
    replace ((byteVal c - 224) * 2 ^ 12
             + ((byteVal c1 - 128) * 2 ^ 6 + (byteVal c2 - 128)))
      with ((byteVal c - 224) * 2 ^ 12 + (byteVal c1 - 128) * 2 ^ 6
            + (byteVal c2 - 128)) in Hq2 by lia.
    split; [apply ValidRune_intro; lia|].
    rewrite encode_three by lia. rewrite Hq, Hm, Hq2, Hm1.
    replace (224 + (byteVal c - 224)) with (byteVal c) by lia.
    replace (128 + (byteVal c1 - 128)) with (byteVal c1) by lia.
    replace (128 + (byteVal c2 - 128)) with (byteVal c2) by lia.
    rewrite !toByte_byteVal. reflexivity.
  - rewrite decode_four in Hdec by assumption. injection Hdec as <-.
    assert (0xF0 <= byteVal c <= 0xF4) as H0 by lia.
    assert (0x80 <= byteVal c1 <= 0xBF) as H1 by lia.
    set (A := byteVal c - 240) in *. set (B := byteVal c1 - 128) in *.
    set (C := byteVal c2 - 128) in *. set (D := byteVal c3 - 128) in *.
    assert (0 <= A <= 4 ∧ 0 <= B < 64 ∧ 0 <= C < 64 ∧ 0 <= D < 64) as HR
      by (unfold A, B, C, D; lia).
    destruct (div_mod_join (A * 2 ^ 12 + B * 2 ^ 6 + C) D 6 ltac:(lia) ltac:(lia))
      as [Hq Hm].
    destruct (div_mod_join (A * 2 ^ 6 + B) C 6 ltac:(lia) ltac:(lia)) as [Hq1 Hm1].
    destruct (div_mod_join A B 6 ltac:(lia) ltac:(lia)) as [Hq2 Hm2].
    destruct (div_mod_join (A * 2 ^ 6 + B) (C * 2 ^ 6 + D) 12 ltac:(lia) ltac:(lia))
      as [Hq3 _].
    destruct (div_mod_join A (B * 2 ^ 12 + C * 2 ^ 6 + D) 18 ltac:(lia) ltac:(lia))
      as [Hq4 _].
    replace ((A * 2 ^ 12 + B * 2 ^ 6 + C) * 2 ^ 6 + D)
      with (A * 2 ^ 18 + B * 2 ^ 12 + C * 2 ^ 6 + D) in Hq, Hm by lia.
    replace ((A * 2 ^ 6 + B) * 2 ^ 6 + C)
      with (A * 2 ^ 12 + B * 2 ^ 6 + C) in Hq1, Hm1 by lia.
    replace ((A * 2 ^ 6 + B) * 2 ^ 12 + (C * 2 ^ 6 + D))
      with (A * 2 ^ 18 + B * 2 ^ 12 + C * 2 ^ 6 + D) in Hq3 by lia.
    replace (A * 2 ^ 18 + (B * 2 ^ 12 + C * 2 ^ 6 + D))
      with (A * 2 ^ 18 + B * 2 ^ 12 + C * 2 ^ 6 + D) in Hq4 by lia.
    assert (0x10000 <= A * 2 ^ 18 + B * 2 ^ 12 + C * 2 ^ 6 + D <= 0x10FFFF) as Hrange
      by (unfold A, B in *; lia).
    split; [apply ValidRune_intro; lia|].
    rewrite encode_four by exact Hrange.
    rewrite Hq4, Hq3, Hq, Hm, Hm2, Hm1.
    unfold A, B, C, D.
    replace (240 + (byteVal c - 240)) with (byteVal c) by lia.
    replace (128 + (byteVal c1 - 128)) with (byteVal c1) by lia.
    replace (128 + (byteVal c2 - 128)) with (byteVal c2) by lia.
    replace (128 + (byteVal c3 - 128)) with (byteVal c3) by lia.
    rewrite !toByte_byteVal. reflexivity.
Qed.

End RoundTrip.
(** ** Strings of encoded runes *)

Section EncodedFacts.

Lemma EncodeRune_cons r : ∃ c t, EncodeRune r = String c t.
Proof. unfold EncodeRune, encode3. repeat case_match; eauto. Qed.

Lemma rangeString_EncodeRune r rest :
  ValidRune r = true →
  rangeString (String.append (EncodeRune r) rest)
  = (r, EncodeRune r) :: rangeString rest.
Proof.
  intros Hv. pose proof (DecodeRuneInString_EncodeRune r rest Hv) as Hd.
  destruct (EncodeRune_cons r) as (c & t & E). rewrite E in *.
  rewrite append_cons in *. rewrite rangeString_cons, Hd. cbn [fst snd].
  rewrite <- append_cons, takeS_append, dropS_append. reflexivity.
Qed.

Lemma rawBytes_cons x l : rawBytes (x :: l) = String.append (snd x) (rawBytes l).
Proof. reflexivity. Qed.

Lemma rangeString_rawBytes items : ∀ rest,
  Forall encodedRune items →
  rangeString (String.append (rawBytes items) rest) = items ++ rangeString rest.
Proof.
  induction items as [|[r raw] items IH]; intros rest H.
  - rewrite append_nil_l. reflexivity.
  - apply Forall_cons in H as [[Hv He] H]. cbn [fst snd] in *.
    rewrite rawBytes_cons, append_assoc. cbn [snd]. rewrite <- He.
    rewrite rangeString_EncodeRune by exact Hv. rewrite (IH rest H). reflexivity.
Qed.

Lemma decodedRune_encoded x : encodedRune x → decodedRune x = true.
Proof.
  intros [Hv He]. unfold decodedRune. rewrite <- He.
  destruct (Z.eqb_spec x.1 RuneError) as [->|]; [|reflexivity].
  vm_compute. reflexivity.
Qed.

Lemma encodedString_valid s : encodedString s → validString s = true.
Proof.
  intros (items & -> & H). unfold validString.
  rewrite <- (append_empty_r (rawBytes items)).
  rewrite (rangeString_rawBytes items EmptyString H). simpl. rewrite app_nil_r.
  apply forallb_forall. intros x Hx. apply decodedRune_encoded.
  rewrite Forall_forall in H. apply H. apply list_elem_of_In. exact Hx.
Qed.

Lemma encodedString_cons x s :
  encodedRune x → encodedString s → encodedString (String.append (snd x) s).
Proof.
  intros Hx (items & -> & H). exists (x :: items). split; [reflexivity|].
  constructor; assumption.
Qed.

(** The runes of a string that are decoded without error are encoded
    runes. *)
Lemma rangeString_encoded n : ∀ s,
  (String.length s <= n)%nat →
  Forall (λ x, decodedRune x = true → encodedRune x) (rangeString s).
Proof.
  induction n as [|n IH]; intros [|c t] Hn; cbn [String.length] in Hn; try lia;
    try constructor.
  rewrite rangeString_cons.
  pose proof (length_dropS_decode c t) as Hd.
  pose proof (EncodeRune_DecodeRuneInString c t) as He.
  destruct (DecodeRuneInString (String c t)) as [r w]. cbn [fst snd] in *.
  constructor; [|apply IH; lia].
  intros Hok. apply (He r w eq_refl Hok).
Qed.

Lemma ValidRune_range r : ValidRune r = true → 0 <= r <= MaxRune.
Proof.
  intros H. unfold MaxRune.
  destruct (ValidRune_cases r H) as [?|[?|[[? _]|?]]]; lia.
Qed.

(** Every rune that a [range] yields is a code point up to [MaxRune]. *)
Lemma rangeString_range s :
  Forall (λ x : rune * string, 0 <= fst x <= MaxRune) (rangeString s).
Proof.
  pose proof (rangeString_encoded (String.length s) s (le_n _)) as H.
  eapply Forall_impl; [exact H|]. intros x Hx.
  destruct (decodedRune x) eqn:Hd.
  - apply ValidRune_range, (Hx Hd).
  - unfold decodedRune in Hd. apply orb_false_iff in Hd as [Hd _].
    apply negb_false_iff, Z.eqb_eq in Hd. rewrite Hd. unfold RuneError, MaxRune. lia.
Qed.

(** Whatever is written for a rune value is the encoding of a scalar
    value: of the rune itself, or of U+FFFD. *)
Lemma EncodeRune_encoded r :
  0 <= r < 2 ^ 32 → ∃ x, encodedRune x ∧ snd x = EncodeRune r.
Proof.
  intros Hr. destruct (ValidRune r) eqn:Hv.
  - exists (r, EncodeRune r). split; [split; [exact Hv | reflexivity] | reflexivity].
  - exists (RuneError, EncodeRune RuneError).
    split; [split; reflexivity|]. cbn [snd].
    rewrite (encode_invalid r Hr Hv). reflexivity.
Qed.

(** [strings.Map] returns valid UTF-8, whatever the string it is given
    and whatever the mapping, as long as the mapping returns values of the
    type [rune]. *)
Lemma Map_encoded mapping s :
  (∀ r, 0 <= r <= MaxRune → mapping r < 2 ^ 32) → encodedString (Map mapping s).
Proof.
  intros Hm. unfold Map. pose proof (rangeString_range s) as Hrange.
  induction (rangeString s) as [|[c raw] rs IH]; cbn [fold_right].
  - exists []. split; [reflexivity | constructor].
  - apply Forall_cons in Hrange as [Hc Hrange]. cbn [fst] in Hc.
    specialize (IH Hrange).
    destruct (Z.leb_spec 0 (mapping c)) as [H0|H0]; [|exact IH].
    destruct (EncodeRune_encoded (mapping c)) as (x & Hx & <-).
    { split; [exact H0 | apply Hm, Hc]. }
    apply encodedString_cons; assumption.
Qed.

Lemma ToLower_valid lowerTable s :
  (∀ r, 0 <= r <= MaxRune → lowerTable r < 2 ^ 31) →
  validString (ToLower lowerTable s) = true.
Proof.
  intros Hl. rewrite ToLower_unfold. destruct (allASCII s) eqn:Ha.
  - apply allASCII_valid. rewrite allASCII_lowerBytes. exact Ha.
  - apply encodedString_valid, Map_encoded. intros r Hr. unfold unicode_ToLower.
    destruct (Z.leb_spec r 127); [|specialize (Hl r Hr); lia].
    destruct ((65 <=? r) && (r <=? 90)); lia.
Qed.

Lemma chunkTokens_valid letterTable lowerTable chunk :
  (∀ r, 0 <= r <= MaxRune → lowerTable r < 2 ^ 31) →
  Forall (λ t, validString t = true) (chunkTokens letterTable lowerTable chunk).
Proof.
  intros Hl. unfold chunkTokens. apply Forall_forall. intros t Ht.
  apply list_elem_of_filter in Ht as [_ Ht].
  apply list_elem_of_fmap in Ht as (f & -> & _). apply ToLower_valid, Hl.
Qed.

Lemma fileTokens_valid letterTable lowerTable (fs : string → fileBehaviour) fn :
  (∀ r, 0 <= r <= MaxRune → lowerTable r < 2 ^ 31) →
  Forall (λ t, validString t = true) (fileTokens letterTable lowerTable fs fn).
Proof.
  intros Hl. unfold fileTokens.
  destruct (fs fn) as [|written|pieces [final closeFails info|written|final written]];
    try constructor.
  induction (fileReads bufSize pieces) as [|c l IH]; [constructor|].
  simpl. apply Forall_app. split; [apply chunkTokens_valid, Hl | exact IH].
Qed.

End EncodedFacts.

(** ** Keeping the letters *)

Section LetterFacts.

Variable letterTable : rune -> bool.
Hypothesis replacement_no_letter : letterTable RuneError = false.

Lemma IsLetter_decoded x : IsLetter letterTable (fst x) = true → decodedRune x = true.
Proof.
  intros H. unfold decodedRune.
  destruct (Z.eqb_spec x.1 RuneError) as [E|]; [|reflexivity].
  rewrite E in H. unfold IsLetter in H. simpl in H.
  rewrite replacement_no_letter in H. discriminate.
Qed.

Lemma removePunctuation_letterBytes word :
  Earlier.removePunctuation letterTable word = letterBytes letterTable word.
Proof.
  unfold Earlier.removePunctuation, Map, letterBytes.
  pose proof (rangeString_encoded (String.length word) word (le_n _)) as Henc.
  induction (rangeString word) as [|[r raw] rs IH]; [reflexivity|].
  apply Forall_cons in Henc as [Hx Henc].
  cbn [fold_right]. rewrite (IH Henc).
  destruct (IsLetter letterTable r) eqn:Hr.
  - rewrite filter_cons_True by exact Hr.
    destruct (Hx (IsLetter_decoded (r, raw) Hr)) as [Hv He]. cbn [fst snd] in *.
    assert ((0 <=? r) = true) as ->.
    { apply Z.leb_le. destruct (ValidRune_cases r Hv) as [H|[H|[[H _]|H]]]; lia. }
    rewrite He. reflexivity.
  - rewrite filter_cons_False
      by (unfold letterRune; cbn [fst]; rewrite Hr; discriminate).
    reflexivity.
Qed.

End LetterFacts.
Section LetterWords.

Variable letterTable : rune -> bool.
Hypothesis replacement_no_letter : letterTable RuneError = false.

Local Abbreviation sep := (λ r : rune, negb (IsLetter letterTable r)).

Lemma letter_items_encoded s :
  Forall encodedRune (filter (λ x, letterRune letterTable x = true) (rangeString s)).
Proof.
  pose proof (rangeString_encoded (String.length s) s (le_n _)) as Henc.
  apply Forall_forall. intros x Hx. apply list_elem_of_filter in Hx as [Hl Hx].
  rewrite Forall_forall in Henc.
  apply (Henc x Hx). apply (IsLetter_decoded letterTable replacement_no_letter x Hl).
Qed.

Lemma rangeString_letterBytes s :
  rangeString (letterBytes letterTable s)
  = filter (λ x, letterRune letterTable x = true) (rangeString s).
Proof.
  unfold letterBytes.
  rewrite <- (append_empty_r (rawBytes _)).
  rewrite rangeString_rawBytes by apply letter_items_encoded.
  simpl. rewrite app_nil_r. reflexivity.
Qed.

Lemma filter_filter_same {A} (P : A → Prop) `{∀ x, Decision (P x)} (l : list A) :
  filter P (filter P l) = filter P l.
Proof.
  induction l as [|x l IH]; [reflexivity|].
  rewrite filter_cons. destruct (decide (P x)) as [Hx|Hx]; [|exact IH].
  rewrite filter_cons_True by exact Hx. rewrite IH. reflexivity.
Qed.

Lemma letterBytes_idem s :
  letterBytes letterTable (letterBytes letterTable s) = letterBytes letterTable s.
Proof.
  unfold letterBytes at 1. rewrite rangeString_letterBytes, filter_filter_same.
  reflexivity.
Qed.

Lemma fieldsLoop_letters rs : ∀ fld,
  Forall (λ x : rune * string, sep (fst x) = false) rs →
  fieldsLoop sep rs (Some fld) = [String.append fld (rawBytes rs)].
Proof.
  induction rs as [|[r raw] rs IH]; intros fld H.
  - simpl. rewrite append_empty_r. reflexivity.
  - apply Forall_cons in H as [Hr H]. cbn [fst] in Hr. cbn [fieldsLoop].
    rewrite Hr. rewrite (IH _ H), rawBytes_cons, append_assoc. reflexivity.
Qed.

Lemma splitWords_letterBytes s :
  splitWords letterTable (letterBytes letterTable s)
  = if String.eqb (letterBytes letterTable s) EmptyString then []
    else [letterBytes letterTable s].
Proof.
  unfold splitWords, FieldsFunc. rewrite rangeString_letterBytes.
  unfold letterBytes.
  pose proof (rangeString_raw_nonempty s) as Hne.
  assert (Forall (λ x : rune * string, sep (fst x) = false ∧ snd x ≠ EmptyString)
            (filter (λ x, letterRune letterTable x = true) (rangeString s))) as Hall.
  { apply Forall_forall. intros x Hx. apply list_elem_of_filter in Hx as [Hl Hx].
    rewrite Forall_forall in Hne. split; [|apply (Hne x Hx)].
    unfold letterRune in Hl. rewrite Hl. reflexivity. }
  destruct (filter (λ x, letterRune letterTable x = true) (rangeString s))
    as [|[r raw] rs]; [reflexivity|].
  apply Forall_cons in Hall as [[Hr Hraw] Hall]. cbn [fst snd] in *.
  cbn [fieldsLoop]. rewrite Hr.
  rewrite fieldsLoop_letters by (eapply Forall_impl; [exact Hall | intros ? [? _]; assumption]).
  rewrite rawBytes_cons. cbn [snd].
  destruct raw as [|c raw]; [congruence|].
  rewrite append_cons. reflexivity.
Qed.

Lemma concatS_empty l :
  Forall (λ w, w ≠ EmptyString) l → concatS l = EmptyString → l = [].
Proof.
  intros H E. destruct l as [|w l]; [reflexivity|].
  apply Forall_cons in H as [Hw _]. rewrite concatS_cons in E.
  destruct w; [congruence|]. rewrite append_cons in E. discriminate.
Qed.

End LetterWords.
Section ReencodeFacts.

Lemma rawBytes_rangeString n : ∀ s,
  (String.length s <= n)%nat → rawBytes (rangeString s) = s.
Proof.
  induction n as [|n IH]; intros [|c t] Hn; cbn [String.length] in Hn; try lia;
    try reflexivity.
  rewrite rangeString_cons, rawBytes_cons. cbn [snd].
  pose proof (length_dropS_decode c t) as Hd.
  rewrite IH by lia. apply takeS_dropS.
Qed.

(** Encoding the runes of valid text again gives the text. *)
Lemma reencode_valid s :
  validString s = true →
  concatS (map (λ x : rune * string, EncodeRune (fst x)) (rangeString s)) = s.
Proof.
  intros Hv. rewrite <- (rawBytes_rangeString (String.length s) s (le_n _)) at 2.
  pose proof (rangeString_encoded (String.length s) s (le_n _)) as Henc.
  unfold validString in Hv.
  induction (rangeString s) as [|x l IH]; [reflexivity|].
  cbn [forallb] in Hv. apply andb_true_iff in Hv as [Hx Hv].
  apply Forall_cons in Henc as [Ex Henc].
  cbn [map]. rewrite concatS_cons, rawBytes_cons, (IH Hv Henc).
  destruct (Ex Hx) as [_ ->]. reflexivity.
Qed.

End ReencodeFacts.
(** ** A pool used up by panics *)

Section CountFacts.

Lemma takenCount_replicate n : takenCount (replicate n WIdle) = 0%nat.
Proof.
  unfold takenCount. induction n as [|n IH]; [reflexivity|].
  simpl. rewrite filter_cons_False by (intros H; apply H; reflexivity). exact IH.
Qed.

Lemma takenCount_le ws : (takenCount ws <= length ws)%nat.
Proof. apply length_filter. Qed.

Lemma takenCount_cons w ws :
  takenCount (w :: ws) = ((if decide (w = WIdle) then 0 else 1) + takenCount ws)%nat.
Proof.
  unfold takenCount. destruct (decide (w = WIdle)) as [->|Hw].
  - rewrite filter_cons_False by (intros H; apply H; reflexivity). reflexivity.
  - rewrite filter_cons_True by exact Hw. reflexivity.
Qed.

(** A worker that takes a file and does not come back. *)
Lemma takenCount_take ws i w :
  ws !! i = Some WIdle → w ≠ WIdle →
  takenCount (<[i := w]> ws) = S (takenCount ws)
  ∧ (takenCount ws < length ws)%nat.
Proof.
  intros Hi Hw. revert i Hi.
  induction ws as [|x ws IH]; intros [|i] Hi; simpl in Hi; try discriminate.
  - injection Hi as ->. simpl. rewrite !takenCount_cons.
    rewrite decide_False by exact Hw. rewrite decide_True by reflexivity.
    pose proof (takenCount_le ws). split; lia.
  - destruct (IH i Hi) as [E L]. simpl. rewrite !takenCount_cons, E.
    destruct (decide (x = WIdle)); split; lia.
Qed.

(** A worker that holds a tally and returns. *)
Lemma takenCount_keep ws i w w' :
  ws !! i = Some w → w ≠ WIdle → w' ≠ WIdle →
  takenCount (<[i := w']> ws) = takenCount ws.
Proof.
  intros Hi Hw Hw'. revert i Hi.
  induction ws as [|x ws IH]; intros [|i] Hi; simpl in Hi; try discriminate.
  - injection Hi as ->. simpl. rewrite !takenCount_cons.
    rewrite !decide_False by assumption. reflexivity.
  - simpl. rewrite !takenCount_cons, (IH i Hi). reflexivity.
Qed.

Lemma takenCount_idle ws :
  (takenCount ws < length ws)%nat → ∃ i, ws !! i = Some WIdle.
Proof.
  induction ws as [|x ws IH]; simpl; [lia|].
  rewrite takenCount_cons. destruct (decide (x = WIdle)) as [->|Hx]; intros H.
  - exists 0%nat. reflexivity.
  - destruct IH as [i Hi]; [lia|]. exists (S i). exact Hi.
Qed.

Lemma takenCount_all ws : allExited ws → takenCount ws = length ws.
Proof.
  induction ws as [|w ws IH]; intros H; [reflexivity|].
  rewrite takenCount_cons, (H 0%nat w eq_refl).
  rewrite decide_False by discriminate. simpl.
  rewrite IH; [reflexivity|]. intros i x Hi. apply (H (S i) x Hi).
Qed.

End CountFacts.

Section StarvedFacts.

Variable letterTable : rune -> bool.
Variable lowerTable : rune -> rune.
Variable fs : string -> fileBehaviour.
Variable cap : nat.
Variables bad rest : list string.

Hypothesis one_each : length bad = cap.
Hypothesis all_faulty : ∀ fn, fn ∈ bad → faultFree (fs fn) = false.

Local Abbreviation fire := (fire letterTable lowerTable fs cap).
Local Abbreviation run := (run letterTable lowerTable fs cap).
Local Abbreviation reachable := (reachable letterTable lowerTable fs cap).

Lemma Starved_init : Starved fs bad rest (init (bad ++ rest) cap).
Proof.
  constructor; simpl.
  - rewrite takenCount_replicate. reflexivity.
  - intros i fn res Hi. apply lookup_replicate in Hi as [Hi _]. discriminate.
Qed.

Lemma Starved_fire a s s' :
  Phase cap s → Starved fs bad rest s → fire a s = Some s' → Starved fs bad rest s'.
Proof.
  intros Hph [Hrem Hsd] Hf.
  pose proof (ph_workers _ _ Hph) as Hlen.
  pose proof (ph_workClosed _ _ Hph) as Hclosed.
  destruct a; fire_inv Hf; simpl in *.
  - constructor; simpl; [|exact Hsd]. rewrite <- app_assoc. exact Hrem.
  - constructor; simpl; assumption.
  - constructor; simpl; assumption.
  - constructor; simpl; assumption.
  - constructor; simpl; assumption.
  - (* WTake *)
    assert (takenCount (workers s) < length bad)%nat as Hk.
    { rewrite <- Hlen.
      apply (takenCount_take _ _ WExited H). discriminate. }
    destruct (lookup_lt_is_Some_2 bad _ Hk) as [x Hx].
    rewrite (drop_S bad x _ Hx) in Hrem. simpl in Hrem.
    injection Hrem as -> Hrem.
    assert (faultFree (fs x) = false) as Hp
      by (apply all_faulty; eapply list_elem_of_lookup_2, Hx).
    assert (afterItem x i0 ≠ WIdle ∧ (∀ res, afterItem x i0 = WSending x res →
                                             infoOutcome fs x ≠ LogReturns)) as [Hne Hout].
    { destruct (faulty_item letterTable lowerTable fs x Hp)
        as [(lines & Hitem)|(res & lines & Hitem & Hout)];
        rewrite H2 in Hitem; injection Hitem as -> _; simpl.
      - split; [discriminate | intros res; discriminate].
      - split; [discriminate | intros _ _; exact Hout]. }
    destruct (takenCount_take _ _ _ H Hne) as [E _].
    constructor; simpl.
    + rewrite E. exact Hrem.
    + intros i' fn res Hi'. apply list_lookup_insert_Some in Hi'.
      destruct Hi' as [(_ & Hi' & _)|(_ & Hi')]; [|eauto].
      assert (fn = x) as ->.
      { destruct i0; simpl in Hi'; congruence. }
      eapply Hout, Hi'.
  - (* WSend on a closed channel *)
    constructor; simpl.
    + rewrite (takenCount_keep _ _ _ WExited H); [exact Hrem | discriminate | discriminate].
    + intros i' fn' res' Hi'. apply list_lookup_insert_Some in Hi'.
      destruct Hi' as [(_ & Hi' & _)|(_ & Hi')]; [discriminate | eauto].
  - (* WSend *)
    exfalso. apply (Hsd _ _ _ H). assumption.
  - (* WSend, and the logger panics *)
    constructor; simpl.
    + rewrite (takenCount_keep _ _ _ WExited H); [exact Hrem | discriminate | discriminate].
    + intros i' fn' res' Hi'. apply list_lookup_insert_Some in Hi'.
      destruct Hi' as [(_ & Hi' & _)|(_ & Hi')]; [discriminate | eauto].
  - (* WExit *)
    exfalso.
    assert (takenCount (workers s) < length bad)%nat as Hk.
    { rewrite <- Hlen.
      apply (takenCount_take _ _ WExited H). discriminate. }
    destruct (lookup_lt_is_Some_2 bad _ Hk) as [x Hx].
    rewrite (drop_S bad x _ Hx) in Hrem.
    destruct (pc s); simpl in *; discriminate.
  - constructor; simpl; assumption.
  - constructor; simpl; assumption.
  - constructor; simpl; assumption.
  - constructor; simpl; assumption.
Qed.

Lemma Starved_run sched : ∀ s s',
  Phase cap s → Starved fs bad rest s → run sched s = Some s' → Starved fs bad rest s'.
Proof.
  induction sched as [|a sched IH]; intros s s' Hph Hst Hr; simpl in *.
  - injection Hr as <-. exact Hst.
  - destruct (fire a s) as [s1|] eqn:Hf; [|discriminate].
    apply (IH s1 s'); [| |exact Hr].
    + apply (Phase_fire _ _ _ _ _ _ _ Hph Hf).
    + apply (Starved_fire _ _ _ Hph Hst Hf).
Qed.

(** When the other files fit into the work queue, the orchestrator
    never finds the queue full with all the workers gone. *)
Lemma Starved_worker_left s fn r :
  (length rest <= cap)%nat →
  Phase cap s → Starved fs bad rest s →
  pc s = Feeding (fn :: r) → length (workQueue s) = cap →
  ∃ i w, workers s !! i = Some w ∧ w ≠ WExited.
Proof.
  intros Hfit Hph [Hrem _] Hpc Hfull.
  rewrite Hpc in Hrem. simpl in Hrem.
  apply (f_equal length) in Hrem.
  rewrite !length_app, length_drop in Hrem. simpl in Hrem.
  destruct (takenCount_idle (workers s)) as [i Hi].
  { rewrite (ph_workers _ _ Hph). lia. }
  exists i, WIdle. split; [exact Hi | discriminate].
Qed.

Lemma starved_alwaysReturns :
  (length rest <= cap)%nat →
  alwaysReturns letterTable lowerTable fs cap (init (bad ++ rest) cap).
Proof.
  intros Hfit. split.
  - intros s Hr Hpc.
    pose proof (Phase_reachable _ _ _ _ _ _ Hr) as Hph.
    destruct (reachable_run _ _ _ _ _ _ Hr) as [sched Hrun].
    pose proof (Starved_run sched _ _ (Phase_init cap _) Starved_init Hrun) as Hst.
    apply progress_with_worker; [exact Hph | | exact Hpc].
    intros fn r Hp Hfull. eapply Starved_worker_left; eassumption.
  - intros sched s Hr. pose proof (run_bounded _ _ _ _ _ _ _ Hr). lia.
Qed.

(** At the [return] the other files are all still in the work queue,
    and the final map holds what the first files sent. *)
Lemma starved_returned s :
  reachable (init (bad ++ rest) cap) s → pc s = Returned →
  workQueue s = rest
  ∧ ∀ w, valAt (finalResult s) w
         = wrapInt (occurrences letterTable lowerTable fs w bad).
Proof.
  intros Hr Hpc.
  pose proof (Phase_reachable _ _ _ _ _ _ Hr) as Hph.
  destruct (reachable_run _ _ _ _ _ _ Hr) as [sched Hrun].
  pose proof (Starved_run sched _ _ (Phase_init cap _) Starved_init Hrun) as [Hrem _].
  assert (allExited (workers s)) as Hw by (apply (ph_joined _ _ Hph); tauto).
  assert (allReducersExited (reducers s)) as Hrd by (apply (ph_returned _ _ Hph), Hpc).
  assert (partialResults s = []) as Hpr.
  { destruct (all_reducers_exited_nil _ Hrd) as [Hnil|H0].
    - apply length_le_0_nil. pose proof (ph_partialResults _ _ Hph).
      pose proof (ph_reducers _ _ Hph) as Hl. rewrite Hnil in Hl. simpl in Hl. lia.
    - apply (ph_reducerExit _ _ Hph _ H0). }
  rewrite (takenCount_all _ Hw), (ph_workers _ _ Hph), <- one_each in Hrem.
  rewrite Hpc, drop_all in Hrem. simpl in Hrem. rewrite app_nil_r in Hrem.
  split; [exact Hrem|]. intros w.
  destruct (conserve_reachable _ _ _ _ _ _ Hr) as [_ Hv]. specialize (Hv w).
  unfold stVal in Hv. rewrite Hrem, Hpr, Hpc in Hv. simpl in Hv.
  rewrite (sumZ_zero (reducerVal w)), (sumZ_zero (workerVal w)) in Hv.
  - rewrite app_nil_r, occurrences_app in Hv.
    apply eqm_in_range.
    + unfold eqm in *.
      replace (valAt (finalResult s) w)
        with (valAt (finalResult s) w + 0 + 0 + 0
              + occurrences letterTable lowerTable fs w rest
              - occurrences letterTable lowerTable fs w rest) by lia.
      rewrite Zminus_mod, Hv, <- Zminus_mod. f_equal. lia.
    + unfold valAt. destruct (finalResult s !! w) as [v|] eqn:Hl.
      * apply (ph_intValued _ _ Hph _ _ Hl).
      * reflexivity.
  - intros i x Hi. rewrite (Hw _ _ Hi). reflexivity.
  - intros j x Hj. rewrite (Hrd _ _ Hj). reflexivity.
Qed.

End StarvedFacts.
(** * Main results *)

(** Compares the counts of a short token stream with a map written out
    key by key. *)
Ltac lookup_cases w :=
  rewrite ?countIn_cons, ?countIn_nil;
  repeat match goal with
  | |- context [decide (?k = w)] =>
      destruct (decide (k = w)) as [<-|?]; [vm_compute; reflexivity|]
  end;
  rewrite ?lookup_insert_ne, ?lookup_singleton_ne, ?lookup_empty by assumption;
  reflexivity.

Section MainResults.

(** ** Conservation *)

(** C1. For every list of files that all open and are read to the end
    of the stream without error, and every pool of at least one worker,
    [processFiles] returns, with a nil error, a map in which every word
    maps to the sum over the files of its occurrences in the file's token
    stream, and which has no other key (the total number of tokens being
    within the range of Go's [int]). A single file containing
    ["apple orange! banana? apple."] with a pool of one yields exactly
    [{apple: 2, orange: 1, banana: 1}]. *)
Theorem C1_conservation :
  (∀ letterTable lowerTable fs files n,
     (1 <= n)%nat →
     readCleanly fs files = true →
     totalTokens letterTable lowerTable fs files < 2 ^ (intBits - 1) →
     alwaysReturns letterTable lowerTable fs n (init files n)
     ∧ ∀ sched s fin err,
         run letterTable lowerTable fs n sched (init files n) = Some s →
         returned s = Some (fin, err) →
         err = None
         ∧ ∀ w, fin !! w
                = if occurrences letterTable lowerTable fs w files =? 0 then None
                  else Some (occurrences letterTable lowerTable fs w files))
  ∧ (∀ letterTable lowerTable fs fn sched s fin err,
       fs fn = regularFile "apple orange! banana? apple."%string →
       run letterTable lowerTable fs 1 sched (init [fn] 1) = Some s →
       returned s = Some (fin, err) →
       fin = {[ "apple"%string := 2; "orange"%string := 1; "banana"%string := 1 ]}
       ∧ err = None).
Proof.
  assert (∀ letterTable lowerTable fs files n sched s fin err,
     readCleanly fs files = true →
     run letterTable lowerTable fs n sched (init files n) = Some s →
     returned s = Some (fin, err) →
     err = None
     ∧ ∀ w, fin !! w
            = if occurrences letterTable lowerTable fs w files =? 0 then None
              else Some (wrapInt (occurrences letterTable lowerTable fs w files)))
    as Hgen.
  { intros lt lo fs files n sched s fin err Hclean Hrun Hret.
    unfold returned in Hret. destruct (pc s) eqn:Hpc; try discriminate.
    injection Hret as <- <-. split; [reflexivity|].
    apply (finalResult_lookup lt lo fs n files s).
    - apply readCleanly_panicFree, Hclean.
    - eapply run_reachable, Hrun.
    - exact Hpc. }
  split.
  - intros lt lo fs files n Hn Hclean Htot. split.
    + apply processFiles_alwaysReturns; [exact Hn | apply readCleanly_panicFree, Hclean].
    + intros sched s fin err Hrun Hret.
      destruct (Hgen _ _ _ _ _ _ _ _ _ Hclean Hrun Hret) as [He Hl].
      split; [exact He|]. intros w. rewrite Hl.
      rewrite (wrapInt_occ lt lo fs files w Htot). reflexivity.
  - intros lt lo fs fn sched s fin err Hfn Hrun Hret.
    assert (readCleanly fs [fn] = true) as Hclean.
    { unfold readCleanly. simpl. rewrite Hfn. reflexivity. }
    destruct (Hgen _ _ _ _ _ _ _ _ _ Hclean Hrun Hret) as [He Hl].
    split; [|exact He].
    assert (fileTokens lt lo fs fn = ["apple"; "orange"; "banana"; "apple"]%string) as Htok.
    { unfold fileTokens. rewrite Hfn. vm_compute. reflexivity. }
    apply map_eq. intros w. rewrite Hl.
    unfold occurrences. simpl. rewrite Htok.
    lookup_cases w.
Qed.

(** Two files of three words each, two workers: the hypotheses of C1
    hold. *)
Lemma C1_conservation_witness :
  alwaysReturns latin1Only noCaseAbove (sameContent "banana apple banana") 2
    (init ["f1"; "f2"]%string 2)
  ∧ ∀ sched s fin err,
      run latin1Only noCaseAbove (sameContent "banana apple banana") 2 sched
        (init ["f1"; "f2"]%string 2) = Some s →
      returned s = Some (fin, err) →
      err = None
      ∧ ∀ w, fin !! w
             = if occurrences latin1Only noCaseAbove
                    (sameContent "banana apple banana") w ["f1"; "f2"]%string =? 0
               then None
               else Some (occurrences latin1Only noCaseAbove
                            (sameContent "banana apple banana") w ["f1"; "f2"]%string).
Proof.
  apply (proj1 C1_conservation latin1Only noCaseAbove
           (sameContent "banana apple banana") ["f1"; "f2"]%string 2%nat).
  - lia.
  - reflexivity.
  - vm_compute. reflexivity.
Defined.

(** ** The tokenizer *)


(** ** Chunked reading *)

(** C3, as the code has it. The worker reads a file in chunks of at most
    1 MiB that together are the bytes of the file, and splits each chunk
    on its own. Where a chunk boundary falls between two letter runes and
    cuts no rune's encoding, the run is counted as two words, one ending
    at the boundary and one starting after it; when no boundary cuts a
    rune, the words of all the chunks hold every letter of the stream, in
    order. *)
Theorem C3_chunk_local_splitting (letterTable : rune → bool) (lowerTable : rune → rune) :
  (Z.of_nat bufSize = 1048576
   ∧ ∀ pieces,
       Forall (λ c, (String.length c <= bufSize)%nat) (fileReads bufSize pieces)
       ∧ concatS (fileReads bufSize pieces) = concatS pieces)
  ∧ (∀ reads res,
       readLoop letterTable lowerTable reads res
       = fold_left incr (flat_map (chunkTokens letterTable lowerTable) reads) res)
  ∧ (∀ c1 c2,
       rangeString (String.append c1 c2) = rangeString c1 ++ rangeString c2 →
       endsWithLetter letterTable c1 = true →
       startsWithLetter letterTable c2 = true →
       ∃ ws1 x y ws2,
         splitWords letterTable c1 = ws1 ++ [x]
         ∧ splitWords letterTable c2 = y :: ws2
         ∧ x ≠ EmptyString ∧ y ≠ EmptyString
         ∧ splitWords letterTable (String.append c1 c2)
           = ws1 ++ [String.append x y] ++ ws2)
  ∧ (∀ chunks,
       rangeString (concatS chunks) = flat_map rangeString chunks →
       concatS (flat_map (splitWords letterTable) chunks)
       = letterBytes letterTable (concatS chunks)).
Proof.
  split; [split|split; [|split]].
  - unfold bufSize. lia.
  - apply fileReads_spec.
  - apply readLoop_tokens.
  - apply splitWords_boundary.
  - apply splitWords_cover.
Qed.

(** The stream ["apple pie"] read as ["ap"] and ["ple pie"]: the boundary
    falls inside the word apple. *)
Lemma C3_chunk_local_splitting_witness :
  ∃ ws1 x y ws2,
    splitWords latin1Only "ap" = ws1 ++ [x]
    ∧ splitWords latin1Only "ple pie" = y :: ws2
    ∧ x ≠ EmptyString ∧ y ≠ EmptyString
    ∧ splitWords latin1Only (String.append "ap" "ple pie")
      = ws1 ++ [String.append x y] ++ ws2.
Proof.
  apply (proj1 (proj2 (proj2 (C3_chunk_local_splitting latin1Only noCaseAbove)))
           "ap"%string "ple pie"%string).
  - reflexivity.
  - reflexivity.
  - reflexivity.
Defined.

(** The stream holds the one letter U+00E9. Read one byte at a time, as
    from a pipe, or from a regular file in which the letter straddles the
    first 1 MiB: the run spans the chunk boundary, yet no word is counted
    and the letter is in no token. *)
Lemma C3_counterexample :
  (splitWords latin1Only (String.append eAcuteLead eAcuteTail)
   = [String.append eAcuteLead eAcuteTail]
   ∧ fileReads bufSize [eAcuteLead; eAcuteTail] = [eAcuteLead; eAcuteTail]
   ∧ flat_map (splitWords latin1Only) (fileReads bufSize [eAcuteLead; eAcuteTail]) = []
   ∧ fileTokens latin1Only noCaseAbove
       (λ _, Opens [eAcuteLead; eAcuteTail] EOF) "f" = []
   ∧ concatS (flat_map (splitWords latin1Only) [eAcuteLead; eAcuteTail])
     ≠ letterBytes latin1Only (String.append eAcuteLead eAcuteTail))
  ∧ (splitWords latin1Only straddlingFile = [String.append eAcuteLead eAcuteTail]
     ∧ fileReads bufSize [straddlingFile]
       = [String.append (spaces (Nat.pred bufSize)) eAcuteLead; eAcuteTail]
     ∧ fileTokens latin1Only noCaseAbove (sameContent straddlingFile) "f" = []).
Proof.
  split.
  - split; [|split; [|split; [|split]]]; try (vm_compute; reflexivity).
    vm_compute. discriminate.
  - split; [|split].
    + unfold straddlingFile. rewrite splitWords_spaces. vm_compute. reflexivity.
    + apply straddlingFile_reads.
    + unfold fileTokens, sameContent, regularFile.
      rewrite straddlingFile_reads. cbn [flat_map]. unfold chunkTokens.
      rewrite splitWords_spaces.
      replace (splitWords latin1Only eAcuteLead) with (@nil string)
        by (vm_compute; reflexivity).
      replace (splitWords latin1Only eAcuteTail) with (@nil string)
        by (vm_compute; reflexivity).
      reflexivity.
Qed.

(** ** Configuration *)

(** C4, as the code has it. [processFiles] checks neither the file list
    nor the pool size and has no [return] with a non-nil error. A pool
    size is only refused by the allocation of the channels, which panics
    for a negative size and for a size above the largest buffer that the
    runtime makes. For every other size and an empty list the call returns
    an empty map and a nil error: the goroutines start, receive nothing,
    log nothing and return. With a pool of zero and a file to process the
    call blocks on its first send and never returns. *)
Theorem C4_no_configuration_error (maxAlloc hchanSize : Z) :
  0 <= hchanSize <= maxAlloc ∧ maxAlloc < 2 ^ 64 →
  (∀ files maxWorkers,
     - 2 ^ 63 <= maxWorkers < 2 ^ 63 →
     start maxAlloc hchanSize files maxWorkers
     = if (0 <=? maxWorkers) && (16 * maxWorkers <=? maxAlloc - hchanSize)
       then Some (init files (Z.to_nat maxWorkers)) else None)
  ∧ (∀ letterTable lowerTable fs maxWorkers s0,
       start maxAlloc hchanSize [] maxWorkers = Some s0 →
       alwaysReturns letterTable lowerTable fs (Z.to_nat maxWorkers) s0
       ∧ ∀ sched s,
           run letterTable lowerTable fs (Z.to_nat maxWorkers) sched s0 = Some s →
           Quiet s ∧ (pc s = Returned → returned s = Some (∅, None)))
  ∧ (∀ letterTable lowerTable fs files maxWorkers s0 sched s fin err,
       start maxAlloc hchanSize files maxWorkers = Some s0 →
       run letterTable lowerTable fs (Z.to_nat maxWorkers) sched s0 = Some s →
       returned s = Some (fin, err) → err = None)
  ∧ (∀ letterTable lowerTable fs fn rest,
       start maxAlloc hchanSize (fn :: rest) 0 = Some (init (fn :: rest) 0)
       ∧ canDeadlock letterTable lowerTable fs 0 (init (fn :: rest) 0)
       ∧ ∀ sched s,
           run letterTable lowerTable fs 0 sched (init (fn :: rest) 0) = Some s →
           pc s ≠ Returned).
Proof.
  intros Hrt.
  pose proof (start_Some maxAlloc hchanSize) as Hinit.
  split; [|split; [|split]].
  - intros files maxWorkers Hint. apply start_spec; assumption.
  - intros lt lo fs maxWorkers s0 Hs. rewrite (Hinit _ _ _ Hs).
    split; [apply empty_alwaysReturns|].
    intros sched s Hrun.
    pose proof (Quiet_run lt lo fs _ sched _ _ (Quiet_init _) Hrun) as Hq.
    split; [exact Hq|]. intros Hpc. unfold returned. rewrite Hpc.
    rewrite (q_final _ Hq). reflexivity.
  - intros lt lo fs files maxWorkers s0 sched s fin err _ _ Hret.
    unfold returned in Hret.
    destruct (pc s); try discriminate. injection Hret as _ <-. reflexivity.
  - intros lt lo fs fn rest. split; [|split].
    + rewrite start_spec by (try assumption; lia).
      destruct (Z.leb_spec (16 * 0) (maxAlloc - hchanSize)); [reflexivity | lia].
    + exists (init (fn :: rest) 0).
      split; [apply rtc_refl|]. split; [discriminate|].
      intros a. apply zero_pool_stuck.
    + intros [|a sched] s Hrun; simpl in Hrun.
      * injection Hrun as <-. discriminate.
      * change (Pipeline.fire lt lo fs 0 a (init (fn :: rest) 0))
          with (fire lt lo fs 0 a (init (fn :: rest) 0)) in Hrun.
        rewrite zero_pool_stuck in Hrun. discriminate.
Qed.

(** An empty file list with a pool of one, and with a pool of zero: both
    calls return an empty map and a nil error. *)
Lemma C4_counterexample :
  option_map returned
    (run latin1Only noCaseAbove (sameContent "word") 1
       [OCloseWork; WExit 0; OWorkersDone; OCloseResults; RExit 0; OReducersDone]
       (init [] 1))
  = Some (Some (∅, None))
  ∧ option_map returned
      (run latin1Only noCaseAbove (sameContent "word") 0
         [OCloseWork; OWorkersDone; OCloseResults; OReducersDone]
         (init [] 0))
    = Some (Some (∅, None)).
Proof. split; vm_compute; reflexivity. Qed.

(** Constants as the runtime has them on a 64-bit platform, and the run
    over no file with a pool of one, at its [return]. *)
Lemma C4_no_configuration_error_witness :
  start (2 ^ 48) 96 [] 1 = Some (init [] 1)
  ∧ Quiet (stateAfter (run latin1Only noCaseAbove (sameContent "word") 1
                         [OCloseWork; WExit 0; OWorkersDone; OCloseResults;
                          RExit 0; OReducersDone] (init [] 1)))
  ∧ (pc (stateAfter (run latin1Only noCaseAbove (sameContent "word") 1
                       [OCloseWork; WExit 0; OWorkersDone; OCloseResults;
                        RExit 0; OReducersDone] (init [] 1))) = Returned →
     returned (stateAfter (run latin1Only noCaseAbove (sameContent "word") 1
                       [OCloseWork; WExit 0; OWorkersDone; OCloseResults;
                        RExit 0; OReducersDone] (init [] 1)))
     = Some (∅, None)).
Proof.
  assert (0 <= 96 <= 2 ^ 48 ∧ 2 ^ 48 < 2 ^ 64) as Hrt by lia.
  destruct (C4_no_configuration_error (2 ^ 48) 96 Hrt) as (Hstart & Hempty & _ & _).
  assert (start (2 ^ 48) 96 [] 1 = Some (init [] 1)) as Hs.
  { rewrite (Hstart [] 1) by lia. reflexivity. }
  split; [exact Hs|].
  apply (proj2 (Hempty latin1Only noCaseAbove (sameContent "word") 1 (init [] 1) Hs)
           [OCloseWork; WExit 0; OWorkersDone; OCloseResults; RExit 0; OReducersDone]).
  vm_compute. reflexivity.
Defined.

(** ** Failures on single files *)

(** C5. When a file does not open, the worker logs a warning for it and
    goes back to the work queue without sending a result; the file adds
    nothing to any count. Over a list in which some files fail to open,
    with a pool of at least one, [processFiles] returns a nil error and
    the map of the files that did open, and every failing file has its
    warning in the log. *)
Theorem C5_open_failure_isolation
    (letterTable : rune → bool) (lowerTable : rune → rune)
    (fs : string → fileBehaviour) (files : list string) (n : nat) :
  (1 <= n)%nat →
  panicFree fs files = true →
  (∀ s i fn q,
     workers s !! i = Some WIdle → workQueue s = fn :: q → fs fn = OpenFails →
     fire letterTable lowerTable fs n (WTake i) s
     = Some (addLogs [WarnOpen fn] (setWorker i WIdle (setWorkQueue q s))))
  ∧ (∀ fn, fs fn = OpenFails → fileTokens letterTable lowerTable fs fn = [])
  ∧ alwaysReturns letterTable lowerTable fs n (init files n)
  ∧ ∀ sched s,
      run letterTable lowerTable fs n sched (init files n) = Some s →
      pc s = Returned →
      returned s = Some (finalResult s, None)
      ∧ (∀ fn, fn ∈ files → fs fn = OpenFails → WarnOpen fn ∈ logs s)
      ∧ ∀ w, finalResult s !! w
             = if occurrences letterTable lowerTable fs w
                    (filter (λ fn, opens fs fn = true) files) =? 0
               then None
               else Some (wrapInt (occurrences letterTable lowerTable fs w
                                     (filter (λ fn, opens fs fn = true) files))).
Proof.
  intros Hn Hpf. split; [|split; [|split]].
  - intros s i fn q Hi Hq Hopen. simpl. rewrite Hi, Hq.
    unfold processItem. rewrite Hopen. reflexivity.
  - intros fn Hopen. unfold fileTokens. rewrite Hopen. reflexivity.
  - apply processFiles_alwaysReturns; assumption.
  - intros sched s Hrun Hpc.
    destruct (run_final_lookup letterTable lowerTable fs n files sched s Hpf Hrun Hpc)
      as [Hret Hl].
    split; [exact Hret|]. split.
    + intros fn Hfn Hopen.
      pose proof (Warned_run letterTable lowerTable fs n files sched _ _
                    (Warned_init fs files n) Hrun fn Hfn Hopen) as Hw.
      destruct Hw as [Hw|Hw]; [|exact Hw]. exfalso.
      assert (Phase n s) as Hph.
      { eapply Phase_reachable, run_reachable, Hrun. }
      assert (Drained fs s) as Hdr.
      { eapply Drained_reachable; [exact Hpf | eapply run_reachable, Hrun]. }
      destruct (returned_quiescent fs n s Hph Hdr Hpc) as (Hq & _).
      rewrite Hq, Hpc in Hw. simpl in Hw. inversion Hw.
    + intros w. rewrite occ_filter_opens. apply Hl.
Qed.

(** Three files, the second of which does not open, and a pool of two. *)
Lemma C5_open_failure_isolation_witness :
  alwaysReturns latin1Only noCaseAbove oneMissing 2
    (init ["a"; "missing"; "b"]%string 2).
Proof.
  apply (C5_open_failure_isolation latin1Only noCaseAbove oneMissing
           ["a"; "missing"; "b"]%string 2%nat).
  - lia.
  - reflexivity.
Defined.



(** C7, as the code has it. The deferred [recover] sits at the top of
    the worker goroutine, outside the loop over the work queue. A panic
    raised while a file is processed, before its tally is sent or in the
    call of the logger that follows the send, is caught there and logged;
    the worker then returns, counted as done by the wait group, and takes
    no further item. The step that takes the faulting file and the step in
    which the worker returns leave the other workers as they are. *)
Theorem C7_fault_ends_worker
    (letterTable : rune → bool) (lowerTable : rune → rune)
    (fs : string → fileBehaviour) (n : nat)
    (s : state) (i : nat) (fn : string) (q : list string) :
  workers s !! i = Some WIdle →
  workQueue s = fn :: q →
  faultFree (fs fn) = false →
  ∃ s1,
    fire letterTable lowerTable fs n (WTake i) s = Some s1
    ∧ partialResults s1 = partialResults s
    ∧ (∀ j, j ≠ i → workers s1 !! j = workers s !! j)
    ∧ ∀ sched s',
        run letterTable lowerTable fs n sched s1 = Some s' →
        fire letterTable lowerTable fs n (WTake i) s' = None
        ∧ ((workers s' !! i = Some WExited ∧ ErrorPanic ∈ logs s')
           ∨ (∃ res,
                workers s' !! i = Some (WSending fn res)
                ∧ ∀ s'',
                    fire letterTable lowerTable fs n (WSend i) s' = Some s'' →
                    workers s'' !! i = Some WExited
                    ∧ ErrorPanic ∈ logs s''
                    ∧ ∀ j, j ≠ i → workers s'' !! j = workers s' !! j)).
Proof.
  intros Hi Hq Hfault.
  assert (∃ s1, fire letterTable lowerTable fs n (WTake i) s = Some s1
                ∧ partialResults s1 = partialResults s
                ∧ (∀ j, j ≠ i → workers s1 !! j = workers s !! j)
                ∧ Doomed fs i fn s1) as (s1 & Hf & Hp & Ho & Hd).
  { assert (i < length (workers s))%nat as Hlt by (eapply lookup_lt_Some, Hi).
    destruct (faulty_item letterTable lowerTable fs fn Hfault)
      as [(lines & Hitem)|(res & lines & Hitem & Hout)].
    - exists (addLogs (lines ++ [ErrorPanic]) (setWorker i WExited (setWorkQueue q s))).
      split; [simpl; rewrite Hi, Hq, Hitem; reflexivity|].
      split; [reflexivity|].
      split; [intros j Hj; simpl; apply list_lookup_insert_ne; congruence|].
      left. simpl. split; [apply list_lookup_insert_eq, Hlt|].
      rewrite app_assoc. apply elem_of_app. right. constructor.
    - exists (addLogs lines (setWorker i (WSending fn res) (setWorkQueue q s))).
      split; [simpl; rewrite Hi, Hq, Hitem; reflexivity|].
      split; [reflexivity|].
      split; [intros j Hj; simpl; apply list_lookup_insert_ne; congruence|].
      right. exists res. simpl. split; [apply list_lookup_insert_eq, Hlt | exact Hout]. }
  exists s1. split; [exact Hf|]. split; [exact Hp|]. split; [exact Ho|].
  intros sched s' Hrun.
  pose proof (Doomed_run letterTable lowerTable fs n i fn sched _ _ Hd Hrun) as Hd'.
  split.
  - simpl. destruct Hd' as [[He _]|(res & Hs & _)]; [rewrite He | rewrite Hs]; reflexivity.
  - destruct Hd' as [Hd'|(res & Hs & Hout)]; [left; exact Hd'|].
    right. exists res. split; [exact Hs|].
    intros s'' Hsend.
    assert (i < length (workers s'))%nat as Hlt by (eapply lookup_lt_Some, Hs).
    assert (∀ l, ErrorPanic ∈ (logs s' ++ l) ++ [ErrorPanic]) as Hlast.
    { intros l. apply elem_of_app. right. constructor. }
    fire_inv Hsend; simpl.
    + split; [apply list_lookup_insert_eq, Hlt|].
      split; [apply elem_of_app; right; constructor|].
      intros j Hj. apply list_lookup_insert_ne. congruence.
    + split; [apply list_lookup_insert_eq, Hlt|].
      split; [rewrite app_assoc; apply Hlast|].
      intros j Hj. apply list_lookup_insert_ne. congruence.
Qed.

(** A pool of one with the file ["late"] at the head of the work queue:
    its tally is sent, and the logger panics on the line that follows the
    send. *)
Lemma C7_fault_ends_worker_witness :
  ∃ s1,
    fire latin1Only noCaseAbove lateFault 1 (WTake 0)
      (stateAfter (run latin1Only noCaseAbove lateFault 1 [OFeed]
                     (init ["late"; "good"]%string 1))) = Some s1
    ∧ partialResults s1
      = partialResults (stateAfter (run latin1Only noCaseAbove lateFault 1 [OFeed]
                                      (init ["late"; "good"]%string 1)))
    ∧ (∀ j, j ≠ 0%nat →
            workers s1 !! j
            = workers (stateAfter (run latin1Only noCaseAbove lateFault 1 [OFeed]
                                     (init ["late"; "good"]%string 1))) !! j)
    ∧ ∀ sched s',
        run latin1Only noCaseAbove lateFault 1 sched s1 = Some s' →
        fire latin1Only noCaseAbove lateFault 1 (WTake 0) s' = None
        ∧ ((workers s' !! 0%nat = Some WExited ∧ ErrorPanic ∈ logs s')
           ∨ (∃ res,
                workers s' !! 0%nat = Some (WSending "late" res)
                ∧ ∀ s'',
                    fire latin1Only noCaseAbove lateFault 1 (WSend 0) s' = Some s'' →
                    workers s'' !! 0%nat = Some WExited
                    ∧ ErrorPanic ∈ logs s''
                    ∧ ∀ j, j ≠ 0%nat → workers s'' !! j = workers s' !! j)).
Proof.
  apply (C7_fault_ends_worker latin1Only noCaseAbove lateFault 1%nat
           (stateAfter (run latin1Only noCaseAbove lateFault 1 [OFeed]
                          (init ["late"; "good"]%string 1)))
           0%nat "late"%string []).
  - reflexivity.
  - reflexivity.
  - reflexivity.
Defined.

(** A pool of one. The worker panics on ["bad"], which does not open,
    and returns; ["good"], queued behind it, is never taken, and
    [processFiles] returns an empty map. With a third file the
    orchestrator blocks on its send: no action is enabled any more. *)
Lemma C7_counterexample :
  (let s := stateAfter (run latin1Only noCaseAbove oneFaulty 1
                          [OFeed; WTake 0; OFeed] (init ["bad"; "good"]%string 1)) in
   workers s = [WExited] ∧ workQueue s = ["good"%string]
   ∧ fire latin1Only noCaseAbove oneFaulty 1 (WTake 0) s = None)
  ∧ (let s := stateAfter (run latin1Only noCaseAbove oneFaulty 1
                            [OFeed; WTake 0; OFeed; OCloseWork; OWorkersDone;
                             OCloseResults; RExit 0; OReducersDone]
                            (init ["bad"; "good"]%string 1)) in
     returned s = Some (∅, None) ∧ workQueue s = ["good"%string]
     ∧ fileTokens latin1Only noCaseAbove oneFaulty "good" = ["word"%string])
  ∧ (let s := stateAfter (run latin1Only noCaseAbove oneFaulty 1
                            [OFeed; WTake 0; OFeed]
                            (init ["bad"; "good"; "more"]%string 1)) in
     pc s = Feeding ["more"%string]
     ∧ ∀ a, fire latin1Only noCaseAbove oneFaulty 1 a s = None).
Proof.
  split; [|split].
  - vm_compute. auto.
  - vm_compute. auto.
  - split; [vm_compute; reflexivity|].
    intros a. destruct a as [| | | | |i|i|i|j o|j|j|j]; try reflexivity.
    + destruct i as [|i]; reflexivity.
    + destruct i as [|i]; reflexivity.
    + destruct i as [|i]; reflexivity.
    + destruct j as [|j]; reflexivity.
    + destruct j as [|j]; reflexivity.
    + destruct j as [|j]; reflexivity.
    + destruct j as [|j]; reflexivity.
Qed.

(** ** Order and pool size *)

(** C8. For a fixed set of files, the map [processFiles] returns is the
    same for every pool size of at least one and for every schedule, that
    is, for every order in which the tallies reach the reducers and in
    which the reducers add them; two merge steps commute. *)
Theorem C8_pool_size_invariance
    (letterTable : rune → bool) (lowerTable : rune → rune)
    (fs : string → fileBehaviour) (files : list string)
    (n1 n2 : nat) (sched1 sched2 : list action) (s1 s2 : state) :
  (1 <= n1)%nat → (1 <= n2)%nat →
  panicFree fs files = true →
  run letterTable lowerTable fs n1 sched1 (init files n1) = Some s1 →
  pc s1 = Returned →
  run letterTable lowerTable fs n2 sched2 (init files n2) = Some s2 →
  pc s2 = Returned →
  finalResult s1 = finalResult s2
  ∧ returned s1 = returned s2
  ∧ alwaysReturns letterTable lowerTable fs n1 (init files n1)
  ∧ alwaysReturns letterTable lowerTable fs n2 (init files n2)
  ∧ ∀ fin k1 v1 k2 v2,
      addCount (addCount fin k1 v1) k2 v2 = addCount (addCount fin k2 v2) k1 v1.
Proof.
  intros Hn1 Hn2 Hpf Hr1 Hp1 Hr2 Hp2.
  destruct (run_final_lookup letterTable lowerTable fs n1 files sched1 s1 Hpf Hr1 Hp1)
    as [Hret1 Hl1].
  destruct (run_final_lookup letterTable lowerTable fs n2 files sched2 s2 Hpf Hr2 Hp2)
    as [Hret2 Hl2].
  assert (finalResult s1 = finalResult s2) as Heq.
  { apply map_eq. intros w. rewrite Hl1, Hl2. reflexivity. }
  split; [exact Heq|]. split; [rewrite Hret1, Hret2, Heq; reflexivity|].
  split; [apply processFiles_alwaysReturns; assumption|].
  split; [apply processFiles_alwaysReturns; assumption|].
  apply addCount_comm.
Qed.

(** The two banana files, run with a pool of one and with a pool of
    two. *)
Lemma C8_pool_size_invariance_witness :
  finalResult
    (stateAfter (run latin1Only noCaseAbove (sameContent "banana apple banana") 1
                   poolOfOneSchedule (init bananaFiles 1)))
  = finalResult
      (stateAfter (run latin1Only noCaseAbove (sameContent "banana apple banana") 2
                     poolOfTwoSchedule (init bananaFiles 2))).
Proof.
  apply (C8_pool_size_invariance latin1Only noCaseAbove
           (sameContent "banana apple banana") bananaFiles 1%nat 2%nat
           poolOfOneSchedule poolOfTwoSchedule).
  - lia.
  - lia.
  - reflexivity.
  - vm_compute. reflexivity.
  - vm_compute. reflexivity.
  - vm_compute. reflexivity.
  - vm_compute. reflexivity.
Defined.

(** C9. In every state of every execution of [processFiles]: the results
    channel is closed only after the work queue was closed and every
    worker has returned; a worker that holds a tally finds the channel
    open, so its send appends the tally to the channel; a reducer returns
    only once the channel is closed and empty and every worker has
    returned; and at the [return] all workers and reducers have
    returned. *)
Theorem C9_two_phase_join
    (letterTable : rune → bool) (lowerTable : rune → rune)
    (fs : string → fileBehaviour) (files : list string) (n : nat)
    (sched : list action) (s : state) :
  run letterTable lowerTable fs n sched (init files n) = Some s →
  (resultsClosed s = true → workClosed s = true ∧ allExited (workers s))
  ∧ (∀ i fn res,
       workers s !! i = Some (WSending fn res) →
       resultsClosed s = false
       ∧ ∀ s', fire letterTable lowerTable fs n (WSend i) s = Some s' →
               partialResults s' = partialResults s ++ [res])
  ∧ (∀ j, reducers s !! j = Some RExited →
          resultsClosed s = true ∧ partialResults s = [] ∧ allExited (workers s))
  ∧ (pc s = Returned →
     resultsClosed s = true ∧ allExited (workers s)
     ∧ allReducersExited (reducers s))
  ∧ workClosed s = negb (feeding (pc s))
  ∧ (resultsClosed s = true ↔ pc s = WaitReducers ∨ pc s = Returned).
Proof.
  intros Hrun.
  assert (Phase n s) as Hph.
  { eapply Phase_reachable, run_reachable, Hrun. }
  assert (resultsClosed s = true → workClosed s = true ∧ allExited (workers s)) as Hc.
  { intros Hc. apply (ph_resultsClosed _ _ Hph) in Hc. split.
    - rewrite (ph_workClosed _ _ Hph). destruct Hc as [-> | ->]; reflexivity.
    - apply (ph_joined _ _ Hph). right. exact Hc. }
  split; [exact Hc|]. split; [|split; [|split; [|split]]].
  - intros i fn res Hi.
    pose proof (closed_no_sender n s i fn res Hph Hi) as Hopen.
    split; [exact Hopen|]. intros s' Hf. simpl in Hf. rewrite Hi, Hopen in Hf.
    destruct (length (partialResults s) <? n)%nat; [|discriminate].
    destruct (infoOutcome fs fn); injection Hf as <-; reflexivity.
  - intros j Hj. destruct (ph_reducerExit _ _ Hph j Hj) as [Hq Hcl].
    split; [exact Hcl|]. split; [exact Hq|]. apply Hc, Hcl.
  - intros Hpc. split; [|split].
    + apply (ph_resultsClosed _ _ Hph). right. exact Hpc.
    + apply (ph_joined _ _ Hph). right. right. exact Hpc.
    + apply (ph_returned _ _ Hph), Hpc.
  - apply (ph_workClosed _ _ Hph).
  - apply (ph_resultsClosed _ _ Hph).
Qed.

(** The run of the two banana files with a pool of two, stopped after
    the first tally was sent. *)
Lemma C9_two_phase_join_witness :
  workClosed
    (stateAfter (run latin1Only noCaseAbove (sameContent "banana apple banana") 2
                   (take 6 poolOfTwoSchedule) (init bananaFiles 2)))
  = negb (feeding
            (pc (stateAfter
                   (run latin1Only noCaseAbove (sameContent "banana apple banana") 2
                      (take 6 poolOfTwoSchedule) (init bananaFiles 2))))).
Proof.
  apply (C9_two_phase_join latin1Only noCaseAbove
           (sameContent "banana apple banana") bananaFiles 2%nat
           (take 6 poolOfTwoSchedule)).
  vm_compute. reflexivity.
Defined.

(** ** Positive counts *)

(** C10. In every state of every execution of [processFiles], and so
    after it has returned, every key of the final map has a strictly
    positive count, and a word that occurs in no file is not a key; every
    entry of a tally that a worker holds or that waits in the results
    channel is at least one (the total number of tokens being within the
    range of Go's [int]). *)
Theorem C10_positive_counts
    (letterTable : rune → bool) (lowerTable : rune → rune)
    (fs : string → fileBehaviour) (files : list string) (n : nat)
    (sched : list action) (s : state) :
  totalTokens letterTable lowerTable fs files < 2 ^ (intBits - 1) →
  run letterTable lowerTable fs n sched (init files n) = Some s →
  (∀ w c, finalResult s !! w = Some c → 0 < c)
  ∧ (∀ w, occurrences letterTable lowerTable fs w files = 0 →
          finalResult s !! w = None)
  ∧ (∀ i fn res w c,
       workers s !! i = Some (WSending fn res) → res !! w = Some c → 1 <= c)
  ∧ (∀ m w c, m ∈ partialResults s → m !! w = Some c → 1 <= c)
  ∧ (∀ fn res w c,
       fn ∈ files →
       fst (processItem letterTable lowerTable fs fn) = Emit res →
       res !! w = Some c → 1 <= c).
Proof.
  intros Htot Hrun.
  assert (Bounded letterTable lowerTable fs files s) as Hbd.
  { eapply Bounded_run; [exact Htot | apply Phase_init | apply Bounded_init | exact Hrun]. }
  split; [|split; [|split; [|split]]].
  - intros w c Hw. pose proof (bd_final _ _ _ _ _ Hbd w c Hw). lia.
  - intros w Hz.
    exact (absent_word_no_key letterTable lowerTable fs n files sched s w Hrun Hz).
  - apply (bd_workers _ _ _ _ _ Hbd).
  - apply (bd_results _ _ _ _ _ Hbd).
  - intros fn res w c Hfn Hitem Hw.
    assert (res = fold_left incr (fileTokens letterTable lowerTable fs fn) ∅) as ->.
    { unfold processItem, fileTokens in *.
      destruct (fs fn) as [|written|pieces [final closeFails info|written|final written]];
        simpl in Hitem; try discriminate.
      injection Hitem as <-. apply readLoop_tokens. }
    rewrite tally_lookup in Hw.
    pose proof (countIn_nonneg w (fileTokens letterTable lowerTable fs fn)).
    pose proof (countIn_le_length w (fileTokens letterTable lowerTable fs fn)).
    pose proof (length_tokens_le_total letterTable lowerTable fs fn files Hfn).
    destruct (Z.eqb_spec (countIn w (fileTokens letterTable lowerTable fs fn)) 0);
      [discriminate|].
    injection Hw as <-. rewrite wrapInt_small; [lia|].
    unfold inIntRange. unfold intBits in *. lia.
Qed.

(** The run of the two banana files with a pool of two, at its
    [return]. *)
Lemma C10_positive_counts_witness :
  finalResult
    (stateAfter (run latin1Only noCaseAbove (sameContent "banana apple banana") 2
                   poolOfTwoSchedule (init bananaFiles 2))) !! "banana"%string
  = Some 4
  ∧ 0 < 4.
Proof.
  split; [vm_compute; reflexivity|].
  refine (proj1 (C10_positive_counts latin1Only noCaseAbove
                   (sameContent "banana apple banana") bananaFiles 2%nat
                   poolOfTwoSchedule
                   (stateAfter (run latin1Only noCaseAbove
                                  (sameContent "banana apple banana") 2
                                  poolOfTwoSchedule (init bananaFiles 2)))
                   _ _)
            "banana"%string 4 _).
  - vm_compute. reflexivity.
  - vm_compute. reflexivity.
  - vm_compute. reflexivity.
Defined.

End MainResults.
(** * Further results *)

Section FurtherResults.

(** ** The list of files *)

(** X2. The order of the file names given to [processFiles] does not
    matter: two calls on lists that are permutations of each other return
    the same map, whatever their pool sizes and schedules. *)
Theorem X2_file_order_irrelevant
    (letterTable : rune → bool) (lowerTable : rune → rune)
    (fs : string → fileBehaviour) (files files' : list string) (n n' : nat)
    (sched sched' : list action) (s s' : state) :
  files ≡ₚ files' →
  panicFree fs files = true →
  run letterTable lowerTable fs n sched (init files n) = Some s →
  pc s = Returned →
  run letterTable lowerTable fs n' sched' (init files' n') = Some s' →
  pc s' = Returned →
  finalResult s = finalResult s'.
Proof.
  intros Hp Hpf Hr Hpc Hr' Hpc'. apply map_eq. intros w.
  rewrite (finalResult_lookup letterTable lowerTable fs n files s Hpf
             (run_reachable _ _ _ _ _ _ _ Hr) Hpc).
  rewrite (panicFree_perm fs _ _ Hp) in Hpf.
  rewrite (finalResult_lookup letterTable lowerTable fs n' files' s' Hpf
             (run_reachable _ _ _ _ _ _ _ Hr') Hpc').
  rewrite (occurrences_perm letterTable lowerTable fs w _ _ Hp). reflexivity.
Qed.

Lemma X2_file_order_irrelevant_witness :
  finalResult (sequentialRun smallFiles ["a.txt"; "b.txt"]%string)
  = finalResult (sequentialRun smallFiles ["b.txt"; "a.txt"]%string).
Proof.
  apply (X2_file_order_irrelevant latin1Only noCaseAbove smallFiles
           ["a.txt"; "b.txt"]%string ["b.txt"; "a.txt"]%string 1%nat 1%nat
           (sequentialSchedule latin1Only noCaseAbove smallFiles
              ["a.txt"; "b.txt"]%string)
           (sequentialSchedule latin1Only noCaseAbove smallFiles
              ["b.txt"; "a.txt"]%string)).
  - apply perm_swap.
  - vm_compute. reflexivity.
  - vm_compute. reflexivity.
  - vm_compute. reflexivity.
  - vm_compute. reflexivity.
  - vm_compute. reflexivity.
Defined.

(** X3. Counting is additive over the list of files: the map returned
    for the concatenation of two lists is the map returned for the first
    list with the map returned for the second merged into it by the
    reducer's loop, so that every count is the sum of the two counts as a
    Go [int]. In particular a file named twice is counted twice. *)
Theorem X3_file_lists_add_up
    (letterTable : rune → bool) (lowerTable : rune → rune)
    (fs : string → fileBehaviour) (files1 files2 : list string) (n1 n2 n : nat)
    (sched1 sched2 sched : list action) (s1 s2 s : state) :
  panicFree fs (files1 ++ files2) = true →
  run letterTable lowerTable fs n1 sched1 (init files1 n1) = Some s1 →
  pc s1 = Returned →
  run letterTable lowerTable fs n2 sched2 (init files2 n2) = Some s2 →
  pc s2 = Returned →
  run letterTable lowerTable fs n sched (init (files1 ++ files2) n) = Some s →
  pc s = Returned →
  finalResult s = mergeTally (finalResult s1) (map_to_list (finalResult s2))
  ∧ ∀ w, valAt (finalResult s) w
         = wrapInt (valAt (finalResult s1) w + valAt (finalResult s2) w).
Proof.
  intros Hpf Hr1 Hpc1 Hr2 Hpc2 Hr Hpc.
  pose proof Hpf as Hpf'. rewrite panicFree_app in Hpf'.
  apply andb_true_iff in Hpf' as [Hpf1 Hpf2].
  pose proof (finalResult_lookup letterTable lowerTable fs n1 files1 s1 Hpf1
                (run_reachable _ _ _ _ _ _ _ Hr1) Hpc1) as L1.
  pose proof (finalResult_lookup letterTable lowerTable fs n2 files2 s2 Hpf2
                (run_reachable _ _ _ _ _ _ _ Hr2) Hpc2) as L2.
  pose proof (finalResult_lookup letterTable lowerTable fs n _ s Hpf
                (run_reachable _ _ _ _ _ _ _ Hr) Hpc) as L.
  assert (∀ w, wrapInt (wrapInt (occurrences letterTable lowerTable fs w files1)
                        + wrapInt (occurrences letterTable lowerTable fs w files2))
               = wrapInt (occurrences letterTable lowerTable fs w files1
                          + occurrences letterTable lowerTable fs w files2)) as Hw.
  { intros w. apply wrapInt_congr. unfold eqm.
    pose proof (wrapInt_eqm (occurrences letterTable lowerTable fs w files1)) as E1.
    pose proof (wrapInt_eqm (occurrences letterTable lowerTable fs w files2)) as E2.
    unfold eqm in E1, E2.
    rewrite Z.add_mod, E1, E2, <- Z.add_mod by (unfold intModulus, intBits; lia).
    reflexivity. }
  split.
  - apply map_eq. intros w. rewrite mergeTally_map_to_list, L, L2.
    rewrite occurrences_app. unfold valAt. rewrite L1.
    pose proof (occ_nonneg letterTable lowerTable fs w files1).
    pose proof (occ_nonneg letterTable lowerTable fs w files2).
    destruct (Z.eqb_spec (occurrences letterTable lowerTable fs w files1) 0) as [E1|N1];
      destruct (Z.eqb_spec (occurrences letterTable lowerTable fs w files2) 0) as [E2|N2];
      destruct (Z.eqb_spec (occurrences letterTable lowerTable fs w files1
                            + occurrences letterTable lowerTable fs w files2) 0)
        as [E|N];
      try lia; simpl; try reflexivity.
    + rewrite E1. rewrite Z.add_0_l, Z.add_0_l, wrapInt_idem. reflexivity.
    + rewrite E2, Z.add_0_r. reflexivity.
    + rewrite Hw. reflexivity.
  - intros w.
    rewrite (valAt_final letterTable lowerTable fs _ n s w Hpf
               (run_reachable _ _ _ _ _ _ _ Hr) Hpc).
    rewrite (valAt_final letterTable lowerTable fs _ n1 s1 w Hpf1
               (run_reachable _ _ _ _ _ _ _ Hr1) Hpc1).
    rewrite (valAt_final letterTable lowerTable fs _ n2 s2 w Hpf2
               (run_reachable _ _ _ _ _ _ _ Hr2) Hpc2).
    rewrite occurrences_app, Hw. reflexivity.
Qed.

Lemma X3_file_lists_add_up_witness :
  finalResult (sequentialRun smallFiles ["a.txt"; "b.txt"; "missing"]%string)
  = mergeTally (finalResult (sequentialRun smallFiles ["a.txt"]%string))
      (map_to_list (finalResult (sequentialRun smallFiles ["b.txt"; "missing"]%string)))
  ∧ ∀ w, valAt (finalResult (sequentialRun smallFiles
                               ["a.txt"; "b.txt"; "missing"]%string)) w
         = wrapInt (valAt (finalResult (sequentialRun smallFiles ["a.txt"]%string)) w
                    + valAt (finalResult (sequentialRun smallFiles
                                            ["b.txt"; "missing"]%string)) w).
Proof.
  apply (X3_file_lists_add_up latin1Only noCaseAbove smallFiles
           ["a.txt"]%string ["b.txt"; "missing"]%string 1%nat 1%nat 1%nat
           (sequentialSchedule latin1Only noCaseAbove smallFiles ["a.txt"]%string)
           (sequentialSchedule latin1Only noCaseAbove smallFiles
              ["b.txt"; "missing"]%string)
           (sequentialSchedule latin1Only noCaseAbove smallFiles
              ["a.txt"; "b.txt"; "missing"]%string)).
  - vm_compute. reflexivity.
  - vm_compute. reflexivity.
  - vm_compute. reflexivity.
  - vm_compute. reflexivity.
  - vm_compute. reflexivity.
  - vm_compute. reflexivity.
  - vm_compute. reflexivity.
Defined.

(** ** Faults *)

(** X4. [processFiles] never counts too much. In every state of every
    execution, whatever the pool size, and also when files fail to open
    or to close, reads fail or the logger panics, the count that the final
    map holds for a word is at least zero and at most the number of
    occurrences of the word in the token streams that the workers send,
    which is in turn at most the number of its occurrences in the chunks
    read from the files (the total number of tokens being within the
    range of Go's [int]). *)
Theorem X4_never_overcounts
    (letterTable : rune → bool) (lowerTable : rune → rune)
    (fs : string → fileBehaviour) (files : list string) (n : nat)
    (sched : list action) (s : state) (w : string) :
  totalTokens letterTable lowerTable fs files < 2 ^ (intBits - 1) →
  run letterTable lowerTable fs n sched (init files n) = Some s →
  0 <= valAt (finalResult s) w <= occurrences letterTable lowerTable fs w files
  ∧ occurrences letterTable lowerTable fs w files
    <= sumZ (λ fn, countIn w (contentTokens letterTable lowerTable fs fn)) files.
Proof.
  intros Htot Hrun.
  assert (Bounded letterTable lowerTable fs files s) as Hbd.
  { eapply Bounded_run; [exact Htot | apply Phase_init | apply Bounded_init | exact Hrun]. }
  destruct (Bounded_parts letterTable lowerTable fs files s w Hbd)
    as (H0 & Hr & Hp & Hw & Hq).
  pose proof (bd_sum _ _ _ _ _ Hbd w) as Hsum. unfold stVal in Hsum.
  pose proof (sumZ_nonneg_lookup (reducerVal w) (reducers s) Hr).
  pose proof (sumZ_nonneg_lookup (λ m, valAt m w) (partialResults s) Hp).
  pose proof (sumZ_nonneg_lookup (workerVal w) (workers s) Hw).
  split; [lia|].
  apply sumZ_le. intros fn. unfold fileTokens, contentTokens.
  destruct (fs fn) as [|written|pieces [final closeFails info|written|final written]];
    try apply countIn_nonneg; reflexivity.
Qed.

(** A pool of one. The tally of ["late"] is sent before the logger
    panics, and its word is merged; ["good"] is never read. *)
Lemma X4_never_overcounts_witness :
  0 <= valAt (finalResult
                (stateAfter (run latin1Only noCaseAbove lateFault 1 lateFaultSchedule
                               (init ["late"; "good"]%string 1)))) "worse"
    <= occurrences latin1Only noCaseAbove lateFault "worse" ["late"; "good"]%string
  ∧ occurrences latin1Only noCaseAbove lateFault "worse" ["late"; "good"]%string
    <= sumZ (λ fn, countIn "worse" (contentTokens latin1Only noCaseAbove lateFault fn))
         ["late"; "good"]%string.
Proof.
  apply (X4_never_overcounts latin1Only noCaseAbove lateFault
           ["late"; "good"]%string 1%nat lateFaultSchedule).
  - vm_compute. reflexivity.
  - vm_compute. reflexivity.
Defined.

(** ** The log *)

(** X5. Every file is dealt with once. In every state of an execution
    the lines logged so far are among the lines of the files, no line
    being written twice. The lines of a file are a warning when it does
    not open; when it opens, a warning if the read loop is left on an
    error, a warning if the file does not close, and the line
    [Processed file]; and, when a call of the logger panics, nothing after
    that call but the error of the recovered panic. Once [processFiles]
    has returned, the log holds exactly the lines of the files that were
    taken from the work queue, and so of all the files when no file makes
    a worker panic. *)
Theorem X5_log_accounting
    (letterTable : rune → bool) (lowerTable : rune → rune)
    (fs : string → fileBehaviour) (files : list string) (n : nat)
    (sched : list action) (s : state) :
  run letterTable lowerTable fs n sched (init files n) = Some s →
  (∃ rest, logs s ++ rest ≡ₚ flat_map (fileLogs fs) files)
  ∧ (pc s = Returned →
     logs s ++ flat_map (fileLogs fs) (workQueue s) ≡ₚ flat_map (fileLogs fs) files)
  ∧ (panicFree fs files = true → pc s = Returned →
     logs s ≡ₚ flat_map (fileLogs fs) files).
Proof.
  intros Hrun.
  pose proof (Logged_run letterTable lowerTable fs n files sched _ _
                (Phase_init n files) (Logged_init fs files n) Hrun) as Hl.
  pose proof (run_reachable _ _ _ _ _ _ _ Hrun) as Hr.
  pose proof (Phase_reachable _ _ _ _ _ _ Hr) as Hph.
  unfold Logged in Hl. split; [eexists; exact Hl|].
  assert (pc s = Returned →
          logs s ++ flat_map (fileLogs fs) (workQueue s)
          ≡ₚ flat_map (fileLogs fs) files) as Hret.
  { intros Hpc.
    assert (allExited (workers s)) as Hw by (apply (ph_joined _ _ Hph); tauto).
    rewrite Hpc in Hl. simpl in Hl.
    rewrite (flat_map_nil_all (heldLogs fs) (workers s)) in Hl.
    - rewrite app_nil_r in Hl. exact Hl.
    - intros i w Hi. rewrite (Hw i w Hi). reflexivity. }
  split; [exact Hret|].
  intros Hpf Hpc. specialize (Hret Hpc).
  destruct (returned_quiescent fs n s Hph
              (Drained_reachable _ _ _ _ _ _ Hpf Hr) Hpc) as (Hq & _).
  rewrite Hq in Hret. simpl in Hret. rewrite app_nil_r in Hret. exact Hret.
Qed.

(** A pool of one over ["late"] and ["good"]: the log holds the error of
    the panic that follows the send of the first tally, and the line of
    ["good"] is never written. *)
Lemma X5_log_accounting_witness :
  (∃ rest, logs (stateAfter (run latin1Only noCaseAbove lateFault 1 lateFaultSchedule
                               (init ["late"; "good"]%string 1))) ++ rest
           ≡ₚ flat_map (fileLogs lateFault) ["late"; "good"]%string)
  ∧ (pc (stateAfter (run latin1Only noCaseAbove lateFault 1 lateFaultSchedule
                       (init ["late"; "good"]%string 1))) = Returned →
     logs (stateAfter (run latin1Only noCaseAbove lateFault 1 lateFaultSchedule
                         (init ["late"; "good"]%string 1)))
     ++ flat_map (fileLogs lateFault)
          (workQueue (stateAfter (run latin1Only noCaseAbove lateFault 1
                                    lateFaultSchedule
                                    (init ["late"; "good"]%string 1))))
     ≡ₚ flat_map (fileLogs lateFault) ["late"; "good"]%string)
  ∧ (panicFree lateFault ["late"; "good"]%string = true →
     pc (stateAfter (run latin1Only noCaseAbove lateFault 1 lateFaultSchedule
                       (init ["late"; "good"]%string 1))) = Returned →
     logs (stateAfter (run latin1Only noCaseAbove lateFault 1 lateFaultSchedule
                         (init ["late"; "good"]%string 1)))
     ≡ₚ flat_map (fileLogs lateFault) ["late"; "good"]%string).
Proof.
  apply (X5_log_accounting latin1Only noCaseAbove lateFault
           ["late"; "good"]%string 1%nat lateFaultSchedule).
  vm_compute. reflexivity.
Defined.

End FurtherResults.

(** Membership in a list of events that is written out. *)
Ltac events_in :=
  repeat match goal with
  | |- _ ∉ _ => let H := fresh in intros H
  | H : _ ∈ _ :: _ |- _ => apply elem_of_cons in H as [H|H]; try discriminate H
  | H : _ ∈ [] |- _ => apply elem_of_nil in H; destruct H
  | H : Program.StartProfile _ = Program.StartProfile _ |- _ => injection H as <-
  | |- _ ∈ _ :: _ => first [apply list_elem_of_here | apply list_elem_of_further]
  end.

Section ProgramResults.

Import Fmt Report Program.

(** ** [main] *)

(** X6. The number that [main] prints as [Total words] is the number of
    distinct words of the files, not the number of word occurrences. On a
    machine with at least one CPU, when the profiling set-up has not ended
    the program, the file list is not empty, the channels can be made and
    no file makes a worker panic, the call of [processFiles] cannot block:
    whatever execution it follows, [main] prints its banner, calls
    [processFiles] with all the arguments and [runtime.NumCPU()] workers,
    prints the elapsed time and the number of keys of the map, which is
    the number of distinct words in the token streams of the files, runs
    its deferred calls and returns. *)
Theorem X6_main_total_words
    (letterTable : rune → bool) (lowerTable : rune → rune)
    (fs : string → fileBehaviour) (maxAlloc hchanSize : Z)
    (w : world) (profileType : string)
    (args : list string) (evs inSwitch : list event)
    (profiler : option profileMode) (s0 : state) :
  args ≠ [] →
  panicFree fs args = true →
  1 <= NumCPU w →
  switchProfile w profileType = (evs, Some (profiler, inSwitch)) →
  start maxAlloc hchanSize args (NumCPU w) = Some s0 →
  callOutcome letterTable lowerTable fs (Z.to_nat (NumCPU w)) s0
    (call w args (NumCPU w)) →
  main w profileType args
  = ([Printf (String.append "Calculating each word ocurrence count.." newline)]
     ++ evs
     ++ [CallProcessFiles args (NumCPU w);
         Printf (String.append "Processing took: "
                   (String.append (elapsed w)
                      (String.append newline
                         (String.append " Total words: "
                            (String.append
                               (fmtInteger
                                  (Z.of_nat
                                     (length (distinctWords letterTable lowerTable
                                                fs args))))
                               newline)))))]
     ++ stopProfiling profiler ++ inSwitch,
     Returns).
Proof.
  intros Hargs Hpf Hcpu Hsw Hstart Hcall.
  rewrite (start_Some _ _ _ _ _ Hstart) in Hcall.
  assert (alwaysReturns letterTable lowerTable fs (Z.to_nat (NumCPU w))
            (init args (Z.to_nat (NumCPU w)))) as [Hprog _].
  { apply processFiles_alwaysReturns; [lia | exact Hpf]. }
  unfold main. rewrite Hsw. destruct args as [|fn rest]; [congruence|].
  unfold callOutcome in Hcall.
  destruct (call w (fn :: rest) (NumCPU w)) as [r|].
  - destruct Hcall as (sched & s & Hrun & Hret).
    unfold returned in Hret. destruct (pc s) eqn:Hpc; try discriminate.
    injection Hret as <-.
    rewrite (final_size letterTable lowerTable fs _ _ s Hpf
               (run_reachable _ _ _ _ _ _ _ Hrun) Hpc).
    reflexivity.
  - exfalso. destruct Hcall as (s & Hr & Hpc & Hstuck).
    destruct (Hprog s Hr Hpc) as (a & s' & Hf). rewrite Hstuck in Hf. discriminate.
Qed.

(** [main -profile=cpu a.txt b.txt c.txt] on one CPU: four distinct
    words. *)
Lemma X6_main_total_words_witness :
  main sampleWorld "cpu" ["a.txt"; "b.txt"; "c.txt"]%string
  = ([Printf (String.append "Calculating each word ocurrence count.." newline)]
     ++ [StartProfile CPUProfile]
     ++ [CallProcessFiles ["a.txt"; "b.txt"; "c.txt"]%string 1;
         Printf (String.append "Processing took: "
                   (String.append "1ms"
                      (String.append newline
                         (String.append " Total words: "
                            (String.append
                               (fmtInteger
                                  (Z.of_nat
                                     (length (distinctWords latin1Only noCaseAbove
                                                smallFiles
                                                ["a.txt"; "b.txt"; "c.txt"]%string))))
                               newline)))))]
     ++ stopProfiling (Some CPUProfile) ++ [],
     Returns).
Proof.
  apply (X6_main_total_words latin1Only noCaseAbove smallFiles (2 ^ 48) 96
           sampleWorld "cpu"
           ["a.txt"; "b.txt"; "c.txt"]%string [StartProfile CPUProfile] []
           (Some CPUProfile) (init ["a.txt"; "b.txt"; "c.txt"]%string 1)).
  - discriminate.
  - vm_compute. reflexivity.
  - simpl. lia.
  - vm_compute. reflexivity.
  - vm_compute. reflexivity.
  - assert (pc (sequentialRun smallFiles ["a.txt"; "b.txt"; "c.txt"]%string) = Returned)
      as Hpc by (vm_compute; reflexivity).
    cbn [call sampleWorld callOutcome]. unfold returned at 1. rewrite Hpc.
    exists (sequentialSchedule latin1Only noCaseAbove smallFiles
              ["a.txt"; "b.txt"; "c.txt"]%string),
           (sequentialRun smallFiles ["a.txt"; "b.txt"; "c.txt"]%string).
    split; [vm_compute; reflexivity|].
    unfold returned. rewrite Hpc. reflexivity.
Defined.

(** X7. [main] stops what it started. Whenever [main] returns, also on
    the early return for an empty argument list, a profile that was
    started is stopped by the last thing [main] does, and a trace that was
    started is stopped before its file is closed, as the last two things
    [main] does. When [main] leaves through [log.Fatal] or waits for ever
    for [processFiles], no deferred call has run: no profile is stopped,
    no trace is stopped and the trace file is not closed. With an empty
    argument list [main] does not call [processFiles]. *)
Theorem X7_main_stops_what_it_started
    (w : world) (profileType : string) (args : list string)
    (evs : list event) (e : ending) :
  main w profileType args = (evs, e) →
  (e = Returns →
   (∀ m, StartProfile m ∈ evs → last evs = Some (StopProfile m))
   ∧ (StartTrace ∈ evs → ∃ pre, evs = pre ++ [StopTrace; CloseTraceFile]))
  ∧ (e ≠ Returns →
     (∀ m, StopProfile m ∉ evs) ∧ (StopTrace ∉ evs) ∧ (CloseTraceFile ∉ evs))
  ∧ (args = [] →
     e ≠ Blocks
     ∧ (∀ files n, CallProcessFiles files n ∉ evs)
     ∧ (e = Returns → LogError "No files to process" ∈ evs)).
Proof.
  unfold main, switchProfile.
  repeat match goal with
  | |- context [String.eqb ?a ?b] => destruct (String.eqb a b); cbv iota
  end;
  destruct (createFails w), (traceFails w), args as [|fn rest];
  try destruct (call w (fn :: rest) (NumCPU w)) as [[fin [err|]]|];
  intros [= <- <-]; cbn [app stopProfiling];
  (split; [|split]); intros He; try discriminate He; try congruence;
  repeat split; try discriminate; try congruence; intros;
  events_in;
  try reflexivity;
  try (eexists [_]; reflexivity); try (eexists [_; _]; reflexivity);
  try (eexists [_; _; _]; reflexivity); try (eexists [_; _; _; _]; reflexivity);
  try (eexists [_; _; _; _; _]; reflexivity).
Qed.

(** [main -profile=trace a.txt]: the trace is stopped, then its file is
    closed. *)
Lemma X7_main_stops_what_it_started_witness :
  (snd (main sampleWorld "trace" ["a.txt"]%string) = Returns →
   (∀ m, StartProfile m ∈ fst (main sampleWorld "trace" ["a.txt"]%string) →
         last (fst (main sampleWorld "trace" ["a.txt"]%string))
         = Some (StopProfile m))
   ∧ (StartTrace ∈ fst (main sampleWorld "trace" ["a.txt"]%string) →
      ∃ pre, fst (main sampleWorld "trace" ["a.txt"]%string)
             = pre ++ [StopTrace; CloseTraceFile]))
  ∧ (snd (main sampleWorld "trace" ["a.txt"]%string) ≠ Returns →
     (∀ m, StopProfile m ∉ fst (main sampleWorld "trace" ["a.txt"]%string))
     ∧ (StopTrace ∉ fst (main sampleWorld "trace" ["a.txt"]%string))
     ∧ (CloseTraceFile ∉ fst (main sampleWorld "trace" ["a.txt"]%string)))
  ∧ (["a.txt"]%string = [] →
     snd (main sampleWorld "trace" ["a.txt"]%string) ≠ Blocks
     ∧ (∀ files n,
          CallProcessFiles files n ∉ fst (main sampleWorld "trace" ["a.txt"]%string))
     ∧ (snd (main sampleWorld "trace" ["a.txt"]%string) = Returns →
        LogError "No files to process"
        ∈ fst (main sampleWorld "trace" ["a.txt"]%string))).
Proof.
  apply (X7_main_stops_what_it_started sampleWorld "trace" ["a.txt"]%string).
  apply surjective_pairing.
Defined.

End ProgramResults.

Section TextResults.

(** ** Text *)

(** X8. Counting ignores the case of ASCII letters. Replacing every
    byte [A] to [Z] of a chunk by its lower-case byte changes neither the
    words counted in the chunk nor the tally; two chunks that differ only
    in the case of ASCII letters give the same words; and the same holds
    for the reads of a whole file. This is so for every chunk, whether or
    not it is ASCII or valid UTF-8. *)
Theorem X8_ascii_case_ignored
    (letterTable : rune → bool) (lowerTable : rune → rune) :
  (∀ chunk,
     chunkTokens letterTable lowerTable (lowerBytes chunk)
     = chunkTokens letterTable lowerTable chunk)
  ∧ (∀ chunk res,
       countChunk letterTable lowerTable res (lowerBytes chunk)
       = countChunk letterTable lowerTable res chunk)
  ∧ (∀ c1 c2,
       lowerBytes c1 = lowerBytes c2 →
       chunkTokens letterTable lowerTable c1 = chunkTokens letterTable lowerTable c2)
  ∧ (∀ pieces res,
       readLoop letterTable lowerTable (fileReads bufSize (map lowerBytes pieces)) res
       = readLoop letterTable lowerTable (fileReads bufSize pieces) res).
Proof.
  split; [|split; [|split]].
  - apply chunkTokens_lowerBytes.
  - intros chunk res. rewrite !countChunk_tokens, chunkTokens_lowerBytes. reflexivity.
  - intros c1 c2 H.
    rewrite <- (chunkTokens_lowerBytes letterTable lowerTable c1), H.
    apply chunkTokens_lowerBytes.
  - intros pieces res.
    rewrite !readLoop_tokens, fileReads_lowerBytes, tokens_lowerBytes. reflexivity.
Qed.

(** X9. For ASCII input every key of the final map is a non-empty string
    of the letters [a] to [z]: when the bytes of every file that opens are
    ASCII, no key of the final map, in any state of any execution, is empty
    or holds an upper-case letter, a digit, a punctuation mark, white space
    or any other byte. *)
Theorem X9_ascii_keys
    (letterTable : rune → bool) (lowerTable : rune → rune)
    (fs : string → fileBehaviour) (files : list string) (n : nat)
    (sched : list action) (s : state) (w : string) (c : Z) :
  (∀ fn pieces final,
     fn ∈ files → fs fn = Opens pieces final →
     Forall (λ p, allASCII p = true) pieces) →
  run letterTable lowerTable fs n sched (init files n) = Some s →
  finalResult s !! w = Some c →
  w ≠ EmptyString ∧ lowerAlpha w = true.
Proof.
  intros Hascii Hrun Hw.
  destruct (final_key_token letterTable lowerTable fs n files s w
              (run_reachable _ _ _ _ _ _ _ Hrun) (mk_is_Some _ _ Hw))
    as (fn & Hfn & Hin).
  pose proof (fileTokens_ascii letterTable lowerTable fs fn
                (λ pieces final, Hascii fn pieces final Hfn)) as Hall.
  rewrite Forall_forall in Hall. apply (Hall w Hin).
Qed.

Lemma X9_ascii_keys_witness :
  "apple"%string ≠ EmptyString ∧ lowerAlpha "apple" = true.
Proof.
  apply (X9_ascii_keys latin1Only noCaseAbove smallFiles
           ["a.txt"; "b.txt"]%string 1%nat
           (sequentialSchedule latin1Only noCaseAbove smallFiles
              ["a.txt"; "b.txt"]%string)
           (sequentialRun smallFiles ["a.txt"; "b.txt"]%string) "apple" 3).
  - intros fn pieces final Hfn Hfs.
    apply elem_of_cons in Hfn as [->|Hfn];
      [|apply elem_of_cons in Hfn as [->|Hfn]; [|apply elem_of_nil in Hfn; destruct Hfn]];
      vm_compute in Hfs; injection Hfs as <- _;
      (constructor; [vm_compute; reflexivity | constructor]).
  - vm_compute. reflexivity.
  - vm_compute. reflexivity.
Defined.

(** X10. A chunk boundary that cuts no rune only matters inside a word.
    When the first of two chunks is valid UTF-8 by itself, as every ASCII
    chunk is, the runes of the two chunks are the runes of the bytes read
    as one; the words of the two chunks are then the words of the whole,
    unless the boundary has a letter on either side, in which case the one
    word around the boundary is counted as its two parts. *)
Theorem X10_boundary_in_valid_text
    (letterTable : rune → bool) (c1 c2 : string) :
  validString c1 = true →
  rangeString (String.append c1 c2) = rangeString c1 ++ rangeString c2
  ∧ (endsWithLetter letterTable c1 = false ∨ startsWithLetter letterTable c2 = false →
     splitWords letterTable (String.append c1 c2)
     = splitWords letterTable c1 ++ splitWords letterTable c2)
  ∧ (endsWithLetter letterTable c1 = true →
     startsWithLetter letterTable c2 = true →
     ∃ ws1 x y ws2,
       splitWords letterTable c1 = ws1 ++ [x]
       ∧ splitWords letterTable c2 = y :: ws2
       ∧ splitWords letterTable (String.append c1 c2)
         = ws1 ++ [String.append x y] ++ ws2).
Proof.
  intros Hv.
  pose proof (rangeString_app_valid (String.length c1) c1 c2 (le_n _) Hv) as Happ.
  split; [exact Happ|]. split.
  - apply splitWords_no_straddle, Happ.
  - intros He Hs.
    destruct (splitWords_boundary letterTable c1 c2 Happ He Hs)
      as (ws1 & x & y & ws2 & E1 & E2 & _ & _ & E3).
    exists ws1, x, y, ws2. auto.
Qed.

(** The chunks [caf], U+00E9 and [ au lait]: the boundary has a letter
    before it and a space after it. *)
Lemma X10_boundary_in_valid_text_witness :
  rangeString (String.append cafe " au lait")
  = rangeString cafe ++ rangeString " au lait"
  ∧ (endsWithLetter latin1Only cafe = false
     ∨ startsWithLetter latin1Only " au lait" = false →
     splitWords latin1Only (String.append cafe " au lait")
     = splitWords latin1Only cafe ++ splitWords latin1Only " au lait")
  ∧ (endsWithLetter latin1Only cafe = true →
     startsWithLetter latin1Only " au lait" = true →
     ∃ ws1 x y ws2,
       splitWords latin1Only cafe = ws1 ++ [x]
       ∧ splitWords latin1Only " au lait" = y :: ws2
       ∧ splitWords latin1Only (String.append cafe " au lait")
         = ws1 ++ [String.append x y] ++ ws2).
Proof.
  apply (X10_boundary_in_valid_text latin1Only cafe " au lait").
  vm_compute. reflexivity.
Defined.

End TextResults.

Section ReportResults.

Import Fmt Report.

(** ** [printResult] *)

(** X11. The table that [printResult] writes. After the two header
    rows, [Count     Word] and [-----     ----], there is one row for each
    pair of the map. The row of a word with a count from 0 up to the
    largest [int] starts with the count in decimal digits, which denote the
    count. A count below ten thousand million is followed by spaces up to
    column ten, where the word starts; a larger count fills the column or
    runs over it, and the word follows its last digit with no space
    between them. The row ends with a line feed. *)
Theorem X11_printResult_rows (order : list (string * Z)) (w : string) (c : Z) :
  (w, c) ∈ order →
  0 <= c < 2 ^ 63 →
  printResult order
  = ("Count     Word" +:+ newline) :: ("-----     ----" +:+ newline)
    :: map (λ wc, printRow (fmtInteger wc.2) wc.1) order
  ∧ printRow (fmtInteger c) w ∈ printResult order
  ∧ allDigits (fmtInteger c) = true
  ∧ readDigits 0 (fmtInteger c) = c
  ∧ (c < 10 ^ 10 →
     printRow (fmtInteger c) w
     = fmtInteger c
       +:+ writePadding (10 - String.length (fmtInteger c)) +:+ w +:+ newline
     ∧ (String.length (fmtInteger c)
        + String.length (writePadding (10 - String.length (fmtInteger c))) = 10)%nat)
  ∧ (10 ^ 10 <= c → printRow (fmtInteger c) w = fmtInteger c +:+ w +:+ newline).
Proof.
  intros Hin Hc.
  rewrite fmtInteger_nonneg by lia.
  destruct (fmtDigits_spec 19 c ltac:(change (10 ^ Z.of_nat 20) with (10 ^ 20); lia))
    as (Hd & Hr & Hl & Hk).
  specialize (Hk 10%nat ltac:(lia)). change (10 ^ Z.of_nat 10) with (10 ^ 10) in Hk.
  assert (∀ b, printRow (fmtDigits 20 c EmptyString) b
               = fmtDigits 20 c EmptyString
                 +:+ writePadding (10 - String.length (fmtDigits 20 c EmptyString))
                 +:+ b +:+ newline) as Hrow.
  { intros b. unfold printRow, padRight.
    rewrite (RuneCountInString_ascii _ (allDigits_allASCII _ Hd)).
    rewrite append_assoc. reflexivity. }
  split; [reflexivity|]. split; [|split; [exact Hd|split; [exact Hr|split]]].
  - unfold printResult. do 2 apply list_elem_of_further.
    apply list_elem_of_fmap. exists (w, c). cbn [fst snd].
    rewrite fmtInteger_nonneg by lia. split; [reflexivity | exact Hin].
  - intros Hlt. split; [apply Hrow|].
    rewrite length_writePadding. apply Hk in Hlt. lia.
  - intros Hge. rewrite Hrow.
    assert (¬ (String.length (fmtDigits 20 c EmptyString) <= 10)%nat) as Hlen.
    { intros Hle. apply Hk in Hle. lia. }
    replace (10 - String.length (fmtDigits 20 c EmptyString))%nat with 0%nat by lia.
    cbn [writePadding]. rewrite append_nil_l. reflexivity.
Qed.

Lemma X11_printResult_rows_witness :
  printResult [("banana", 12345678901); ("apple", 42)]%string
  = ("Count     Word" +:+ newline) :: ("-----     ----" +:+ newline)
    :: map (λ wc, printRow (fmtInteger wc.2) wc.1)
         [("banana", 12345678901); ("apple", 42)]%string
  ∧ printRow (fmtInteger 42) "apple"
    ∈ printResult [("banana", 12345678901); ("apple", 42)]%string
  ∧ allDigits (fmtInteger 42) = true
  ∧ readDigits 0 (fmtInteger 42) = 42
  ∧ (42 < 10 ^ 10 →
     printRow (fmtInteger 42) "apple"
     = fmtInteger 42
       +:+ writePadding (10 - String.length (fmtInteger 42)) +:+ "apple" +:+ newline
     ∧ (String.length (fmtInteger 42)
        + String.length (writePadding (10 - String.length (fmtInteger 42))) = 10)%nat)
  ∧ (10 ^ 10 <= 42 → printRow (fmtInteger 42) "apple" = fmtInteger 42 +:+ "apple" +:+ newline).
Proof.
  apply (X11_printResult_rows [("banana", 12345678901); ("apple", 42)]%string
           "apple" 42).
  - apply list_elem_of_further, list_elem_of_here.
  - lia.
Defined.

End ReportResults.


Section TestResults.

(** ** The test *)

(** X12. [TestProcessFiles] passes under every schedule. Once the two
    test files are written, for every number of CPUs of at least one, the
    call of [processFiles] in the test returns on every execution, with a
    nil error and a map in which [apple] has 8, [orange] 2 and [banana] 6,
    so that the test reports nothing; these three are the only keys of the
    map. *)
Theorem X12_TestProcessFiles_passes
    (letterTable : rune → bool) (lowerTable : rune → rune)
    (fs : string → fileBehaviour) (n : nat) :
  (1 <= n)%nat →
  alwaysReturns letterTable lowerTable (ProcessFilesTest.written fs) n
    (init ProcessFilesTest.files n)
  ∧ ∀ sched s,
      run letterTable lowerTable (ProcessFilesTest.written fs) n sched
        (init ProcessFilesTest.files n) = Some s →
      pc s = Returned →
      returned s = Some (finalResult s, None)
      ∧ ProcessFilesTest.TestProcessFiles (finalResult s) None = []
      ∧ finalResult s = list_to_map ProcessFilesTest.expectedResult.
Proof.
  intros Hn.
  assert (panicFree (ProcessFilesTest.written fs) ProcessFilesTest.files = true) as Hpf
    by reflexivity.
  split; [apply processFiles_alwaysReturns; [exact Hn | exact Hpf]|].
  intros sched s Hrun Hpc.
  destruct (run_final_lookup letterTable lowerTable (ProcessFilesTest.written fs) n
              ProcessFilesTest.files sched s Hpf Hrun Hpc) as [Hret Hl].
  split; [exact Hret|].
  assert (fileTokens letterTable lowerTable (ProcessFilesTest.written fs)
            ProcessFilesTest.testFile1
          = ["apple"; "orange"; "banana"; "apple";
             "banana"; "apple"; "apple"; "banana"]%string) as Htok1
    by (vm_compute; reflexivity).
  assert (fileTokens letterTable lowerTable (ProcessFilesTest.written fs)
            ProcessFilesTest.testFile2
          = ["apple"; "orange"; "banana"; "apple";
             "banana"; "apple"; "apple"; "banana"]%string) as Htok2
    by (vm_compute; reflexivity).
  assert (finalResult s = list_to_map ProcessFilesTest.expectedResult) as Hfin.
  { apply map_eq. intros w. rewrite Hl.
    unfold occurrences, ProcessFilesTest.files. cbn [sumZ foldr].
    rewrite Htok1, Htok2.
    unfold ProcessFilesTest.expectedResult. cbn [list_to_map foldr fst snd].
    rewrite ?countIn_cons, ?countIn_nil.
    repeat match goal with
    | |- context [decide (?k = w)] =>
        destruct (decide (k = w)) as [<-|?]; [vm_compute; reflexivity|]
    end.
    rewrite ?lookup_insert_ne, ?lookup_empty by assumption. reflexivity. }
  split; [|exact Hfin].
  rewrite Hfin. vm_compute. reflexivity.
Qed.

Lemma X12_TestProcessFiles_passes_witness :
  alwaysReturns latin1Only noCaseAbove (ProcessFilesTest.written smallFiles) 4
    (init ProcessFilesTest.files 4)
  ∧ ∀ sched s,
      run latin1Only noCaseAbove (ProcessFilesTest.written smallFiles) 4 sched
        (init ProcessFilesTest.files 4) = Some s →
      pc s = Returned →
      returned s = Some (finalResult s, None)
      ∧ ProcessFilesTest.TestProcessFiles (finalResult s) None = []
      ∧ finalResult s = list_to_map ProcessFilesTest.expectedResult.
Proof.
  apply (X12_TestProcessFiles_passes latin1Only noCaseAbove smallFiles 4). lia.
Defined.

End TestResults.

Section EncodingResults.

(** ** UTF-8 *)

(** X13. The decoder behind [range] and [strings.FieldsFunc] and the
    encoder behind [strings.ToLower] undo each other. Decoding the encoding
    of a Unicode scalar value gives the value and the length of the
    encoding, whatever bytes follow; a rune that is decoded without error
    is a scalar value whose encoding is the bytes it was decoded from; a
    rune value that is no scalar value is encoded as U+FFFD; and encoding
    the runes of valid text again gives the text. *)
Theorem X13_utf8_round_trip :
  (∀ r rest,
     ValidRune r = true →
     DecodeRuneInString (String.append (EncodeRune r) rest)
     = (r, String.length (EncodeRune r)))
  ∧ (∀ c t r w,
       DecodeRuneInString (String c t) = (r, w) →
       decodedRune (r, takeS w (String c t)) = true →
       ValidRune r = true ∧ EncodeRune r = takeS w (String c t))
  ∧ (∀ r, 0 <= r < 2 ^ 32 → ValidRune r = false →
          EncodeRune r = EncodeRune RuneError)
  ∧ (∀ s, validString s = true →
          concatS (map (λ x : rune * string, EncodeRune (fst x)) (rangeString s)) = s).
Proof.
  split; [|split; [|split]].
  - apply DecodeRuneInString_EncodeRune.
  - apply EncodeRune_DecodeRuneInString.
  - intros r Hr Hv. rewrite (encode_invalid r Hr Hv). reflexivity.
  - apply reencode_valid.
Qed.

Lemma X13_utf8_round_trip_witness :
  DecodeRuneInString (String.append (EncodeRune 0xE9) "s")
  = (0xE9, String.length (EncodeRune 0xE9))
  ∧ (ValidRune 0x20AC = true
     ∧ EncodeRune 0x20AC = takeS 3 (String.append (EncodeRune 0x20AC) "5"))
  ∧ EncodeRune 0xD800 = EncodeRune RuneError
  ∧ concatS (map (λ x : rune * string, EncodeRune (fst x)) (rangeString cafe)) = cafe.
Proof.
  pose proof X13_utf8_round_trip as (Hdec & Henc & Hbad & Hall).
  split; [|split; [|split]].
  - apply (Hdec 0xE9 "s"%string). reflexivity.
  - apply (Henc (toByte 0xE2) (String.append (dropS 1 (EncodeRune 0x20AC)) "5") 0x20AC 3%nat).
    + vm_compute. reflexivity.
    + vm_compute. reflexivity.
  - apply (Hbad 0xD800); [lia | reflexivity].
  - apply (Hall cafe). vm_compute. reflexivity.
Defined.

(** X14. Every key of the final map is a non-empty string of valid
    UTF-8, whatever bytes the files hold: [strings.ToLower] returns a
    string of ASCII bytes for an ASCII word, and for any other word the
    encodings of the runes it maps to, with U+FFFD for what is not a scalar
    value (the lower-case table yielding values of the type [rune]). *)
Theorem X14_keys_are_valid_utf8
    (letterTable : rune → bool) (lowerTable : rune → rune)
    (fs : string → fileBehaviour) (files : list string) (n : nat)
    (sched : list action) (s : state) (w : string) (c : Z) :
  (∀ r, 0 <= r <= MaxRune → lowerTable r < 2 ^ 31) →
  run letterTable lowerTable fs n sched (init files n) = Some s →
  finalResult s !! w = Some c →
  w ≠ EmptyString ∧ validString w = true.
Proof.
  intros Hl Hrun Hw.
  destruct (final_key_token letterTable lowerTable fs n files s w
              (run_reachable _ _ _ _ _ _ _ Hrun) (mk_is_Some _ _ Hw))
    as (fn & Hfn & Hin).
  split.
  - unfold fileTokens in Hin.
    destruct (fs fn) as [|written|pieces [final closeFails info|written|final written]];
      try (apply elem_of_nil in Hin; destruct Hin).
    apply list_elem_of_In, in_flat_map in Hin as (chunk & _ & Hin).
    apply list_elem_of_In in Hin. unfold chunkTokens in Hin.
    apply list_elem_of_filter in Hin as [Hne _]. exact Hne.
  - pose proof (fileTokens_valid letterTable lowerTable fs fn Hl) as Hall.
    rewrite Forall_forall in Hall. apply (Hall w Hin).
Qed.

Lemma X14_keys_are_valid_utf8_witness :
  cafe ≠ EmptyString ∧ validString cafe = true.
Proof.
  apply (X14_keys_are_valid_utf8 latin1Only noCaseAbove mixedBytes
           ["f"]%string 1%nat
           (sequentialSchedule latin1Only noCaseAbove mixedBytes ["f"]%string)
           (sequentialRun mixedBytes ["f"]%string) cafe 1).
  - intros r Hr. unfold noCaseAbove, MaxRune in *. lia.
  - vm_compute. reflexivity.
  - vm_compute. reflexivity.
Defined.

End EncodingResults.

Section EarlierResults.

(** ** The earlier tokenizer *)

(** X15. [removePunctuation], the filter of the earlier version of the
    worker, keeps the bytes of the letters of a word, in order, and drops
    everything else: its result is the concatenation of the words that the
    present tokenizer finds in the same string, so that [co-op], which is
    now the two words [co] and [op], was then the one word [coop]. Applying
    it twice changes nothing; its result is a single word for the present
    tokenizer, and it is empty exactly when the string holds no word (the
    replacement character U+FFFD not being a letter). *)
Theorem X15_removePunctuation_keeps_letters
    (letterTable : rune → bool) (word : string) :
  letterTable RuneError = false →
  Earlier.removePunctuation letterTable word = letterBytes letterTable word
  ∧ Earlier.removePunctuation letterTable word
    = concatS (splitWords letterTable word)
  ∧ Earlier.removePunctuation letterTable
      (Earlier.removePunctuation letterTable word)
    = Earlier.removePunctuation letterTable word
  ∧ splitWords letterTable (Earlier.removePunctuation letterTable word)
    = (if String.eqb (Earlier.removePunctuation letterTable word) EmptyString
       then [] else [Earlier.removePunctuation letterTable word])
  ∧ (Earlier.removePunctuation letterTable word = EmptyString
     ↔ splitWords letterTable word = []).
Proof.
  intros Hrep.
  pose proof (removePunctuation_letterBytes letterTable Hrep) as E.
  rewrite !E. split; [reflexivity|]. split; [|split; [|split]].
  - symmetry. apply splitWords_concat.
  - apply letterBytes_idem, Hrep.
  - apply splitWords_letterBytes, Hrep.
  - rewrite <- splitWords_concat. split.
    + apply concatS_empty, FieldsFunc_nonempty.
    + intros ->. reflexivity.
Qed.

Lemma X15_removePunctuation_keeps_letters_witness :
  Earlier.removePunctuation latin1Only "co-op!" = letterBytes latin1Only "co-op!"
  ∧ Earlier.removePunctuation latin1Only "co-op!"
    = concatS (splitWords latin1Only "co-op!")
  ∧ Earlier.removePunctuation latin1Only
      (Earlier.removePunctuation latin1Only "co-op!")
    = Earlier.removePunctuation latin1Only "co-op!"
  ∧ splitWords latin1Only (Earlier.removePunctuation latin1Only "co-op!")
    = (if String.eqb (Earlier.removePunctuation latin1Only "co-op!") EmptyString
       then [] else [Earlier.removePunctuation latin1Only "co-op!"])
  ∧ (Earlier.removePunctuation latin1Only "co-op!" = EmptyString
     ↔ splitWords latin1Only "co-op!" = []).
Proof.
  apply (X15_removePunctuation_keeps_letters latin1Only "co-op!"). reflexivity.
Defined.

End EarlierResults.

Section FaultResults.

(** ** Panics and the pool *)

(** X16. Panics use up the pool. When the list of files starts with as
    many files on which a call of the logger panics as there are workers,
    and goes on with other files, every worker is lost to one of the first
    files and none of the other files is ever read: in every state of
    every execution they are all still in the work queue or not yet sent.
    When the other files fit into the work queue, [processFiles] returns
    on every execution, with a nil error and a map that holds what the
    first files sent before their panic and nothing else; when there are
    more of them than the queue holds, it never returns. *)
Theorem X16_panics_use_up_the_pool
    (letterTable : rune → bool) (lowerTable : rune → rune)
    (fs : string → fileBehaviour) (bad rest : list string) (n : nat) :
  length bad = n →
  (∀ fn, fn ∈ bad → faultFree (fs fn) = false) →
  (∀ sched s,
     run letterTable lowerTable fs n sched (init (bad ++ rest) n) = Some s →
     (∃ k, workQueue s ++ pcFiles (pc s) = drop k bad ++ rest)
     ∧ (pc s = Returned →
        returned s = Some (finalResult s, None)
        ∧ workQueue s = rest
        ∧ ∀ w, valAt (finalResult s) w
               = wrapInt (occurrences letterTable lowerTable fs w bad)))
  ∧ ((length rest <= n)%nat →
     alwaysReturns letterTable lowerTable fs n (init (bad ++ rest) n))
  ∧ ((n < length rest)%nat →
     ∀ sched s,
       run letterTable lowerTable fs n sched (init (bad ++ rest) n) = Some s →
       pc s ≠ Returned).
Proof.
  intros Hlen Hbad.
  assert (∀ sched s,
            run letterTable lowerTable fs n sched (init (bad ++ rest) n) = Some s →
            pc s = Returned →
            workQueue s = rest
            ∧ ∀ w, valAt (finalResult s) w
                   = wrapInt (occurrences letterTable lowerTable fs w bad)) as Hret.
  { intros sched s Hrun Hpc.
    apply (starved_returned letterTable lowerTable fs n bad rest Hlen Hbad s);
      [eapply run_reachable, Hrun | exact Hpc]. }
  split; [|split].
  - intros sched s Hrun. split.
    + pose proof (Starved_run letterTable lowerTable fs n bad rest Hlen Hbad
                    sched _ _ (Phase_init n _)
                    (Starved_init fs n bad rest) Hrun) as [Hrem _].
      eexists. exact Hrem.
    + intros Hpc. destruct (Hret sched s Hrun Hpc) as [Hq Hv].
      split; [unfold returned; rewrite Hpc; reflexivity|]. split; assumption.
  - apply starved_alwaysReturns; assumption.
  - intros Hmore sched s Hrun Hpc.
    destruct (Hret sched s Hrun Hpc) as [Hq _].
    pose proof (ph_workQueue _ _
                  (Phase_reachable _ _ _ _ _ _ (run_reachable _ _ _ _ _ _ _ Hrun))) as Hle.
    rewrite Hq in Hle. lia.
Qed.

(** A pool of one, the file ["late"], whose tally is sent before the
    logger panics, and the file ["good"], which fits into the queue. *)
Lemma X16_panics_use_up_the_pool_witness :
  (∀ sched s,
     run latin1Only noCaseAbove lateFault 1 sched
       (init (["late"%string] ++ ["good"%string]) 1) = Some s →
     (∃ k, workQueue s ++ pcFiles (pc s) = drop k ["late"%string] ++ ["good"%string])
     ∧ (pc s = Returned →
        returned s = Some (finalResult s, None)
        ∧ workQueue s = ["good"%string]
        ∧ ∀ w, valAt (finalResult s) w
               = wrapInt (occurrences latin1Only noCaseAbove lateFault w
                            ["late"%string])))
  ∧ ((length ["good"%string] <= 1)%nat →
     alwaysReturns latin1Only noCaseAbove lateFault 1
       (init (["late"%string] ++ ["good"%string]) 1))
  ∧ ((1 < length ["good"%string])%nat →
     ∀ sched s,
       run latin1Only noCaseAbove lateFault 1 sched
         (init (["late"%string] ++ ["good"%string]) 1) = Some s →
       pc s ≠ Returned).
Proof.
  apply (X16_panics_use_up_the_pool latin1Only noCaseAbove lateFault
           ["late"%string] ["good"%string] 1%nat).
  - reflexivity.
  - intros fn Hfn. apply list_elem_of_singleton in Hfn as ->. reflexivity.
Defined.

End FaultResults.
